(** * a8c-d3-chart: the numeric core of [src/utils.js]

    A shallow embedding of the tick planner ([getFactors],
    [calculateMaxXTicks], [getFirstDatePerMonth],
    [calculateXTicksIncrementFactor], [getXTicksFromIncrementFactor],
    [getXTicks]), the date-span builder ([getDateSpaces]), the y-axis
    rounder ([getYMax]), the tooltip positioner
    ([calculateTooltipXPosition], [calculateTooltipYPosition],
    [calculateTooltipPosition]), the data pipeline ([getUniqueKeys],
    [getOrderedKeys], [getLineData], [getUniqueDates]), the colors
    ([getColor]) and the labels, grid and strokes of the drawing code
    ([compareStrings], [removeDuplicateDates], [yGrids], [lineStroke],
    [dotRadius]), followed by the properties proved of them.

    Conventions.
    - JavaScript numbers that are array lengths, indices or tick budgets are
      integers ([Z]); pixel quantities and data values are rationals ([Q]),
      i.e. the arithmetic of the source read exactly, without the rounding
      of IEEE doubles.  [NaN] is kept where the source can produce it.
      For [getYMax], whose result depends on [Math.log] next to a power of
      ten and on the range of the doubles, [Runtime.getYMax] takes the
      logarithm from the runtime and models that range.
    - Dates are the strings of the [data] prop.  What the JavaScript runtime
      or d3 computes from them ([new Date(d).getMonth()], the parsed time,
      the pixel position on a d3 scale) is passed in as a function.
    - A [while] or [for] loop whose trip count is not known beforehand takes
      a fuel argument and returns [None] when the fuel runs out. *)

From Stdlib Require Import String Ascii.
From Stdlib Require Import ZArith Znumtheory QArith Qround Qpower Qminmax Qabs.
From Stdlib Require Import List Bool Lia Lqa Sorted Permutation.
Import ListNotations.

Local Open Scope Z_scope.

(** ** Constants of the module *)

Definition dayTicksThreshold : Z := 63.
Definition weekTicksThreshold : Z := 9.
Definition smallBreak : Q := 783.
Definition mediumBreak : Q := 1130.
Definition wideBreak : Q := 1365.
Definition smallPoints : Z := 7.
Definition mediumPoints : Z := 12.
Definition largePoints : Z := 16.
Definition mostPoints : Z := 31.

(** ** JavaScript helpers *)

(** [x < y] on finite numbers. *)
Definition Qlt_bool (x y : Q) : bool := negb (Qle_bool y x).

(** [array.length] as a JavaScript number. *)
Definition jsLength {A : Type} (l : list A) : Z := Z.of_nat (length l).

(** [array[i]]; [None] is [undefined] (index out of range). *)
Definition jsIndex {A : Type} (l : list A) (i : Z) : option A :=
  if i <? 0 then None else nth_error l (Z.to_nat i).

(** [array.filter( ( x, i ) => p x i )]. *)
Fixpoint filterFrom {A : Type} (p : A -> Z -> bool) (i : Z) (l : list A) : list A :=
  match l with
  | [] => []
  | x :: rest =>
      if p x i then x :: filterFrom p (i + 1) rest else filterFrom p (i + 1) rest
  end.

Definition jsFilter {A : Type} (p : A -> Z -> bool) (l : list A) : list A :=
  filterFrom p 0 l.

(** [array.sort( ( x, y ) => x - y )]: the numeric sort. *)
Fixpoint insertNumeric (x : Z) (l : list Z) : list Z :=
  match l with
  | [] => [x]
  | y :: rest => if x <=? y then x :: l else y :: insertNumeric x rest
  end.

Fixpoint sortNumeric (l : list Z) : list Z :=
  match l with
  | [] => []
  | x :: rest => insertNumeric x (sortNumeric rest)
  end.

(** ** Factorizer *)

(** The body of the [for] loop of [getFactors], run [count] times from [i].
    For an integer [inputNum] the loop runs [floor(sqrt(inputNum))] times, and
    not at all when [inputNum] is zero or negative ([Math.sqrt] of a negative
    number is [NaN], and [1 <= NaN] is false). *)
Fixpoint getFactorsLoop (count : nat) (i inputNum : Z) (numFactors : list Z) : list Z :=
  match count with
  | O => numFactors
  | S count' =>
      let numFactors' :=
        if inputNum mod i =? 0
        then (if inputNum / i =? i
              then numFactors ++ [i]
              else numFactors ++ [i; inputNum / i])
        else numFactors in
      getFactorsLoop count' (i + 1) inputNum numFactors'
  end.

Definition getFactors (inputNum : Z) : list Z :=
  sortNumeric (getFactorsLoop (Z.to_nat (Z.sqrt inputNum)) 1 inputNum []).

(** The divisor list of the spec, in the spec's words: all positive integer
    divisors of [n], ascending, including 1 and [n].  It is compared with
    [getFactors] below. *)
Definition divisors (n : Z) : list Z :=
  filter (fun d => n mod d =? 0) (map Z.of_nat (seq 1 (Z.to_nat n))).

(** ** Tick planner *)

Definition calculateMaxXTicks (width : Q) (mode : string) : Z :=
  if Qlt_bool width smallBreak then smallPoints
  else if Qle_bool smallBreak width && Qle_bool width mediumBreak then mediumPoints
  else if Qlt_bool mediumBreak width && Qle_bool width wideBreak then
    (if String.eqb mode "time-comparison" then largePoints
     else if String.eqb mode "item-comparison" then mediumPoints
     else largePoints)
  else if Qlt_bool wideBreak width then
    (if String.eqb mode "time-comparison" then mostPoints
     else if String.eqb mode "item-comparison" then largePoints
     else largePoints)
  else largePoints.

(** [a !== b] on the results of [getMonth()]; [None] is [NaN], which differs
    from every number and from itself. *)
Definition monthDiffers (a b : option Z) : bool :=
  match a, b with
  | Some x, Some y => negb (x =? y)
  | _, _ => true
  end.

Section TickPlanner.

(** [getMonth d] is [new Date( d ).getMonth()]: the month (0 to 11) in the
    local time zone, or [None] ([NaN]) for a string that is not a date. *)
Variable getMonth : string -> option Z.

(** [new Date( dates[ i ] ).getMonth()], where [dates[ i ]] may be
    [undefined], which gives an invalid date. *)
Definition monthAt (dates : list string) (i : Z) : option Z :=
  match jsIndex dates i with
  | Some d => getMonth d
  | None => None
  end.

Definition getFirstDatePerMonth (dates : list string) : list string :=
  jsFilter
    (fun date i => (i =? 0) || monthDiffers (getMonth date) (monthAt dates (i - 1)))
    dates.

(** The [for] loop of [getXTicksFromIncrementFactor].  [idx] is [None] once
    it is [NaN] (after adding an [undefined] increment factor).  The result
    [None] stands for a run that returns no tick list.  With a zero or
    negative factor the condition of the loop never fails, every round
    pushes one more element, and the source leaves the loop only by the
    [RangeError] of an array that cannot grow any further; the model has no
    such limit and uses up any fuel instead: [None] either way.  An
    [undefined] element, which only such a run can read, is not recorded. *)
Fixpoint ticksLoop (fuel : nat) (uniqueDates : list string)
    (incrementFactor : option Z) (idx : option Z) (ticks : list string)
    : option (list string) :=
  match fuel with
  | O => None
  | S fuel' =>
      match idx with
      | None => Some ticks
      | Some j =>
          if j <? jsLength uniqueDates
          then ticksLoop fuel' uniqueDates incrementFactor
                 (match incrementFactor with Some f => Some (j + f) | None => None end)
                 (match jsIndex uniqueDates j with
                  | Some d => ticks ++ [d]
                  | None => ticks
                  end)
          else Some ticks
      end
  end.

(** [ticks[ 0 ] !== uniqueDates[ 0 ]]. *)
Definition firstDiffers (ticks uniqueDates : list string) : bool :=
  match jsIndex ticks 0, jsIndex uniqueDates 0 with
  | Some t, Some u => negb (String.eqb t u)
  | None, None => false
  | _, _ => true
  end.

(** After the loop, [ticks.unshift( uniqueDates[ 0 ] )] when the first tick
    is not the first date.  The two can only differ when both exist. *)
Definition getXTicksFromIncrementFactor (fuel : nat) (uniqueDates : list string)
    (incrementFactor : option Z) : option (list string) :=
  match ticksLoop fuel uniqueDates incrementFactor (Some 0) [] with
  | None => None
  | Some ticks =>
      if firstDiffers ticks uniqueDates
      then Some (match jsIndex uniqueDates 0 with
                 | Some u => u :: ticks
                 | None => ticks
                 end)
      else Some ticks
  end.

(** The [while] loop of [calculateXTicksIncrementFactor]: one unit of fuel
    per evaluation of the body; the result is the value of [factors] when
    the loop is left. *)
Fixpoint factorsLoop (fuel : nat) (len i : Z) : option (list Z) :=
  match fuel with
  | O => None
  | S fuel' =>
      let factors := getFactors (len - i) in
      if jsLength factors <=? 3 then factorsLoop fuel' len (i + 1) else Some factors
  end.

(** [uniqueDates.length / f < maxTicks].  The factors are positive, so the
    division is never by zero. *)
Definition fewerThanMaxTicks (len maxTicks f : Z) : bool :=
  Qlt_bool (inject_Z len / inject_Z f) (inject_Z maxTicks).

(** Outer [None]: the loop did not finish within the fuel.  Inner [None]:
    [find] returned [undefined]. *)
Definition calculateXTicksIncrementFactor (fuel : nat) (uniqueDates : list string)
    (maxTicks : Z) : option (option Z) :=
  match factorsLoop fuel (jsLength uniqueDates) 1 with
  | None => None
  | Some factors =>
      Some (find (fewerThanMaxTicks (jsLength uniqueDates) maxTicks) factors)
  end.

(** The value of [uniqueDates] after the first [if] of [getXTicks]. *)
Definition collapseDates (uniqueDates : list string) (interval : string) : list string :=
  if ((dayTicksThreshold <=? jsLength uniqueDates) && String.eqb interval "day")
     || ((weekTicksThreshold <=? jsLength uniqueDates) && String.eqb interval "week")
  then getFirstDatePerMonth uniqueDates
  else uniqueDates.

(** The rest of [getXTicks], on the possibly collapsed dates. *)
Definition thinDates (fuel : nat) (uniqueDates : list string) (maxTicks : Z)
    : option (list string) :=
  if jsLength uniqueDates <=? maxTicks then Some uniqueDates
  else
    match calculateXTicksIncrementFactor fuel uniqueDates maxTicks with
    | None => None
    | Some incrementFactor =>
        getXTicksFromIncrementFactor fuel uniqueDates incrementFactor
    end.

Definition getXTicks (fuel : nat) (uniqueDates : list string) (width : Q)
    (mode interval : string) : option (list string) :=
  let maxTicks := calculateMaxXTicks width mode in
  thinDates fuel (collapseDates uniqueDates interval) maxTicks.

End TickPlanner.

(** The first step of the spec's tick planner, in the spec's words: keep
    index 0 and every date whose month differs from the month of the prior
    kept date.  It is compared with [getFirstDatePerMonth] below. *)
Fixpoint keepMonthChanges (getMonth : string -> option Z) (lastKept : string)
    (dates : list string) : list string :=
  match dates with
  | [] => []
  | d :: rest =>
      if monthDiffers (getMonth d) (getMonth lastKept)
      then d :: keepMonthChanges getMonth d rest
      else keepMonthChanges getMonth lastKept rest
  end.

Definition firstOfEachMonth (getMonth : string -> option Z) (dates : list string)
    : list string :=
  match dates with
  | [] => []
  | d :: rest => d :: keepMonthChanges getMonth d rest
  end.

(** For each date after the first, whether its month differs from the month
    of the date before it. *)
Fixpoint monthChangesFrom (getMonth : string -> option Z) (prev : string)
    (dates : list string) : list bool :=
  match dates with
  | [] => []
  | d :: rest =>
      monthDiffers (getMonth d) (getMonth prev) :: monthChangesFrom getMonth d rest
  end.

Definition monthChanges (getMonth : string -> option Z) (dates : list string)
    : list bool :=
  match dates with
  | [] => []
  | d :: rest => monthChangesFrom getMonth d rest
  end.

(** Every [true] is followed by at least [k - 1] times [false], unless the
    list ends before. *)
Fixpoint spaced (k : nat) (l : list bool) : bool :=
  match l with
  | [] => true
  | b :: rest =>
      (if b then forallb negb (firstn (k - 1) rest) else true) && spaced k rest
  end.

(** Daily dates, as far as the months show it: one date per day, so that
    after a change of month the next 27 dates are in that same month (no
    month has fewer than 28 days). *)
Definition dailyDates (getMonth : string -> option Z) (dates : list string) : bool :=
  spaced 28 (monthChanges getMonth dates).

(** [sub] is a subsequence of [l]: some of its elements, in the same order. *)
Inductive Subseq {A : Type} : list A -> list A -> Prop :=
  | Subseq_nil : Subseq [] []
  | Subseq_keep (a : A) (sub l : list A) : Subseq sub l -> Subseq (a :: sub) (a :: l)
  | Subseq_skip (a : A) (sub l : list A) : Subseq sub l -> Subseq sub (a :: l).

(** What [getUniqueDates] returns, with [parseDate d] the time value of the
    parsed date: dates sorted ascending by parsed date, no two of them the
    same date. *)
Definition sortedByDate (parseDate : string -> Z) (dates : list string) : Prop :=
  Sorted (fun a b => parseDate a <= parseDate b) dates.

Definition uniqueByDate (parseDate : string -> Z) (dates : list string) : Prop :=
  NoDup (map parseDate dates).

(** Every date is earlier than all the dates after it. *)
Definition strictlyIncreasing (parseDate : string -> Z) (dates : list string) : Prop :=
  StronglySorted (fun a b => parseDate a < parseDate b) dates.

(** ** Date-span builder *)

(** A row of the [data] prop: its [date] and, per category key, the [value]
    of that category (the optional [label] plays no part here). *)
Record DataRow : Type := mkDataRow {
  row_date : string;
  row_fields : list (string * Q)
}.

Module DateValue.
Record t : Type := mk { key : string; value : Q; date : string }.
End DateValue.

Module DateSpace.
Record t : Type := mk {
  date : string;
  start : Q;
  width : Q;
  values : list DateValue.t
}.
End DateSpace.

(** [array.map( ( x, i ) => f x i )] for a callback that may throw
    ([None]). *)
Fixpoint mapFrom {A B : Type} (f : A -> Z -> option B) (i : Z) (l : list A)
    : option (list B) :=
  match l with
  | [] => Some []
  | x :: rest =>
      match f x i with
      | None => None
      | Some y =>
          match mapFrom f (i + 1) rest with
          | None => None
          | Some ys => Some (y :: ys)
          end
      end
  end.

Section DateSpaces.

Variable data : list DataRow.
Variable uniqueDates : list string.
Variable width : Q.
(** [xLineScale d] is [xLineScale( new Date( d ) )]. *)
Variable xLineScale : string -> Q.

(** [xLineScale( new Date( uniqueDates[ j ] ) )] for an index that the
    callback only uses in range; [d] is the date of the callback. *)
Definition xAt (d : string) (j : Z) : Q :=
  xLineScale (nth (Z.to_nat j) uniqueDates d).

(** [start] and [width] of the span of [uniqueDates[ i ] = d]. *)
Definition spanStartWidth (d : string) (i : Z) : Q * Q :=
  let xNow := xLineScale d in
  let xPrev := if 1 <=? i then xAt d (i - 1) else xAt d 0 in
  let xNext :=
    if i <? jsLength uniqueDates - 1
    then xAt d (i + 1)
    else xAt d (jsLength uniqueDates - 1) in
  let xWidth := if i =? 0 then (xNext - xNow)%Q else (xNow - xPrev)%Q in
  let xStart := if i =? 0 then 0%Q else (xNow - xWidth / 2)%Q in
  let xWidth' :=
    if (i =? 0) || (i =? jsLength uniqueDates - 1) then (xWidth / 2)%Q else xWidth in
  (if 1 <? jsLength uniqueDates then xStart else 0%Q,
   if 1 <? jsLength uniqueDates then xWidth' else width).

(** The callback of [getDateSpaces].  [find( data, { date: d } )] gives the
    first row of that date; without one, [Object.keys( undefined )] throws.
    The keys of a row other than ['date'] are its fields. *)
Definition dateSpaceOf (d : string) (i : Z) : option DateSpace.t :=
  match find (fun row => String.eqb (row_date row) d) data with
  | None => None
  | Some datapoints =>
      let sw := spanStartWidth d i in
      Some (DateSpace.mk d (fst sw) (snd sw)
              (map (fun kv => DateValue.mk (fst kv) (snd kv) d)
                   (filter (fun kv => negb (String.eqb (fst kv) "date"))
                           (row_fields datapoints))))
  end.

Definition getDateSpaces : option (list DateSpace.t) :=
  mapFrom dateSpaceOf 0 uniqueDates.

End DateSpaces.

(** The spans are contiguous: each one starts where the one before it ends. *)
Definition contiguous (spans : list DateSpace.t) : Prop :=
  forall (i : nat) (a b : DateSpace.t),
    nth_error spans i = Some a ->
    nth_error spans (S i) = Some b ->
    (DateSpace.start b == DateSpace.start a + DateSpace.width a)%Q.

(** The spans cover exactly [[0, chartWidth]]: the first starts at 0 and the
    last ends at [chartWidth]. *)
Definition coversChart (chartWidth : Q) (spans : list DateSpace.t) : Prop :=
  (forall a, nth_error spans 0 = Some a -> (DateSpace.start a == 0)%Q) /\
  (forall a, nth_error spans (pred (length spans)) = Some a ->
     (DateSpace.start a + DateSpace.width a == chartWidth)%Q).

(** Every unique date has a row in [data] (the unique dates are taken from
    the rows). *)
Definition datesHaveRows (data : list DataRow) (uniqueDates : list string) : Prop :=
  forall d, In d uniqueDates -> exists row, In row data /\ row_date row = d.

(** The dates are equally spaced in pixels. *)
Definition equallySpaced (uniqueDates : list string) (xLineScale : string -> Q) : Prop :=
  forall (i : nat) (a b c : string),
    nth_error uniqueDates i = Some a ->
    nth_error uniqueDates (S i) = Some b ->
    nth_error uniqueDates (S (S i)) = Some c ->
    (xLineScale c - xLineScale b == xLineScale b - xLineScale a)%Q.

(** ** Y-max rounder *)

(** A JavaScript number that may be [NaN]. *)
Inductive number : Type :=
  | NaN : number
  | Num : Q -> number.

(** A point of a line and a line of [lineData] ([focus], [label] and
    [visible] play no part in [getYMax]). *)
Record LinePoint : Type := mkLinePoint { point_date : string; point_value : Q }.
Record Line : Type := mkLine { line_key : string; line_values : list LinePoint }.

(** d3's [max]: the largest of the values, skipping [undefined]; [undefined]
    ([None]) when there is none. *)
Fixpoint d3Max (l : list (option Q)) : option Q :=
  match l with
  | [] => None
  | None :: rest => d3Max rest
  | Some x :: rest =>
      match d3Max rest with
      | None => Some x
      | Some m => Some (if Qle_bool m x then x else m)
      end
  end.

(** [Math.pow( 10, e )] for an integer [e], read exactly (no underflow or
    overflow; [Runtime.pow10] has them). *)
Definition pow10 (e : Z) : Q := Qpower 10 e.

(** For [y > 0], the integer part, rounded down, of the decimal logarithm of
    [y]: the search starts at an exponent [e] with [10^e <= y] and moves up
    while [10^(e+1) <= y]. *)
Fixpoint floorLog10From (steps : nat) (y : Q) (e : Z) : Z :=
  match steps with
  | O => e
  | S steps' =>
      if Qle_bool (pow10 (e + 1)) y then floorLog10From steps' y (e + 1) else e
  end.

Definition floorLog10 (y : Q) : Z :=
  let lo := - (Z.log2 (Zpos (Qden y)) + 1) in
  let hi := Z.log2 (Qnum y) + 1 in
  floorLog10From (Z.to_nat (hi - lo)) y lo.

(** The same, rounded up. *)
Definition ceilLog10 (y : Q) : Z :=
  let e := floorLog10 y in
  if Qeq_bool y (pow10 e) then e else e + 1.

(** [( Math.log( y ) * Math.LOG10E + 1 ) | 0], read exactly: the decimal
    logarithm of [y] plus one, truncated towards zero by [| 0] (for the
    logarithm as the doubles of the runtime have it, see [Runtime]
    below).  For [y = 0] the logarithm is
    [-Infinity] and for [y < 0] it is [NaN]; [| 0] turns both into [0].  A
    positive sum is rounded down, a negative one up. *)
Definition log10Plus1Int (y : Q) : Z :=
  if Qle_bool y 0 then 0
  else if Qle_bool (1 # 10) y then floorLog10 y + 1
  else ceilLog10 y + 1.

(** [d3Max( lineData, d => d3Max( d.values.map( date => date.value ) ) )]:
    the maximum raw value. *)
Definition maxRawValue (lineData : list Line) : option Q :=
  d3Max (map (fun d => d3Max (map (fun p => Some (point_value p)) (line_values d)))
             lineData).

(** [4 / 3 * undefined] is [NaN], and so is all that follows from it. *)
Definition getYMax (lineData : list Line) : number :=
  match maxRawValue lineData with
  | None => NaN
  | Some m =>
      let yMax := (4 / 3 * m)%Q in
      let pow3Y := (pow10 (log10Plus1Int yMax - 2) * 3)%Q in
      Num (inject_Z (Qceiling (yMax / pow3Y)) * pow3Y)%Q
  end.


Definition roundUpTo (step x : Q) : Q := (inject_Z (Qceiling (x / step)) * step)%Q.

(** *** With the doubles of the runtime

    The definitions above read the arithmetic of [getYMax] exactly.  Two
    things in it depend on the doubles of the runtime by more than the
    rounding of a last digit.  [Math.log( y ) * Math.LOG10E] can fall on
    the other side of a whole number at, or next to, a power of ten, which
    changes the exponent of the step; it is taken from the runtime, as the
    function [mathLog10] on the positive finite numbers.  And a result
    outside the range of the doubles is an infinity or zero; that range is
    modelled.  The rounding of a result inside the range is not. *)

Module Runtime.

(** A double: [NaN], an infinity ([true] for the positive one), or a finite
    number. *)
Inductive double : Type :=
  | NaN : double
  | Infinity : bool -> double
  | Finite : Q -> double.

(** An exact result from [2^1024 - 2^970] on rounds to an infinity, one up
    to [2^-1075] to zero. *)
Definition overflowThreshold : Q := inject_Z (2 ^ 1024 - 2 ^ 970).
Definition underflowThreshold : Q := Qpower 2 (-1075).

Definition round (q : Q) : double :=
  if Qle_bool overflowThreshold (Qabs q) then Infinity (Qlt_bool 0 q)
  else if Qle_bool (Qabs q) underflowThreshold then Finite 0
  else Finite q.

(** [a * b], [a / b] and [Math.ceil( a )].  The zeros of this program are
    positive zeros. *)
Definition mul (a b : double) : double :=
  match a, b with
  | NaN, _ => NaN
  | _, NaN => NaN
  | Finite x, Finite y => round (x * y)
  | Infinity s, Finite y =>
      if Qeq_bool y 0 then NaN else Infinity (Bool.eqb s (Qlt_bool 0 y))
  | Finite x, Infinity s =>
      if Qeq_bool x 0 then NaN else Infinity (Bool.eqb s (Qlt_bool 0 x))
  | Infinity s, Infinity t => Infinity (Bool.eqb s t)
  end.

Definition div (a b : double) : double :=
  match a, b with
  | NaN, _ => NaN
  | _, NaN => NaN
  | Finite x, Finite y =>
      if Qeq_bool y 0
      then (if Qeq_bool x 0 then NaN else Infinity (Qlt_bool 0 x))
      else round (x / y)
  | Finite _, Infinity _ => Finite 0
  | Infinity s, Finite y => Infinity (Bool.eqb s (Qle_bool 0 y))
  | Infinity _, Infinity _ => NaN
  end.

Definition ceil (a : double) : double :=
  match a with
  | Finite x => Finite (inject_Z (Qceiling x))
  | _ => a
  end.

(** [x | 0] for a finite [x]: the fraction is dropped and the whole number
    taken modulo [2^32] into [[-2^31, 2^31)]. *)
Definition toInt32 (x : Q) : Z :=
  let whole := if Qle_bool 0 x then Qfloor x else Qceiling x in
  (whole + 2 ^ 31) mod 2 ^ 32 - 2 ^ 31.

(** [( Math.log( y ) * Math.LOG10E + 1 ) | 0].  The logarithm of 0 is
    [-Infinity], that of a negative number or of [NaN] is [NaN], and that
    of [Infinity] is [Infinity]: [| 0] turns them all into 0. *)
Definition log10Plus1Int (mathLog10 : Q -> Q) (y : double) : Z :=
  match y with
  | Finite q => if Qlt_bool 0 q then toInt32 (mathLog10 q + 1) else 0
  | _ => 0
  end.

(** [Math.pow( 10, e )]. *)
Definition pow10 (e : Z) : double := round (Qpower 10 e).

(** [4 / 3 * undefined] is [NaN]. *)
Definition getYMax (mathLog10 : Q -> Q) (lineData : list Line) : double :=
  let yMax :=
    mul (Finite (4 / 3))
        (match maxRawValue lineData with
         | Some m => Finite m
         | None => NaN
         end) in
  let pow3Y := mul (pow10 (log10Plus1Int mathLog10 yMax - 2)) (Finite 3) in
  mul (ceil (div yMax pow3Y)) pow3Y.

End Runtime.

(** ** Tooltip positioner *)

Module Rect.
(** What [getBoundingClientRect()] returns, as far as it is used. *)
Record t : Type := mk { left : Q; top : Q; width : Q; height : Q }.
End Rect.

Record Position : Type := mkPosition { x : Q; y : Q }.

Local Open Scope Q_scope.

Definition calculateTooltipXPosition (elementCoords chartCoords tooltipSize : Rect.t)
    (tooltipMargin elementWidthRatio : Q) (tooltipPosition : string) : Q :=
  let xPosition :=
    Rect.left elementCoords + Rect.width elementCoords * elementWidthRatio
      + tooltipMargin - Rect.left chartCoords in
  if String.eqb tooltipPosition "below" then
    Qmax tooltipMargin
      (Qmin (xPosition - Rect.width tooltipSize / 2)
            (Rect.width chartCoords - Rect.width tooltipSize - tooltipMargin))
  else if Qlt_bool (Rect.width chartCoords)
            (xPosition + Rect.width tooltipSize + tooltipMargin) then
    Qmax tooltipMargin
      (Rect.left elementCoords
         + Rect.width elementCoords * (1 - elementWidthRatio)
         - Rect.width tooltipSize - tooltipMargin - Rect.left chartCoords)
  else xPosition.

Definition calculateTooltipYPosition (elementCoords chartCoords tooltipSize : Rect.t)
    (tooltipMargin : Q) (tooltipPosition : string) : Q :=
  if String.eqb tooltipPosition "below" then Rect.height chartCoords
  else
    let yPosition := Rect.top elementCoords + tooltipMargin - Rect.top chartCoords in
    if Qlt_bool (Rect.height chartCoords)
         (yPosition + Rect.height tooltipSize + tooltipMargin) then
      Qmax 0 (Rect.top elementCoords - Rect.height tooltipSize - tooltipMargin
                - Rect.top chartCoords)
    else yPosition.

(** [calculateTooltipPosition], given the three rectangles that the source
    reads from the DOM.  [elementWidthRatio] defaults to 1 at the call
    sites that do not pass it. *)
Definition calculateTooltipPosition (elementCoords chartCoords tooltipSize : Rect.t)
    (tooltipPosition : string) (elementWidthRatio : Q) : Position :=
  let tooltipMargin := 24 in
  let elementWidthRatio :=
    if String.eqb tooltipPosition "below" then 0 else elementWidthRatio in
  mkPosition
    (calculateTooltipXPosition elementCoords chartCoords tooltipSize tooltipMargin
       elementWidthRatio tooltipPosition)
    (calculateTooltipYPosition elementCoords chartCoords tooltipSize tooltipMargin
       tooltipPosition).

(** The tooltip and the margins fit inside the chart rectangle. *)
Definition saneSizes (chartCoords tooltipSize : Rect.t) (tooltipMargin : Q) : Prop :=
  0 <= Rect.width tooltipSize /\ 0 <= Rect.height tooltipSize /\
  Rect.width tooltipSize + 2 * tooltipMargin <= Rect.width chartCoords /\
  Rect.height tooltipSize + 2 * tooltipMargin <= Rect.height chartCoords.

(** The hovered element lies inside the chart rectangle.  The function is
    private to the module, and each of its four calls (in [drawLines] and
    [drawBars]) passes the target of the event, or its parent, as the
    element and [node.node()], the [g] that holds it, as the chart: the
    bounding rectangle of a [g] contains those of its descendants. *)
Definition insideChart (elementCoords chartCoords : Rect.t) : Prop :=
  0 <= Rect.width elementCoords /\ 0 <= Rect.height elementCoords /\
  Rect.left chartCoords <= Rect.left elementCoords /\
  Rect.left elementCoords + Rect.width elementCoords
    <= Rect.left chartCoords + Rect.width chartCoords /\
  Rect.top chartCoords <= Rect.top elementCoords /\
  Rect.top elementCoords + Rect.height elementCoords
    <= Rect.top chartCoords + Rect.height chartCoords.

(** The position is within the container: [x] in [[0, chartWidth]] and [y]
    in [[0, chartHeight]]. *)
Definition withinChart (chartCoords : Rect.t) (p : Position) : Prop :=
  0 <= x p <= Rect.width chartCoords /\ 0 <= y p <= Rect.height chartCoords.

Local Close Scope Q_scope.

(** ** Data pipeline *)

(** [[ ...new Set( l ) ]]: the values of [l] in the order of their first
    occurrence. *)
Fixpoint setFrom (seen l : list string) : list string :=
  match l with
  | [] => []
  | a :: rest =>
      if existsb (String.eqb a) seen then setFrom seen rest
      else a :: setFrom (a :: seen) rest
  end.

Definition newSet (l : list string) : list string := setFrom [] l.

(** [Object.keys( row )]: ['date'] and the category keys. *)
Definition keysOf (row : DataRow) : list string :=
  "date"%string :: map fst (row_fields row).

(** The names that a row, a plain object, inherits from [Object.prototype]:
    under each of them [row[ key ]] finds a function (the prototype itself
    under ['__proto__']), also where the row has no category of that
    name. *)
Definition objectPrototypeKeys : list string :=
  [ "constructor"; "__defineGetter__"; "__defineSetter__"; "hasOwnProperty";
    "__lookupGetter__"; "__lookupSetter__"; "isPrototypeOf";
    "propertyIsEnumerable"; "toString"; "valueOf"; "__proto__";
    "toLocaleString" ]%string.

(** [row[ key ]]: the date string for ['date'], the row's own category of
    that key otherwise, an inherited member where the row has none but
    [Object.prototype] has, and [None] ([undefined]) where neither has. *)
Inductive property : Type :=
  | DateProperty : string -> property
  | FieldProperty : Q -> property
  | InheritedProperty : property.

Definition rowProperty (row : DataRow) (key : string) : option property :=
  if String.eqb key "date" then Some (DateProperty (row_date row))
  else
    match find (fun kv => String.eqb (fst kv) key) (row_fields row) with
    | Some kv => Some (FieldProperty (snd kv))
    | None =>
        if existsb (String.eqb key) objectPrototypeKeys
        then Some InheritedProperty
        else None
    end.

Definition getUniqueKeys (data : list DataRow) : list string :=
  newSet
    (fold_left
       (fun accum curr =>
          accum ++ filter (fun key => negb (String.eqb key "date")) (keysOf curr))
       data []).

Module OrderedKey.
Record t : Type := mk { key : string; focus : bool; total : number; visible : bool }.
End OrderedKey.

(** [a + c[ key ].value] in the reducer of [getOrderedKeys]: [None] is the
    [TypeError] of reading [.value] of [undefined]; the [.value] of a date
    string or of an inherited member is [undefined], and adding it gives
    [NaN]. *)
Definition addValue (a : number) (c : DataRow) (key : string) : option number :=
  match rowProperty c key with
  | None => None
  | Some (DateProperty _) => Some NaN
  | Some InheritedProperty => Some NaN
  | Some (FieldProperty v) =>
      Some (match a with
            | NaN => NaN
            | Num q => Num (q + v)
            end)
  end.

Definition totalOf (data : list DataRow) (key : string) : option number :=
  fold_left
    (fun a c =>
       match a with
       | None => None
       | Some a' => addValue a' c key
       end)
    data (Some (Num 0)).

(** [array.map( f )] for a callback that may throw ([None]). *)
Fixpoint mapThrowing {A B : Type} (f : A -> option B) (l : list A) : option (list B) :=
  match l with
  | [] => Some []
  | a :: rest =>
      match f a with
      | None => None
      | Some b =>
          match mapThrowing f rest with
          | None => None
          | Some bs => Some (b :: bs)
          end
      end
  end.

(** [y.total - x.total > 0] for the comparator [( a, b ) => b.total - a.total]
    called on [( x, y )]: [x] goes after [y].  With a [NaN] the difference is
    [NaN], which the sort takes for 0. *)
Definition totalAbove (x y : OrderedKey.t) : bool :=
  match OrderedKey.total x, OrderedKey.total y with
  | Num tx, Num ty => Qlt_bool tx ty
  | _, _ => false
  end.

(** [array.sort( ( a, b ) => b.total - a.total )], as a stable sort. *)
Fixpoint insertByTotal (x : OrderedKey.t) (l : list OrderedKey.t) : list OrderedKey.t :=
  match l with
  | [] => [x]
  | y :: rest => if totalAbove x y then y :: insertByTotal x rest else x :: l
  end.

Fixpoint sortByTotal (l : list OrderedKey.t) : list OrderedKey.t :=
  match l with
  | [] => []
  | x :: rest => insertByTotal x (sortByTotal rest)
  end.

Definition getOrderedKeys (data : list DataRow) (uniqueKeys : list string)
    : option (list OrderedKey.t) :=
  match mapThrowing
          (fun key =>
             match totalOf data key with
             | None => None
             | Some t => Some (OrderedKey.mk key true t true)
             end)
          uniqueKeys with
  | None => None
  | Some rows => Some (sortByTotal rows)
  end.

(** lodash's [get( d, [ key, 'value' ], 0 )]: the default for a missing
    category, and for the [.value] of the date string or of an inherited
    member. *)
Definition getValue (d : DataRow) (key : string) : Q :=
  match rowProperty d key with
  | Some (FieldProperty v) => v
  | _ => 0%Q
  end.

(** The cumulative value of a category over the rows. *)
Definition cumulativeTotal (data : list DataRow) (key : string) : Q :=
  fold_left (fun a c => (a + getValue c key)%Q) data 0%Q.

(** The order after the sort of [getOrderedKeys]: the earlier key has the
    larger cumulative value, or the same. *)
Definition byCumulativeTotal (data : list DataRow) (a b : OrderedKey.t) : Prop :=
  (cumulativeTotal data (OrderedKey.key b) <= cumulativeTotal data (OrderedKey.key a))%Q.

Definition hasCumulativeTotal (data : list DataRow) (r : OrderedKey.t) : Prop :=
  OrderedKey.total r = Num (cumulativeTotal data (OrderedKey.key r)).

(** [getLineData], as far as [Line] records it: the [key] of each line and
    the [date] and [value] of each of its points ([focus] and [visible] are
    copied from the ordered key, and [label] is read like [value], with the
    default ['']). *)
Definition getLineData (data : list DataRow) (orderedKeys : list OrderedKey.t)
    : list Line :=
  map (fun row =>
         mkLine (OrderedKey.key row)
           (map (fun d => mkLinePoint (row_date d) (getValue d (OrderedKey.key row))) data))
      orderedKeys.

(** [array.sort( ( a, b ) => parseDate( a ) - parseDate( b ) )], as a stable
    sort. *)
Fixpoint insertByDate (parseDate : string -> Z) (x : string) (l : list string)
    : list string :=
  match l with
  | [] => [x]
  | y :: rest =>
      if parseDate x <=? parseDate y then x :: l
      else y :: insertByDate parseDate x rest
  end.

Fixpoint sortByDate (parseDate : string -> Z) (l : list string) : list string :=
  match l with
  | [] => []
  | x :: rest => insertByDate parseDate x (sortByDate parseDate rest)
  end.

Definition getUniqueDates (lineData : list Line) (parseDate : string -> Z)
    : list string :=
  sortByDate parseDate
    (newSet
       (fold_left
          (fun accum line => accum ++ map point_date (line_values line))
          lineData [])).

(** ** Colors *)

Definition smallColorScales : list (list Q) :=
  [ [];
    [1 # 2];
    [333 # 1000; 667 # 1000];
    [1 # 5; 1 # 2; 4 # 5];
    [12 # 100; 375 # 1000; 625 # 1000; 88 # 100] ]%Q.

(** lodash's [findIndex]: the index of the first element that passes, or
    -1. *)
Fixpoint findIndexFrom {A : Type} (p : A -> bool) (i : Z) (l : list A) : Z :=
  match l with
  | [] => -1
  | a :: rest => if p a then i else findIndexFrom p (i + 1) rest
  end.

Definition findIndex {A : Type} (p : A -> bool) (l : list A) : Z :=
  findIndexFrom p 0 l.

(** [keyValue] in [getColor]; [None] is [undefined] (an index outside the
    small scale). *)
Definition keyValue (key : string) (orderedKeys : list OrderedKey.t) : option Q :=
  let len := jsLength orderedKeys in
  let idx := findIndex (fun d => String.eqb (OrderedKey.key d) key) orderedKeys in
  if len <? 5 then
    match jsIndex smallColorScales len with
    | Some scale => jsIndex scale idx
    | None => None
    end
  else Some (inject_Z idx / inject_Z (len - 1))%Q.

Definition getColor {C : Type} (colorScheme : option Q -> C) (key : string)
    (orderedKeys : list OrderedKey.t) : C :=
  colorScheme (keyValue key orderedKeys).

(** ** Axis labels and grid *)

(** [s.split( sep )] for a separator that is not empty: [word] is the word
    read so far, and [skip] counts the characters of a separator still to
    pass. *)
Fixpoint startsWith (sep s : string) : bool :=
  match sep, s with
  | EmptyString, _ => true
  | String a sep', String b s' => Ascii.eqb a b && startsWith sep' s'
  | String _ _, EmptyString => false
  end.

Fixpoint splitLoop (sep : string) (skip : nat) (word s : string) : list string :=
  match s with
  | EmptyString => [word]
  | String c rest =>
      match skip with
      | S skip' => splitLoop sep skip' word rest
      | O =>
          if startsWith sep s
          then word :: splitLoop sep (String.length sep - 1) EmptyString rest
          else splitLoop sep O (word ++ String c EmptyString)%string rest
      end
  end.

(** [s.split( sep )]; with the empty separator the string falls into its
    characters. *)
Definition jsSplit (sep s : string) : list string :=
  match sep with
  | EmptyString => map (fun c => String c EmptyString) (list_ascii_of_string s)
  | String _ _ => splitLoop sep O EmptyString s
  end.

(** [a !== b] on array elements that may be [undefined]. *)
Definition wordDiffers (a b : option string) : bool :=
  match a, b with
  | Some x, Some y => negb (String.eqb x y)
  | None, None => false
  | _, _ => true
  end.

(** The loop of [compareStrings], from index [x]: [count] rounds. *)
Fixpoint compareLoop (string1 string2 : list string) (count : nat) (x : Z)
    (diff : list (option string)) : list (option string) :=
  match count with
  | O => diff
  | S count' =>
      compareLoop string1 string2 count' (x + 1)
        (if wordDiffers (jsIndex string1 x) (jsIndex string2 x)
         then diff ++ [jsIndex string2 x]
         else diff)
  end.

(** The elements of the result are words of [s2] or [undefined]
    ([None]).  The strings are read as ASCII text, one character per UTF-16
    unit, so that [String.length] is [s.length]. *)
Definition compareStrings (s1 s2 splitChar : string) : list (option string) :=
  let string1 := jsSplit splitChar s1 in
  let string2 := jsSplit splitChar s2 in
  let long := if (String.length s2 <? String.length s1)%nat then string1 else string2 in
  compareLoop string1 string2 (length long) 0 [].

(** [array.join( ' ' )]; [undefined] is joined as the empty string. *)
Definition joinWords (l : list (option string)) : string :=
  String.concat " " (map (fun w => match w with Some s => s | None => EmptyString end) l).

(** [removeDuplicateDates] in [drawAxis].  A tick is a date string;
    [formatter] gets [None] for the invalid date of an [undefined] tick. *)
Definition removeDuplicateDates (d : string) (i : Z) (ticks : list string)
    (formatter : option string -> string) : string :=
  let monthDate := Some d in
  let prevMonth := if negb (i =? 0) then jsIndex ticks (i - 1) else jsIndex ticks i in
  if i =? 0 then formatter monthDate
  else joinWords (compareStrings (formatter prevMonth) (formatter monthDate) " ").

(** [yGrids] in [drawAxis]: [i / 3 * yMax] for [i] from 0 to 3. *)
Definition yGrids (yMax : Q) : list Q :=
  map (fun i => (inject_Z i / 3 * yMax)%Q) [0; 1; 2; 3].

(** ** Line width and dot radius *)

(** [lineStroke] and [dotRadius] in [drawLines], from [params.width] and
    [params.uniqueDates]. *)
Definition lineStroke (width : Q) (uniqueDates : list string) : Q :=
  let lineStroke :=
    if Qle_bool width wideBreak || (50 <? jsLength uniqueDates) then 2%Q else 3%Q in
  if Qle_bool width smallBreak then (125 # 100)%Q else lineStroke.

Definition dotRadius (width : Q) : Q :=
  if Qle_bool width wideBreak then 4%Q else 6%Q.

(** ** Example inputs *)

(** A stand-in for the runtime on ISO dates [YYYY-MM-DD]: the digits of the
    date read as one number, which orders ISO dates by time, and the month
    (0 to 11) read from the two month digits. *)
Definition digitsValue (d : string) : Z :=
  fold_left
    (fun acc c =>
       let v := Z.of_nat (nat_of_ascii c) - 48 in
       if (0 <=? v) && (v <=? 9) then acc * 10 + v else acc)
    (list_ascii_of_string d) 0.

Definition isoOrdinal (d : string) : Z := digitsValue d.

Definition isoMonth (d : string) : option Z :=
  let m := digitsValue (substring 5 2 d) in
  if (1 <=? m) && (m <=? 12) && (String.length d =? 10)%nat then Some (m - 1) else None.

Definition twoDigits (n : nat) : string :=
  String (ascii_of_nat (48 + n / 10)) (String (ascii_of_nat (48 + n mod 10)) "").

(** The days [1] to [days] of a month given as ["YYYY-MM-"]. *)
Definition daysOfMonth (yearMonth : string) (days : nat) : list string :=
  map (fun d => (yearMonth ++ twoDigits d)%string) (seq 1 days).

(** Seventy daily dates: 1 January to 11 March 2018. *)
Definition seventyDates : list string :=
  daysOfMonth "2018-01-" 31 ++ daysOfMonth "2018-02-" 28 ++ daysOfMonth "2018-03-" 11.

(** A stand-in for the d3 time scale of [getXLineScale]: the time of a date
    mapped linearly from [first date, last date] onto [[0, width]] and
    rounded ([rangeRound]). *)
Definition linearScale (timeOf : string -> Z) (uniqueDates : list string) (width : Q)
    : string -> Q :=
  fun d =>
    let t0 := timeOf (hd d uniqueDates) in
    let t1 := timeOf (last uniqueDates d) in
    inject_Z (Qfloor (width * inject_Z (timeOf d - t0) / inject_Z (t1 - t0) + (1 # 2))).

(** One row per date, with a single category. *)
Definition rowsOf (dates : list string) : list DataRow :=
  map (fun d => mkDataRow d [("sales"%string, 1%Q)]) dates.

(** Three dates a day apart, and three dates one and two days apart. *)
Definition evenDates : list string :=
  ["2018-01-01"; "2018-01-02"; "2018-01-03"]%string.

Definition unevenDates : list string :=
  ["2018-01-01"; "2018-01-02"; "2018-01-04"]%string.

(** A single line with a single point of the given value. *)
Definition singleValue (v : Q) : list Line :=
  [mkLine "sales" [mkLinePoint "2018-01-01" v]].

(** Two rows, the later date first, with the categories ['hats'] and
    ['shirts']. *)
Definition twoRows : list DataRow :=
  [ mkDataRow "2018-01-02" [("hats"%string, 3%Q); ("shirts"%string, 5%Q)];
    mkDataRow "2018-01-01" [("hats"%string, 1%Q); ("shirts"%string, 2%Q)] ].

(** The ordered keys of [twoRows], and six ordered keys. *)
Definition twoKeys : list OrderedKey.t :=
  [ OrderedKey.mk "shirts" true (Num 7) true; OrderedKey.mk "hats" true (Num 4) true ].

Definition sixKeys : list OrderedKey.t :=
  map (fun key => OrderedKey.mk key true (Num 1) true)
      ["a"; "b"; "c"; "d"; "e"; "f"]%string.

(** A stand-in for an axis formatter on ISO dates: the year and the month,
    as two words. *)
Definition yearAndMonth (d : option string) : string :=
  match d with
  | Some iso => (substring 0 4 iso ++ " " ++ substring 5 2 iso)%string
  | None => "Invalid Date"%string
  end.

(** Five daily dates. *)
Definition fiveDates : list string :=
  ["2018-01-01"; "2018-01-02"; "2018-01-03"; "2018-01-04"; "2018-01-05"]%string.

(** Eight daily dates. *)
Definition eightDates : list string :=
  ["2018-01-01"; "2018-01-02"; "2018-01-03"; "2018-01-04";
   "2018-01-05"; "2018-01-06"; "2018-01-07"; "2018-01-08"]%string.

(** * Properties *)

(** ** Comparisons *)

Lemma Qlt_bool_iff (a b : Q) : Qlt_bool a b = true <-> (a < b)%Q.
Proof.
  unfold Qlt_bool. rewrite negb_true_iff, <- not_true_iff_false, Qle_bool_iff.
  split; [apply Qnot_le_lt | apply Qlt_not_le].
Qed.

Lemma Qlt_bool_false_iff (a b : Q) : Qlt_bool a b = false <-> (b <= a)%Q.
Proof.
  unfold Qlt_bool. rewrite negb_false_iff. apply Qle_bool_iff.
Qed.

Lemma Qle_bool_false_iff (a b : Q) : Qle_bool a b = false <-> (b < a)%Q.
Proof.
  rewrite <- not_true_iff_false, Qle_bool_iff.
  split; [apply Qnot_le_lt | apply Qlt_not_le].
Qed.

(** Case analysis on a comparison of the source, leaving the order fact as a
    hypothesis. *)
Ltac case_Qlt a b :=
  let H := fresh "Hcmp" in
  destruct (Qlt_bool a b) eqn:H;
  [apply Qlt_bool_iff in H | apply Qlt_bool_false_iff in H].

Ltac case_Qle a b :=
  let H := fresh "Hcmp" in
  destruct (Qle_bool a b) eqn:H;
  [apply Qle_bool_iff in H | apply Qle_bool_false_iff in H].

(** Linear arithmetic on [Q] with halves. *)
Ltac lra_halves :=
  unfold Qdiv in *; change (/ 2)%Q with (1 # 2)%Q in *; lra.

(** ** The tick budget *)

(** C3: for a width of at least 0 and one of the two modes,
    [calculateMaxXTicks] is the step function with breakpoints 783, 1130 and
    1365: 7 below 783, 12 from 783 to 1130, then 16 (time-comparison) or 12
    (item-comparison) up to 1365, and 31 (time-comparison) or 16
    (item-comparison) above 1365. *)
Theorem calculateMaxXTicks_step_function :
  forall (width : Q) (mode : string),
    (0 <= width)%Q ->
    mode = "item-comparison"%string \/ mode = "time-comparison"%string ->
    ((width < 783)%Q -> calculateMaxXTicks width mode = 7) /\
    ((783 <= width)%Q /\ (width <= 1130)%Q -> calculateMaxXTicks width mode = 12) /\
    ((1130 < width)%Q /\ (width <= 1365)%Q ->
       (mode = "time-comparison"%string -> calculateMaxXTicks width mode = 16) /\
       (mode = "item-comparison"%string -> calculateMaxXTicks width mode = 12)) /\
    ((1365 < width)%Q ->
       (mode = "time-comparison"%string -> calculateMaxXTicks width mode = 31) /\
       (mode = "item-comparison"%string -> calculateMaxXTicks width mode = 16)).
Proof.
  intros width mode _ _.
  unfold calculateMaxXTicks, smallBreak, mediumBreak, wideBreak,
    smallPoints, mediumPoints, largePoints, mostPoints.
  case_Qlt width 783%Q; case_Qle 783%Q width;
    case_Qle width 1130%Q; case_Qlt 1130%Q width;
    case_Qle width 1365%Q; case_Qlt 1365%Q width;
    cbn [andb];
    repeat split; intros; subst; cbn; try reflexivity;
    exfalso; lra.
Qed.

Lemma calculateMaxXTicks_step_function_witness :
  (0 <= 1200)%Q /\
  ("time-comparison"%string = "item-comparison"%string \/
   "time-comparison"%string = "time-comparison"%string) /\
  calculateMaxXTicks 1200 "time-comparison" = 16.
Proof.
  assert (Hw : (0 <= 1200)%Q) by (vm_compute; discriminate).
  assert (Hm : "time-comparison"%string = "item-comparison"%string \/
               "time-comparison"%string = "time-comparison"%string)
    by (right; reflexivity).
  split; [exact Hw | split; [exact Hm |]].
  destruct (calculateMaxXTicks_step_function 1200 "time-comparison" Hw Hm)
    as (_ & _ & Hthird & _).
  apply Hthird; [split; vm_compute; [reflexivity | discriminate] | reflexivity].
Defined.

(** Every budget is one of 7, 12, 16 and 31, whatever the width and mode. *)
Lemma calculateMaxXTicks_range (width : Q) (mode : string) :
  7 <= calculateMaxXTicks width mode <= 31.
Proof.
  unfold calculateMaxXTicks, smallPoints, mediumPoints, largePoints, mostPoints.
  repeat match goal with |- context [if ?c then _ else _] => destruct c end; lia.
Qed.

(** ** The factorizer *)

Lemma insertNumeric_perm (x : Z) (l : list Z) :
  Permutation (insertNumeric x l) (x :: l).
Proof.
  induction l as [|y rest IH]; cbn.
  - apply Permutation_refl.
  - destruct (x <=? y).
    + apply Permutation_refl.
    + eapply perm_trans; [apply perm_skip, IH | apply perm_swap].
Qed.

Lemma sortNumeric_perm (l : list Z) : Permutation (sortNumeric l) l.
Proof.
  induction l as [|x rest IH]; cbn.
  - apply perm_nil.
  - eapply perm_trans; [apply insertNumeric_perm | apply perm_skip, IH].
Qed.

Lemma insertNumeric_sorted (x : Z) (l : list Z) :
  StronglySorted Z.le l -> StronglySorted Z.le (insertNumeric x l).
Proof.
  induction 1 as [|y rest Hrest IH Hall]; cbn.
  - constructor; constructor.
  - destruct (x <=? y) eqn:Hxy.
    + apply Z.leb_le in Hxy. constructor.
      * constructor; assumption.
      * constructor; [exact Hxy |].
        eapply Forall_impl; [| exact Hall]. intros z Hz. lia.
    + apply Z.leb_gt in Hxy. constructor; [exact IH |].
      rewrite Forall_forall in *. intros z Hz.
      apply (Permutation_in _ (insertNumeric_perm x rest)) in Hz.
      destruct Hz as [<- | Hz]; [lia | auto].
Qed.

Lemma sortNumeric_sorted (l : list Z) : StronglySorted Z.le (sortNumeric l).
Proof.
  induction l as [|x rest IH]; cbn.
  - constructor.
  - apply insertNumeric_sorted, IH.
Qed.

Lemma sortNumeric_In (l : list Z) (x : Z) : In x (sortNumeric l) <-> In x l.
Proof.
  split; apply Permutation_in;
    [apply sortNumeric_perm | apply Permutation_sym, sortNumeric_perm].
Qed.

(** What the loop of [getFactors] has pushed after [count] rounds from [i]. *)
Lemma getFactorsLoop_In (count : nat) :
  forall (i n : Z) (acc : list Z) (d : Z),
    In d (getFactorsLoop count i n acc) <->
    In d acc \/
    exists j, i <= j < i + Z.of_nat count /\ n mod j = 0 /\ (d = j \/ d = n / j).
Proof.
  induction count as [|count IH]; intros i n acc d.
  - cbn. split; [auto | intros [H | (j & Hj & _)]; [exact H | lia]].
  - cbn [getFactorsLoop]. rewrite IH. clear IH.
    assert (Hacc :
      In d (if n mod i =? 0
            then (if n / i =? i then acc ++ [i] else acc ++ [i; n / i])
            else acc)
      <-> In d acc \/ (n mod i = 0 /\ (d = i \/ d = n / i))).
    { destruct (n mod i =? 0) eqn:Hmod.
      - apply Z.eqb_eq in Hmod.
        destruct (n / i =? i) eqn:Hsq; rewrite in_app_iff; cbn.
        + apply Z.eqb_eq in Hsq. rewrite Hsq. intuition.
        + intuition.
      - apply Z.eqb_neq in Hmod. intuition. }
    rewrite Hacc. split.
    + intros [[H | (Hmod & Hd)] | (j & Hj & Hmod & Hd)].
      * left; exact H.
      * right; exists i; repeat split; [lia | lia | exact Hmod | exact Hd].
      * right; exists j; repeat split; [lia | lia | exact Hmod | exact Hd].
    + intros [H | (j & Hj & Hmod & Hd)].
      * left; left; exact H.
      * destruct (Z.eq_dec j i) as [-> | Hne].
        -- left; right; split; assumption.
        -- right; exists j; repeat split; [lia | lia | exact Hmod | exact Hd].
Qed.

(** The cofactor [n / i] of a divisor [i] of [n] divides [n], with [i] as its
    own cofactor. *)
Lemma cofactor_divides (n i : Z) :
  0 < n -> 0 < i -> n mod i = 0 ->
  0 < n / i /\ n mod (n / i) = 0 /\ n / (n / i) = i.
Proof.
  intros Hn Hi Hmod.
  assert (Hq : n = i * (n / i)) by (apply Z.div_exact; lia).
  set (q := n / i) in *.
  assert (Hqpos : 0 < q) by nia.
  split; [exact Hqpos | split].
  - apply Z.mod_divide; [lia |]. exists i. exact Hq.
  - symmetry. apply Z.div_unique_exact; lia.
Qed.

(** A cofactor of a divisor up to the square root, when it is not that
    divisor itself, is above the square root. *)
Lemma cofactor_above_sqrt (n i : Z) :
  0 < n -> 1 <= i <= Z.sqrt n -> n mod i = 0 -> n / i <> i -> Z.sqrt n < n / i.
Proof.
  intros Hn Hi Hmod Hne.
  pose proof (Z.sqrt_spec n ltac:(lia)) as Hs. cbn zeta in Hs.
  assert (Hq : n = i * (n / i)) by (apply Z.div_exact; lia).
  set (q := n / i) in *. set (s := Z.sqrt n) in *.
  destruct (Z_lt_le_dec s q) as [|Hle]; [assumption | exfalso].
  assert (0 < q) by nia.
  destruct (Z.eq_dec i s) as [-> | Hlt].
  - assert (q < s) by lia. nia.
  - assert (i < s) by lia. nia.
Qed.

Lemma getFactorsLoop_NoDup (count : nat) :
  forall (i n : Z) (acc : list Z),
    0 < n -> 1 <= i -> i + Z.of_nat count <= Z.sqrt n + 1 ->
    NoDup acc ->
    (forall e, In e acc ->
       1 <= e < i \/ (Z.sqrt n < e /\ n mod e = 0 /\ n / e < i)) ->
    NoDup (getFactorsLoop count i n acc).
Proof.
  induction count as [|count IH]; intros i n acc Hn Hi Hbound Hnd Hinv.
  - exact Hnd.
  - cbn [getFactorsLoop].
    assert (Hfresh : ~ In i acc).
    { intro Hin. destruct (Hinv _ Hin) as [? | (? & _)]; lia. }
    apply IH; try lia.
    + destruct (n mod i =? 0) eqn:Hmod; [| exact Hnd].
      apply Z.eqb_eq in Hmod.
      destruct (n / i =? i) eqn:Hsq.
      * apply NoDup_app; [exact Hnd | repeat constructor; cbn; tauto |].
        intros a Ha [<- | []]. contradiction.
      * apply Z.eqb_neq in Hsq.
        pose proof (cofactor_above_sqrt n i Hn ltac:(lia) Hmod Hsq) as Habove.
        destruct (cofactor_divides n i Hn ltac:(lia) Hmod) as (_ & _ & Hback).
        apply NoDup_app; [exact Hnd | |].
        -- repeat constructor; cbn; intuition.
        -- intros a Ha [<- | [<- | []]]; [contradiction |].
           destruct (Hinv _ Ha) as [? | (_ & _ & Hlt)]; lia.
    + intros e He.
      destruct (n mod i =? 0) eqn:Hmod.
      * apply Z.eqb_eq in Hmod.
        destruct (cofactor_divides n i Hn ltac:(lia) Hmod) as (_ & Hqmod & Hback).
        destruct (n / i =? i) eqn:Hsq; apply in_app_iff in He.
        -- destruct He as [He | [<- | []]]; [| lia].
           destruct (Hinv _ He) as [? | (? & ? & ?)]; [left; lia | right; lia].
        -- apply Z.eqb_neq in Hsq.
           pose proof (cofactor_above_sqrt n i Hn ltac:(lia) Hmod Hsq) as Habove.
           destruct He as [He | [<- | [<- | []]]].
           ++ destruct (Hinv _ He) as [? | (? & ? & ?)]; [left; lia | right; lia].
           ++ left; lia.
           ++ right. split; [exact Habove | split; [exact Hqmod | lia]].
      * destruct (Hinv _ He) as [? | (? & ? & ?)]; [left; lia | right; lia].
Qed.

(** The factorizer returns exactly the positive divisors. *)
Lemma getFactors_In (n d : Z) :
  0 < n -> (In d (getFactors n) <-> 0 < d /\ n mod d = 0).
Proof.
  intro Hn. unfold getFactors.
  pose proof (Z.sqrt_spec n ltac:(lia)) as Hs. cbn zeta in Hs.
  pose proof (Z.sqrt_nonneg n) as Hs0.
  rewrite sortNumeric_In, getFactorsLoop_In, Z2Nat.id by lia.
  set (s := Z.sqrt n) in *. split.
  - intros [[] | (j & Hj & Hmod & Hd)].
    destruct (cofactor_divides n j Hn ltac:(lia) Hmod) as (Hqpos & Hqmod & _).
    destruct Hd as [-> | ->]; [split; [lia | exact Hmod] |].
    split; assumption.
  - intros [Hd Hmod]. right.
    destruct (cofactor_divides n d Hn Hd Hmod) as (Hqpos & Hqmod & Hback).
    assert (Hq : n = d * (n / d)) by (apply Z.div_exact; lia).
    destruct (Z_le_gt_dec d s) as [Hle | Hgt].
    + exists d. repeat split; [lia | lia | exact Hmod | left; reflexivity].
    + exists (n / d). repeat split.
      * lia.
      * assert (n / d <= s); [| lia].
        destruct (Z_le_gt_dec (n / d) s); [assumption | exfalso].
        set (q := n / d) in *. nia.
      * exact Hqmod.
      * right. symmetry. exact Hback.
Qed.

Lemma getFactors_NoDup (n : Z) : 0 < n -> NoDup (getFactors n).
Proof.
  intro Hn. unfold getFactors.
  eapply Permutation_NoDup; [apply Permutation_sym, sortNumeric_perm |].
  pose proof (Z.sqrt_nonneg n).
  apply getFactorsLoop_NoDup; try lia.
  - constructor.
  - intros e [].
Qed.

(** For a number that is not positive the loop does not run. *)
Lemma getFactors_nonpos (n : Z) : n <= 0 -> getFactors n = [].
Proof.
  intro Hn. unfold getFactors.
  replace (Z.sqrt n) with 0; [reflexivity |].
  destruct n; cbn; try reflexivity; lia.
Qed.

Lemma sorted_le_NoDup_lt (l : list Z) :
  StronglySorted Z.le l -> NoDup l -> StronglySorted Z.lt l.
Proof.
  induction 1 as [|x rest Hrest IH Hall]; intro Hnd.
  - constructor.
  - inversion Hnd as [|? ? Hnotin Hnd']; subst.
    constructor; [apply IH, Hnd' |].
    rewrite Forall_forall in *. intros z Hz.
    specialize (Hall z Hz).
    assert (z <> x) by (intros ->; contradiction). lia.
Qed.

(** Two strictly ascending lists with the same elements are the same list. *)
Lemma sorted_lt_ext (l1 : list Z) :
  forall l2 : list Z,
    StronglySorted Z.lt l1 -> StronglySorted Z.lt l2 ->
    (forall z, In z l1 <-> In z l2) -> l1 = l2.
Proof.
  induction l1 as [|a t1 IH]; intros [|b t2] H1 H2 Hsame.
  - reflexivity.
  - exfalso. apply (proj2 (Hsame b)). left; reflexivity.
  - exfalso. apply (proj1 (Hsame a)). left; reflexivity.
  - inversion H1 as [|? ? Ht1 Ha]; inversion H2 as [|? ? Ht2 Hb]; subst.
    rewrite Forall_forall in Ha, Hb.
    assert (Hab : a = b).
    { destruct (proj1 (Hsame a) (or_introl eq_refl)) as [Heq | Hin]; [auto |].
      destruct (proj2 (Hsame b) (or_introl eq_refl)) as [Heq | Hin']; [auto |].
      specialize (Hb _ Hin). specialize (Ha _ Hin'). lia. }
    subst b. f_equal. apply IH; try assumption.
    intro z. split; intro Hz.
    + destruct (proj1 (Hsame z) (or_intror Hz)) as [<- | Hin]; [| exact Hin].
      specialize (Ha _ Hz). lia.
    + destruct (proj2 (Hsame z) (or_intror Hz)) as [<- | Hin]; [| exact Hin].
      specialize (Hb _ Hz). lia.
Qed.

Lemma sorted_lt_filter (p : Z -> bool) (l : list Z) :
  StronglySorted Z.lt l -> StronglySorted Z.lt (filter p l).
Proof.
  induction 1 as [|x rest Hrest IH Hall]; cbn.
  - constructor.
  - destruct (p x); [| exact IH].
    constructor; [exact IH |].
    rewrite Forall_forall in *. intros z Hz.
    apply filter_In in Hz. apply Hall, Hz.
Qed.

Lemma sorted_lt_seq (len start : nat) :
  StronglySorted Z.lt (map Z.of_nat (seq start len)).
Proof.
  revert start. induction len as [|len IH]; intro start; cbn.
  - constructor.
  - constructor; [apply IH |].
    rewrite Forall_forall. intros z Hz.
    apply in_map_iff in Hz. destruct Hz as (k & <- & Hk).
    apply in_seq in Hk. lia.
Qed.

Lemma divisors_sorted (n : Z) : StronglySorted Z.lt (divisors n).
Proof. apply sorted_lt_filter, sorted_lt_seq. Qed.

Lemma divisors_In (n d : Z) : In d (divisors n) <-> 1 <= d <= n /\ n mod d = 0.
Proof.
  unfold divisors. rewrite filter_In, in_map_iff, Z.eqb_eq. split.
  - intros [(k & <- & Hk) Hmod]. apply in_seq in Hk. split; [lia | exact Hmod].
  - intros [Hd Hmod]. split; [| exact Hmod].
    exists (Z.to_nat d). split; [lia |]. apply in_seq. lia.
Qed.

Lemma getFactors_sorted (n : Z) : 0 < n -> StronglySorted Z.lt (getFactors n).
Proof.
  intro Hn. apply sorted_le_NoDup_lt.
  - apply sortNumeric_sorted.
  - apply getFactors_NoDup, Hn.
Qed.

(** The list that [getFactors] returns is the divisor list: every positive
    divisor once, in ascending order (and nothing for a number that has
    none). *)
Lemma getFactors_divisors (n : Z) : getFactors n = divisors n.
Proof.
  destruct (Z_lt_le_dec 0 n) as [Hn | Hn].
  - apply sorted_lt_ext.
    + apply getFactors_sorted, Hn.
    + apply divisors_sorted.
    + intro d. rewrite getFactors_In, divisors_In by exact Hn.
      split; intros [Hd Hmod]; (split; [| exact Hmod]); [| lia].
      split; [lia |].
      apply Z.divide_pos_le; [exact Hn |].
      apply Z.mod_divide; [lia | exact Hmod].
  - rewrite getFactors_nonpos by exact Hn.
    unfold divisors. replace (Z.to_nat n) with 0%nat by lia. reflexivity.
Qed.

(** [find] on an ascending list returns the smallest element that passes. *)
Lemma find_sorted_least (p : Z -> bool) (l : list Z) (f : Z) :
  StronglySorted Z.lt l -> find p l = Some f ->
  In f l /\ p f = true /\ forall g, In g l -> p g = true -> f <= g.
Proof.
  induction 1 as [|x rest Hrest IH Hall]; cbn; [discriminate |].
  rewrite Forall_forall in Hall.
  destruct (p x) eqn:Hpx.
  - intros [= <-]. split; [left; reflexivity | split; [exact Hpx |]].
    intros g [<- | Hg] _; [lia | specialize (Hall g Hg); lia].
  - intro Hfind. destruct (IH Hfind) as (Hin & Hpf & Hleast).
    split; [right; exact Hin | split; [exact Hpf |]].
    intros g [<- | Hg] Hpg; [congruence | auto].
Qed.

Lemma find_exists (p : Z -> bool) (l : list Z) (g : Z) :
  In g l -> p g = true -> exists f, find p l = Some f.
Proof.
  intros Hg Hpg. destruct (find p l) as [f|] eqn:Hfind.
  - exists f; reflexivity.
  - rewrite (find_none p l Hfind g Hg) in Hpg. discriminate.
Qed.

(** An even number from 6 on has more than 3 divisors: 1, 2, its half and
    itself. *)
Lemma even_more_than_3_divisors (m : Z) :
  6 <= m -> m mod 2 = 0 -> 3 < jsLength (getFactors m).
Proof.
  intros Hm Heven.
  assert (Hhalf : m = 2 * (m / 2)) by (apply Z.div_exact; lia).
  assert (Hincl : incl [1; 2; m / 2; m] (getFactors m)).
  { intros d Hd. apply getFactors_In; [lia |].
    cbn in Hd. destruct Hd as [<- | [<- | [<- | [<- | []]]]].
    - split; [lia | apply Z.mod_1_r].
    - split; [lia | exact Heven].
    - split; [lia |]. apply Z.mod_divide; [lia |]. exists 2. lia.
    - split; [lia | apply Z.mod_same; lia]. }
  assert (Hnd : NoDup [1; 2; m / 2; m]).
  { repeat constructor; cbn; intuition lia. }
  pose proof (NoDup_incl_length Hnd Hincl) as Hlen.
  unfold jsLength. cbn in Hlen. lia.
Qed.

(** ** The increment factor *)

(** [uniqueDates.length / f < maxTicks], for a positive factor, without the
    division. *)
Lemma fewerThanMaxTicks_iff (len maxTicks f : Z) :
  0 < f ->
  (fewerThanMaxTicks len maxTicks f = true <-> len < maxTicks * f) /\
  (fewerThanMaxTicks len maxTicks f = true <->
   (inject_Z len / inject_Z f < inject_Z maxTicks)%Q).
Proof.
  intro Hf. unfold fewerThanMaxTicks.
  assert (Hfq : (0 < inject_Z f)%Q)
    by (change (inject_Z 0 < inject_Z f)%Q; rewrite <- Zlt_Qlt; exact Hf).
  split; [| apply Qlt_bool_iff].
  rewrite Qlt_bool_iff, Zlt_Qlt, inject_Z_mult. split; intro H.
  - apply (Qmult_lt_r _ _ (inject_Z f)) in H; [| exact Hfq].
    assert (Heq : (inject_Z len / inject_Z f * inject_Z f == inject_Z len)%Q)
      by (field; intro H0; rewrite H0 in Hfq; apply (Qlt_irrefl 0), Hfq).
    rewrite Heq in H. exact H.
  - apply Qlt_shift_div_r; assumption.
Qed.

(** The [while] loop leaves at the first [k >= i] for which [len - k] has more
    than 3 factors, once the fuel covers the rounds up to it. *)
Lemma factorsLoop_exit (fuel : nat) :
  forall (len i k : Z),
    i <= k ->
    (forall j, i <= j < k -> jsLength (getFactors (len - j)) <= 3) ->
    3 < jsLength (getFactors (len - k)) ->
    (Z.to_nat (k - i) < fuel)%nat ->
    factorsLoop fuel len i = Some (getFactors (len - k)).
Proof.
  induction fuel as [|fuel IH]; intros len i k Hik Hbelow Hk Hfuel; [lia |].
  cbn [factorsLoop].
  destruct (Z.eq_dec i k) as [-> | Hne].
  - destruct (jsLength (getFactors (len - k)) <=? 3) eqn:Hle; [| reflexivity].
    apply Z.leb_le in Hle. lia.
  - rewrite (proj2 (Z.leb_le _ _) (Hbelow i ltac:(lia))).
    apply IH; [lia | | exact Hk | lia].
    intros j Hj. apply Hbelow. lia.
Qed.

(** Without such a [k] the loop never ends: it runs out of any fuel. *)
Lemma factorsLoop_diverges (fuel : nat) :
  forall (len i : Z),
    (forall j, i <= j -> jsLength (getFactors (len - j)) <= 3) ->
    factorsLoop fuel len i = None.
Proof.
  induction fuel as [|fuel IH]; intros len i Hall; [reflexivity |].
  cbn [factorsLoop].
  rewrite (proj2 (Z.leb_le _ _) (Hall i ltac:(lia))).
  apply IH. intros j Hj. apply Hall. lia.
Qed.

(** From 7 dates on, the loop leaves in its first or second round. *)
Lemma factorsLoop_stops (len : Z) :
  7 <= len ->
  exists k,
    1 <= k <= 2 /\ 6 <= len - k /\
    (forall j, 1 <= j < k -> jsLength (getFactors (len - j)) <= 3) /\
    3 < jsLength (getFactors (len - k)).
Proof.
  intro Hlen.
  destruct (Z_lt_le_dec 3 (jsLength (getFactors (len - 1)))) as [H1 | H1].
  - exists 1. repeat split; try lia; exact H1.
  - assert (Hodd : (len - 1) mod 2 <> 0).
    { intro Heven.
      pose proof (even_more_than_3_divisors (len - 1) ltac:(lia) Heven). lia. }
    assert (Heven : (len - 2) mod 2 = 0).
    { pose proof (Z.mod_pos_bound (len - 1) 2 ltac:(lia)).
      pose proof (Z.mod_pos_bound (len - 2) 2 ltac:(lia)).
      pose proof (Z.div_mod (len - 1) 2 ltac:(lia)).
      pose proof (Z.div_mod (len - 2) 2 ltac:(lia)). lia. }
    assert (Hbig : 6 <= len - 2).
    { destruct (Z.eq_dec len 7) as [-> | ?]; [exfalso; apply Hodd; reflexivity | lia]. }
    exists 2. split; [lia | split; [exact Hbig | split]].
    + intros j Hj. replace j with 1 by lia. exact H1.
    + apply even_more_than_3_divisors; assumption.
Qed.

(** From 7 dates on and with a budget of at least 2, the loop stops and
    [find] has a factor to return. *)
Lemma incrementFactor_found (len maxTicks : Z) :
  7 <= len -> 2 <= maxTicks ->
  exists k f,
    1 <= k <= 2 /\ 6 <= len - k /\
    (forall j, 1 <= j < k -> jsLength (getFactors (len - j)) <= 3) /\
    3 < jsLength (getFactors (len - k)) /\
    find (fewerThanMaxTicks len maxTicks) (getFactors (len - k)) = Some f.
Proof.
  intros Hlen Hmax.
  destruct (factorsLoop_stops len Hlen) as (k & Hk & Hbig & Hbelow & Hmore).
  destruct (find_exists (fewerThanMaxTicks len maxTicks) (getFactors (len - k))
              (len - k)) as [f Hf].
  - apply getFactors_In; [lia |]. split; [lia | apply Z.mod_same; lia].
  - apply (proj1 (fewerThanMaxTicks_iff len maxTicks (len - k) ltac:(lia))). nia.
  - exists k, f. repeat split; try assumption; lia.
Qed.

(** The same as what [calculateXTicksIncrementFactor] returns. *)
Lemma incrementFactor_returns (uniqueDates : list string) (maxTicks : Z) :
  7 <= jsLength uniqueDates -> 2 <= maxTicks ->
  exists f,
    1 <= f /\ jsLength uniqueDates < maxTicks * f /\
    forall fuel, (2 <= fuel)%nat ->
      calculateXTicksIncrementFactor fuel uniqueDates maxTicks = Some (Some f).
Proof.
  intros Hlen Hmax.
  destruct (incrementFactor_found _ maxTicks Hlen Hmax)
    as (k & f & Hk & Hbig & Hbelow & Hmore & Hfind).
  destruct (find_some _ _ Hfind) as [Hin Hpf].
  assert (Hfpos : 0 < f)
    by (apply (getFactors_In (jsLength uniqueDates - k) f ltac:(lia)), Hin).
  exists f. split; [lia | split].
  - apply (fewerThanMaxTicks_iff _ maxTicks f Hfpos), Hpf.
  - intros fuel Hfuel. unfold calculateXTicksIncrementFactor.
    rewrite (factorsLoop_exit fuel _ 1 k) by (try assumption; lia).
    rewrite Hfind. reflexivity.
Qed.

(** C2, for at least 7 dates and a budget [maxTicks] of at least 2:
    [calculateXTicksIncrementFactor] goes through the divisor lists of
    [length - i] for [i = 1, 2, ...] until one has more than 3 divisors, and
    returns the smallest divisor [f] of that number with
    [length / f < maxTicks]. *)
Theorem calculateXTicksIncrementFactor_smallest_divisor :
  forall (uniqueDates : list string) (maxTicks : Z),
    let len := jsLength uniqueDates in
    7 <= len ->
    2 <= maxTicks ->
    exists i f : Z,
      1 <= i /\
      (forall j, 1 <= j < i -> (length (divisors (len - j)) <= 3)%nat) /\
      (3 < length (divisors (len - i)))%nat /\
      In f (divisors (len - i)) /\
      (inject_Z len / inject_Z f < inject_Z maxTicks)%Q /\
      (forall g, In g (divisors (len - i)) ->
         (inject_Z len / inject_Z g < inject_Z maxTicks)%Q -> f <= g) /\
      forall fuel, (Z.to_nat i <= fuel)%nat ->
        calculateXTicksIncrementFactor fuel uniqueDates maxTicks = Some (Some f).
Proof.
  intros uniqueDates maxTicks len Hlen Hmax.
  destruct (incrementFactor_found len maxTicks Hlen Hmax)
    as (k & f & Hk & Hbig & Hbelow & Hmore & Hfind).
  destruct (find_sorted_least _ _ _ (getFactors_sorted (len - k) ltac:(lia)) Hfind)
    as (Hin & Hpf & Hleast).
  assert (Hfpos : 0 < f) by (apply (getFactors_In (len - k) f ltac:(lia)), Hin).
  pose proof Hmore as Hcount.
  rewrite getFactors_divisors in Hin, Hleast, Hcount.
  exists k, f. unfold jsLength in Hcount.
  split; [lia | split; [| split; [lia | split; [exact Hin | split; [| split]]]]].
  - intros j Hj. specialize (Hbelow j Hj).
    rewrite getFactors_divisors in Hbelow. unfold jsLength in Hbelow. lia.
  - apply (fewerThanMaxTicks_iff len maxTicks f Hfpos), Hpf.
  - intros g Hg Hlt. apply Hleast; [exact Hg |].
    apply (fewerThanMaxTicks_iff len maxTicks g); [| exact Hlt].
    apply divisors_In in Hg. lia.
  - intros fuel Hfuel. unfold calculateXTicksIncrementFactor. fold len.
    rewrite (factorsLoop_exit fuel len 1 k) by (try assumption; lia).
    rewrite Hfind. reflexivity.
Qed.

Lemma calculateXTicksIncrementFactor_smallest_divisor_witness :
  7 <= jsLength eightDates /\ 2 <= 2 /\
  exists (fuel : nat) (f : Z),
    calculateXTicksIncrementFactor fuel eightDates 2 = Some (Some f) /\
    (inject_Z (jsLength eightDates) / inject_Z f < inject_Z 2)%Q.
Proof.
  assert (Hlen : 7 <= jsLength eightDates) by (cbn; lia).
  assert (Hmax : 2 <= 2) by lia.
  split; [exact Hlen | split; [exact Hmax |]].
  destruct (calculateXTicksIncrementFactor_smallest_divisor eightDates 2 Hlen Hmax)
    as (i & f & _ & _ & _ & _ & Hfew & _ & Hrun).
  exists (Z.to_nat i), f. split; [apply Hrun, Nat.le_refl | exact Hfew].
Defined.

(** C10: for a budget [maxTicks >= 7] (as [calculateMaxXTicks] gives) and
    more dates than that, the [while] loop of
    [calculateXTicksIncrementFactor] ends: some [length - i] with [i >= 1],
    still positive, has more than 3 divisors; and [find] then finds a factor,
    so that the function returns an integer [f >= 1], not [undefined]. *)
Theorem calculateXTicksIncrementFactor_terminates :
  forall (uniqueDates : list string) (maxTicks : Z),
    7 <= maxTicks ->
    maxTicks < jsLength uniqueDates ->
    exists i f : Z,
      1 <= i /\ 0 < jsLength uniqueDates - i /\
      3 < jsLength (getFactors (jsLength uniqueDates - i)) /\
      1 <= f /\
      forall fuel, (2 <= fuel)%nat ->
        factorsLoop fuel (jsLength uniqueDates) 1
          = Some (getFactors (jsLength uniqueDates - i)) /\
        calculateXTicksIncrementFactor fuel uniqueDates maxTicks = Some (Some f).
Proof.
  intros uniqueDates maxTicks Hmax Hlen.
  set (len := jsLength uniqueDates) in *.
  destruct (incrementFactor_found len maxTicks ltac:(lia) ltac:(lia))
    as (k & f & Hk & Hbig & Hbelow & Hmore & Hfind).
  exists k, f.
  split; [lia | split; [lia | split; [exact Hmore | split]]].
  - destruct (find_some _ _ Hfind) as [Hin _].
    apply (getFactors_In (len - k) f ltac:(lia)) in Hin. lia.
  - intros fuel Hfuel.
    assert (Hloop : factorsLoop fuel len 1 = Some (getFactors (len - k)))
      by (apply factorsLoop_exit; try assumption; lia).
    split; [exact Hloop |].
    unfold calculateXTicksIncrementFactor. fold len. rewrite Hloop, Hfind. reflexivity.
Qed.

Lemma calculateXTicksIncrementFactor_terminates_witness :
  7 <= 7 /\ 7 < jsLength eightDates /\
  exists f : Z, calculateXTicksIncrementFactor 2 eightDates 7 = Some (Some f).
Proof.
  assert (H7 : 7 <= 7) by lia.
  assert (H : 7 < jsLength eightDates) by reflexivity.
  split; [exact H7 | split; [exact H |]].
  destruct (calculateXTicksIncrementFactor_terminates eightDates 7 H7 H)
    as (i & f & _ & _ & _ & _ & Hrun).
  exists f. apply (Hrun 2%nat). apply Nat.le_refl.
Defined.

(** With fewer than 7 dates the loop would never end: no [length - i] has
    more than 3 divisors.  [getXTicks] does not get there, since its budget
    is at least 7. *)
Lemma calculateXTicksIncrementFactor_diverges (uniqueDates : list string)
    (maxTicks : Z) (fuel : nat) :
  jsLength uniqueDates <= 6 ->
  calculateXTicksIncrementFactor fuel uniqueDates maxTicks = None.
Proof.
  intro Hlen. unfold calculateXTicksIncrementFactor.
  rewrite factorsLoop_diverges; [reflexivity |].
  intros j Hj.
  destruct (Z_lt_le_dec 0 (jsLength uniqueDates - j)) as [Hpos | Hneg].
  - assert (Hcases : In (jsLength uniqueDates - j) [1; 2; 3; 4; 5])
      by (cbn; lia).
    cbn in Hcases.
    destruct Hcases as [<- | [<- | [<- | [<- | [<- | []]]]]]; vm_compute; discriminate.
  - rewrite getFactors_nonpos by exact Hneg. cbn. lia.
Qed.

(** C2 as stated fails.  Five dates exceed a budget of 4, but none of 4, 3,
    2, 1, 0, -1, ... has more than 3 divisors: the loop never ends, whatever
    the fuel.  Eight dates exceed a budget of 1, the loop stops at
    [8 - 2 = 6], but no divisor [f] of 6 has [8 / f < 1]: [find] returns
    [undefined]. *)
Lemma calculateXTicksIncrementFactor_no_factor :
  4 < jsLength fiveDates /\
  (forall fuel : nat, calculateXTicksIncrementFactor fuel fiveDates 4 = None) /\
  1 < jsLength eightDates /\
  calculateXTicksIncrementFactor 2 eightDates 1 = Some None.
Proof.
  split; [reflexivity | split; [| split; [reflexivity | reflexivity]]].
  intro fuel. apply calculateXTicksIncrementFactor_diverges. cbn. lia.
Qed.

(** ** Subsequences *)

Lemma Subseq_refl {A : Type} (l : list A) : Subseq l l.
Proof. induction l; constructor; assumption. Qed.

Lemma Subseq_nil_l {A : Type} (l : list A) : Subseq [] l.
Proof. induction l; constructor; assumption. Qed.

Lemma Subseq_trans {A : Type} (l1 l2 l3 : list A) :
  Subseq l1 l2 -> Subseq l2 l3 -> Subseq l1 l3.
Proof.
  intros H12 H23. revert l1 H12.
  induction H23 as [|a l2 l3 H23 IH | a l2 l3 H23 IH]; intros l1 H12.
  - exact H12.
  - inversion H12; subst.
    + apply Subseq_keep, IH. assumption.
    + apply Subseq_skip, IH. assumption.
  - apply Subseq_skip, IH, H12.
Qed.

Lemma Subseq_length {A : Type} (sub l : list A) :
  Subseq sub l -> (length sub <= length l)%nat.
Proof. induction 1; cbn; lia. Qed.

Lemma Subseq_In {A : Type} (sub l : list A) (a : A) :
  Subseq sub l -> In a sub -> In a l.
Proof.
  induction 1 as [|b sub l H IH | b sub l H IH]; cbn; intuition.
Qed.

Lemma Subseq_skipn {A : Type} (k : nat) (l : list A) : Subseq (skipn k l) l.
Proof.
  revert l. induction k as [|k IH]; intros [|a l]; cbn;
    try apply Subseq_refl.
  apply Subseq_skip, IH.
Qed.

Lemma Subseq_skipn_more {A : Type} (j k : nat) (l : list A) :
  (j <= k)%nat -> Subseq (skipn k l) (skipn j l).
Proof.
  intro Hjk. replace k with ((k - j) + j)%nat by lia.
  rewrite <- skipn_skipn. apply Subseq_skipn.
Qed.

Lemma Subseq_sorted {A : Type} (R : A -> A -> Prop) (sub l : list A) :
  Subseq sub l -> StronglySorted R l -> StronglySorted R sub.
Proof.
  induction 1 as [|a sub l H IH | a sub l H IH]; intro Hs.
  - constructor.
  - inversion Hs as [|? ? Hl Hall]; subst. constructor; [auto |].
    rewrite Forall_forall in *. intros b Hb. apply Hall.
    eapply Subseq_In; eassumption.
  - inversion Hs; subst. auto.
Qed.

Lemma Subseq_filterFrom {A : Type} (p : A -> Z -> bool) (l : list A) :
  forall i, Subseq (filterFrom p i l) l.
Proof.
  induction l as [|a l IH]; intro i; cbn.
  - constructor.
  - destruct (p a i); constructor; apply IH.
Qed.

Lemma skipn_nth_error {A : Type} (l : list A) :
  forall (k : nat) (a : A),
    nth_error l k = Some a -> skipn k l = a :: skipn (S k) l.
Proof.
  induction l as [|b l IH]; intros [|k] a H; cbn in *; try discriminate.
  - congruence.
  - apply IH, H.
Qed.

(** ** The ticks *)

Lemma jsIndex_in_range {A : Type} (l : list A) (j : Z) :
  0 <= j < jsLength l -> exists a, jsIndex l j = Some a /\ nth_error l (Z.to_nat j) = Some a.
Proof.
  intros Hj. unfold jsIndex, jsLength in *.
  rewrite (proj2 (Z.ltb_ge j 0)) by lia.
  destruct (nth_error l (Z.to_nat j)) as [a|] eqn:Hnth.
  - exists a; split; reflexivity.
  - apply nth_error_None in Hnth. lia.
Qed.

(** The [for] loop with a factor [f >= 1], from index [j]: it ends, having
    pushed [rest], a subsequence of the dates from [j] on that starts with
    the date at [j] and has [ceil((length - j) / f)] elements. *)
Lemma ticksLoop_stride (rounds : nat) :
  forall (uniqueDates : list string) (f j : Z),
    1 <= f -> 0 <= j ->
    (Z.to_nat (jsLength uniqueDates - j) <= rounds)%nat ->
    exists rest,
      Subseq rest (skipn (Z.to_nat j) uniqueDates) /\
      jsLength rest * f < Z.max 0 (jsLength uniqueDates - j) + f /\
      (j < jsLength uniqueDates -> hd_error rest = nth_error uniqueDates (Z.to_nat j)) /\
      forall (fuel : nat) (ticks : list string),
        (Z.to_nat (jsLength uniqueDates - j) < fuel)%nat ->
        ticksLoop fuel uniqueDates (Some f) (Some j) ticks = Some (ticks ++ rest).
Proof.
  induction rounds as [|rounds IH]; intros uniqueDates f j Hf Hj Hrounds;
    destruct (Z_lt_le_dec j (jsLength uniqueDates)) as [Hlt | Hge];
    try (exfalso; lia).
  1, 3:
    exists []; split; [apply Subseq_nil_l | split; [| split; [lia |]]];
    [ unfold jsLength in *; cbn [length]; lia
    | intros [|fuel] ticks Hfuel; [lia |];
      cbn [ticksLoop]; rewrite (proj2 (Z.ltb_ge _ _) Hge), app_nil_r; reflexivity ].
  destruct (jsIndex_in_range uniqueDates j ltac:(lia)) as (d & Hidx & Hnth).
  destruct (IH uniqueDates f (j + f) Hf ltac:(lia) ltac:(lia))
    as (rest & Hsub & Hlen & _ & Hrun).
  exists (d :: rest). split; [| split; [| split]].
  - rewrite (skipn_nth_error _ _ _ Hnth). apply Subseq_keep.
    eapply Subseq_trans; [exact Hsub |].
    apply Subseq_skipn_more. lia.
  - unfold jsLength in *. cbn [length]. rewrite Nat2Z.inj_succ.
    set (count := Z.of_nat (length rest)) in *.
    replace (Z.succ count * f) with (count * f + f) by ring.
    assert (Hcount : count = 0 \/ f <= count * f) by (subst count; nia).
    lia.
  - intros _. cbn. symmetry. exact Hnth.
  - intros [|fuel] ticks Hfuel; [lia |].
    cbn [ticksLoop]. rewrite (proj2 (Z.ltb_lt _ _) Hlt), Hidx.
    rewrite Hrun by lia. rewrite <- app_assoc. reflexivity.
Qed.

Lemma getXTicksFromIncrementFactor_stride (uniqueDates : list string) (f : Z) :
  1 <= f ->
  exists ticks,
    Subseq ticks uniqueDates /\
    jsLength ticks * f < jsLength uniqueDates + f /\
    hd_error ticks = hd_error uniqueDates /\
    forall fuel, (length uniqueDates < fuel)%nat ->
      getXTicksFromIncrementFactor fuel uniqueDates (Some f) = Some ticks.
Proof.
  intros Hf.
  destruct (ticksLoop_stride (length uniqueDates) uniqueDates f 0 Hf ltac:(lia)
              ltac:(unfold jsLength; lia)) as (ticks & Hsub & Hlen & Hhd & Hrun).
  cbn [skipn Z.to_nat] in *.
  assert (Hhead : hd_error ticks = hd_error uniqueDates).
  { destruct uniqueDates as [|u rest].
    - inversion Hsub. reflexivity.
    - apply Hhd. unfold jsLength. cbn [length]. lia. }
  assert (Hsame : firstDiffers ticks uniqueDates = false).
  { unfold firstDiffers, jsIndex. cbn.
    destruct ticks as [|t ticks'], uniqueDates as [|u rest]; cbn in *;
      try discriminate; try reflexivity.
    injection Hhead as ->. rewrite String.eqb_refl. reflexivity. }
  exists ticks. split; [exact Hsub | split; [| split; [exact Hhead |]]].
  - unfold jsLength in *. lia.
  - intros fuel Hfuel. unfold getXTicksFromIncrementFactor.
    rewrite (Hrun fuel []) by (unfold jsLength; lia).
    cbn [app]. rewrite Hsame. reflexivity.
Qed.

(** With an [undefined] factor the loop stops after the first date. *)
Lemma getXTicksFromIncrementFactor_undefined (fuel : nat) (u : string)
    (rest : list string) :
  getXTicksFromIncrementFactor (S (S fuel)) (u :: rest) None = Some [u].
Proof.
  unfold getXTicksFromIncrementFactor, firstDiffers, jsIndex, jsLength. cbn.
  rewrite String.eqb_refl. reflexivity.
Qed.

(** ** Month changes in daily dates *)

Lemma spaced_skipn (k j : nat) (l : list bool) :
  spaced k l = true -> spaced k (skipn j l) = true.
Proof.
  revert l. induction j as [|j IH]; intros [|b rest] H; cbn in *; auto.
  apply andb_true_iff in H. apply IH, H.
Qed.

Lemma filter_all_false (l : list bool) :
  forallb negb l = true -> filter (fun b => b) l = [].
Proof.
  induction l as [|[|] rest IH]; cbn; intro H; [reflexivity | discriminate | auto].
Qed.

(** [true] entries at least [k] apart: there are at most
    [ceil(length / k)] of them. *)
Lemma spaced_count (k : nat) (size : nat) :
  forall l : list bool,
    (1 <= k)%nat -> (length l <= size)%nat -> spaced k l = true ->
    (length (filter (fun b => b) l) * k <= length l + (k - 1))%nat.
Proof.
  induction size as [|size IH]; intros [|b rest] Hk Hsize Hsp;
    cbn [length filter] in *; try lia.
  apply andb_true_iff in Hsp. destruct Hsp as [Hhead Hrest].
  destruct b.
  - rewrite <- (firstn_skipn (k - 1) rest) at 1.
    rewrite filter_app, (filter_all_false _ Hhead). cbn [app length].
    pose proof (IH (skipn (k - 1) rest) Hk
                  ltac:(rewrite length_skipn; lia)
                  (spaced_skipn k (k - 1) rest Hrest)) as Hcount.
    rewrite length_skipn in Hcount.
    destruct (Nat.le_gt_cases (k - 1) (length rest)) as [Hlong | Hshort].
    + lia.
    + assert (Hnone : skipn (k - 1) rest = []) by (apply skipn_all2; lia).
      rewrite Hnone. cbn. lia.
  - specialize (IH rest Hk ltac:(lia) Hrest). lia.
Qed.

Section Ticks.

Variable getMonth : string -> option Z.
Variable parseDate : string -> Z.

Lemma getFirstDatePerMonth_Subseq (dates : list string) :
  Subseq (getFirstDatePerMonth getMonth dates) dates.
Proof. apply Subseq_filterFrom. Qed.

Lemma getFirstDatePerMonth_head (dates : list string) :
  hd_error (getFirstDatePerMonth getMonth dates) = hd_error dates.
Proof. destruct dates; reflexivity. Qed.

Lemma collapseDates_Subseq (uniqueDates : list string) (interval : string) :
  Subseq (collapseDates getMonth uniqueDates interval) uniqueDates /\
  hd_error (collapseDates getMonth uniqueDates interval) = hd_error uniqueDates.
Proof.
  unfold collapseDates.
  destruct (_ || _).
  - split; [apply getFirstDatePerMonth_Subseq | apply getFirstDatePerMonth_head].
  - split; [apply Subseq_refl | reflexivity].
Qed.

(** [getFirstDatePerMonth], which compares each date with the date before
    it in the array, from the position after [before ++ [prev]]. *)
Lemma filterFrom_keepMonthChanges (rest : list string) :
  forall (before : list string) (prev lastKept : string),
    (forall m, monthDiffers m (getMonth prev) = monthDiffers m (getMonth lastKept)) ->
    filterFrom
      (fun date i =>
         (i =? 0) || monthDiffers (getMonth date)
                       (monthAt getMonth (before ++ prev :: rest) (i - 1)))
      (jsLength (before ++ [prev])) rest
    = keepMonthChanges getMonth lastKept rest.
Proof.
  induction rest as [|d rest IH]; intros before prev lastKept Hsame; [reflexivity |].
  cbn [filterFrom keepMonthChanges].
  assert (Hlen : jsLength (before ++ [prev]) = Z.of_nat (length before) + 1)
    by (unfold jsLength; rewrite length_app; cbn; lia).
  assert (Hprev : monthAt getMonth (before ++ prev :: d :: rest)
                    (jsLength (before ++ [prev]) - 1) = getMonth prev).
  { unfold monthAt, jsIndex. rewrite Hlen.
    rewrite (proj2 (Z.ltb_ge _ 0)) by lia.
    replace (Z.to_nat (Z.of_nat (length before) + 1 - 1)) with (length before) by lia.
    rewrite nth_error_app2, Nat.sub_diag by lia. reflexivity. }
  rewrite Hprev, (proj2 (Z.eqb_neq _ 0)) by lia. cbn [orb].
  rewrite Hsame.
  replace (jsLength (before ++ [prev]) + 1) with (jsLength ((before ++ [prev]) ++ [d]))
    by (unfold jsLength; repeat rewrite length_app; cbn; lia).
  replace (before ++ prev :: d :: rest) with ((before ++ [prev]) ++ d :: rest)
    by (rewrite <- app_assoc; reflexivity).
  destruct (monthDiffers (getMonth d) (getMonth lastKept)) eqn:Hd.
  - f_equal. apply IH. reflexivity.
  - apply IH. intro m.
    rewrite <- Hsame in Hd. rewrite <- Hsame.
    destruct (getMonth d) as [md|], (getMonth prev) as [mp|]; try discriminate.
    cbn in Hd. apply negb_false_iff, Z.eqb_eq in Hd. subst. reflexivity.
Qed.

(** The filter of the source keeps the dates that the spec describes:
    index 0 and every date whose month differs from the month of the prior
    kept date. *)
Lemma getFirstDatePerMonth_firstOfEachMonth (dates : list string) :
  getFirstDatePerMonth getMonth dates = firstOfEachMonth getMonth dates.
Proof.
  destruct dates as [|d rest]; [reflexivity |].
  unfold getFirstDatePerMonth, jsFilter, firstOfEachMonth.
  cbn [filterFrom Z.eqb orb]. f_equal.
  apply (filterFrom_keepMonthChanges rest [] d d). reflexivity.
Qed.

Lemma keepMonthChanges_length (rest : list string) :
  forall prev lastKept : string,
    (forall m, monthDiffers m (getMonth prev) = monthDiffers m (getMonth lastKept)) ->
    length (keepMonthChanges getMonth lastKept rest)
    = length (filter (fun b => b) (monthChangesFrom getMonth prev rest)).
Proof.
  induction rest as [|d rest IH]; intros prev lastKept Hsame; [reflexivity |].
  cbn [keepMonthChanges monthChangesFrom filter]. rewrite Hsame.
  destruct (monthDiffers (getMonth d) (getMonth lastKept)) eqn:Hd.
  - cbn [length]. f_equal. apply IH. reflexivity.
  - apply IH. intro m.
    rewrite <- Hsame in Hd. rewrite <- Hsame.
    destruct (getMonth d) as [md|], (getMonth prev) as [mp|]; try discriminate.
    cbn in Hd. apply negb_false_iff, Z.eqb_eq in Hd. subst. reflexivity.
Qed.

Lemma firstOfEachMonth_length (d : string) (rest : list string) :
  length (firstOfEachMonth getMonth (d :: rest))
  = S (length (filter (fun b => b) (monthChanges getMonth (d :: rest)))).
Proof.
  cbn [firstOfEachMonth monthChanges length]. f_equal.
  apply keepMonthChanges_length. reflexivity.
Qed.

(** The second half of [getXTicks]: within a budget of at least 7 ticks it
    returns, with enough fuel for the loops, a subsequence of the dates
    that keeps the first date and fits the budget. *)
Lemma thinDates_ticks (dates : list string) (maxTicks : Z) :
  7 <= maxTicks ->
  exists ticks,
    (forall fuel, (length dates < fuel)%nat ->
       thinDates fuel dates maxTicks = Some ticks) /\
    jsLength ticks <= maxTicks /\
    Subseq ticks dates /\
    hd_error ticks = hd_error dates.
Proof.
  intro Hmax. unfold thinDates.
  destruct (jsLength dates <=? maxTicks) eqn:Hfits.
  - apply Z.leb_le in Hfits. exists dates.
    repeat split; [assumption | apply Subseq_refl].
  - apply Z.leb_gt in Hfits.
    destruct (incrementFactor_returns dates maxTicks ltac:(lia) ltac:(lia))
      as (f & Hf & Hfew & Hrun).
    destruct (getXTicksFromIncrementFactor_stride dates f Hf)
      as (ticks & Hsub & Hlen & Hhd & Hticks).
    exists ticks. split; [| split; [| split; assumption]].
    + intros fuel Hfuel.
      assert (2 <= fuel)%nat by (unfold jsLength in Hfits; lia).
      rewrite (Hrun fuel) by assumption.
      apply Hticks, Hfuel.
    + assert (jsLength ticks < maxTicks + 1); [| lia].
      apply (Z.mul_lt_mono_pos_r f); lia.
Qed.

(** Unique dates sorted by date are strictly increasing. *)
Lemma sorted_unique_strictlyIncreasing (dates : list string) :
  sortedByDate parseDate dates -> uniqueByDate parseDate dates ->
  strictlyIncreasing parseDate dates.
Proof.
  unfold sortedByDate, uniqueByDate, strictlyIncreasing. intros Hsorted Hunique.
  apply Sorted_StronglySorted in Hsorted; [| intros a b c; lia].
  induction Hsorted as [|d rest Hrest IH Hall]; [constructor |].
  cbn in Hunique. inversion Hunique as [|? ? Hnotin Hunique']; subst.
  constructor; [apply IH, Hunique' |].
  rewrite Forall_forall in *. intros e He.
  specialize (Hall e He).
  assert (parseDate e <> parseDate d); [| lia].
  intro Heq. apply Hnotin. rewrite <- Heq. apply in_map, He.
Qed.

(** C1: for non-empty unique dates sorted ascending by parsed date, and any
    width, mode and interval, [getXTicks] returns a tick list of at most
    [calculateMaxXTicks width mode] dates that is a strictly increasing
    subsequence of the unique dates and starts with their first date. *)
Theorem getXTicks_ticks :
  forall (uniqueDates : list string) (width : Q) (mode interval : string),
    uniqueDates <> [] ->
    sortedByDate parseDate uniqueDates ->
    uniqueByDate parseDate uniqueDates ->
    exists ticks,
      (forall fuel, (length uniqueDates < fuel)%nat ->
         getXTicks getMonth fuel uniqueDates width mode interval = Some ticks) /\
      jsLength ticks <= calculateMaxXTicks width mode /\
      Subseq ticks uniqueDates /\
      strictlyIncreasing parseDate ticks /\
      (exists first, hd_error uniqueDates = Some first /\ hd_error ticks = Some first).
Proof.
  intros uniqueDates width mode interval Hne Hsorted Hunique.
  unfold getXTicks.
  destruct (collapseDates_Subseq uniqueDates interval) as [Hsub Hhd].
  destruct (thinDates_ticks (collapseDates getMonth uniqueDates interval)
              (calculateMaxXTicks width mode)
              (proj1 (calculateMaxXTicks_range width mode)))
    as (ticks & Hrun & Hlen & Hsub' & Hhd').
  assert (Hticks : Subseq ticks uniqueDates) by (eapply Subseq_trans; eassumption).
  exists ticks. split; [| split; [exact Hlen | split; [exact Hticks | split]]].
  - intros fuel Hfuel. apply Hrun.
    pose proof (Subseq_length _ _ Hsub). lia.
  - eapply Subseq_sorted; [exact Hticks |].
    apply sorted_unique_strictlyIncreasing; assumption.
  - destruct uniqueDates as [|first rest]; [contradiction |].
    exists first. split; [reflexivity | rewrite Hhd', Hhd; reflexivity].
Qed.

(** C4: [getXTicks] first replaces the dates by the first date of each
    month (index 0 and every date whose month differs from the month of the
    prior kept date) exactly when the interval is 'day' and there are at
    least 63 dates, or the interval is 'week' and there are at least 9; the
    thinning works on that list.  70 daily dates collapse to at most 12
    dates. *)
Theorem getXTicks_collapse :
  forall (uniqueDates : list string) (interval : string),
    ((63 <= jsLength uniqueDates /\ interval = "day"%string) \/
     (9 <= jsLength uniqueDates /\ interval = "week"%string) ->
     collapseDates getMonth uniqueDates interval
     = firstOfEachMonth getMonth uniqueDates) /\
    (~ ((63 <= jsLength uniqueDates /\ interval = "day"%string) \/
        (9 <= jsLength uniqueDates /\ interval = "week"%string)) ->
     collapseDates getMonth uniqueDates interval = uniqueDates) /\
    (forall (fuel : nat) (width : Q) (mode : string),
       getXTicks getMonth fuel uniqueDates width mode interval
       = thinDates fuel (collapseDates getMonth uniqueDates interval)
           (calculateMaxXTicks width mode)) /\
    (jsLength uniqueDates = 70 -> interval = "day"%string ->
     dailyDates getMonth uniqueDates = true ->
     collapseDates getMonth uniqueDates interval
     = firstOfEachMonth getMonth uniqueDates /\
     jsLength (collapseDates getMonth uniqueDates interval) <= 12).
Proof.
  intros uniqueDates interval.
  assert (Hcond :
    ((dayTicksThreshold <=? jsLength uniqueDates) && String.eqb interval "day")
    || ((weekTicksThreshold <=? jsLength uniqueDates) && String.eqb interval "week")
    = true
    <-> (63 <= jsLength uniqueDates /\ interval = "day"%string) \/
        (9 <= jsLength uniqueDates /\ interval = "week"%string)).
  { unfold dayTicksThreshold, weekTicksThreshold.
    rewrite orb_true_iff, !andb_true_iff, !Z.leb_le, !String.eqb_eq. reflexivity. }
  assert (Hyes :
    (63 <= jsLength uniqueDates /\ interval = "day"%string) \/
    (9 <= jsLength uniqueDates /\ interval = "week"%string) ->
    collapseDates getMonth uniqueDates interval
    = firstOfEachMonth getMonth uniqueDates).
  { intro H. unfold collapseDates. rewrite (proj2 Hcond H).
    apply getFirstDatePerMonth_firstOfEachMonth. }
  split; [exact Hyes | split; [| split; [reflexivity |]]].
  - intro H. unfold collapseDates.
    destruct (_ || _); [exfalso; apply H, Hcond; reflexivity | reflexivity].
  - intros Hlen Hday Hdaily.
    assert (H63 : 63 <= jsLength uniqueDates) by lia.
    assert (Heq := Hyes (or_introl (conj H63 Hday))).
    split; [exact Heq |]. rewrite Heq.
    destruct uniqueDates as [|d rest]; [discriminate |].
    unfold jsLength in *. rewrite firstOfEachMonth_length.
    pose proof (spaced_count 28 (length (monthChanges getMonth (d :: rest)))
                  (monthChanges getMonth (d :: rest)) ltac:(lia) (Nat.le_refl _)
                  Hdaily) as Hcount.
    assert (Hchanges : forall prev l,
              length (monthChangesFrom getMonth prev l) = length l)
      by (intros prev l; revert prev; induction l; intro; cbn; auto).
    cbn [monthChanges length] in *. rewrite Hchanges in Hcount. lia.
Qed.

End Ticks.

Lemma eightDates_sorted : sortedByDate isoOrdinal eightDates.
Proof.
  unfold sortedByDate, eightDates.
  repeat (apply Sorted_cons;
          [| first [apply HdRel_nil | apply HdRel_cons; vm_compute; discriminate]]).
  apply Sorted_nil.
Defined.

Lemma eightDates_unique : uniqueByDate isoOrdinal eightDates.
Proof.
  unfold uniqueByDate, eightDates.
  repeat (apply NoDup_cons; [cbn; intuition discriminate |]).
  apply NoDup_nil.
Defined.

Lemma getXTicks_ticks_witness :
  eightDates <> [] /\ sortedByDate isoOrdinal eightDates /\
  uniqueByDate isoOrdinal eightDates /\
  exists ticks,
    getXTicks isoMonth 9 eightDates 100 "item-comparison" "day" = Some ticks /\
    jsLength ticks <= calculateMaxXTicks 100 "item-comparison" /\
    Subseq ticks eightDates /\
    strictlyIncreasing isoOrdinal ticks /\
    (exists first, hd_error eightDates = Some first /\ hd_error ticks = Some first).
Proof.
  assert (Hne : eightDates <> []) by discriminate.
  split; [exact Hne | split; [exact eightDates_sorted | split; [exact eightDates_unique |]]].
  destruct (getXTicks_ticks isoMonth isoOrdinal eightDates 100 "item-comparison" "day"
              Hne eightDates_sorted eightDates_unique) as (ticks & Hrun & Hrest).
  exists ticks. split; [| exact Hrest].
  apply Hrun. cbn. lia.
Defined.

Lemma getXTicks_collapse_witness :
  jsLength seventyDates = 70 /\ dailyDates isoMonth seventyDates = true /\
  jsLength (collapseDates isoMonth seventyDates "day") <= 12.
Proof.
  assert (Hlen : jsLength seventyDates = 70) by reflexivity.
  assert (Hdaily : dailyDates isoMonth seventyDates = true) by (vm_compute; reflexivity).
  split; [exact Hlen | split; [exact Hdaily |]].
  destruct (getXTicks_collapse isoMonth seventyDates "day") as (_ & _ & _ & Hseventy).
  apply (Hseventy Hlen eq_refl Hdaily).
Defined.

(** ** The date spans *)

Lemma mapFrom_nth {A B : Type} (f : A -> Z -> option B) (l : list A) :
  forall (i : Z) (ys : list B),
    mapFrom f i l = Some ys ->
    length ys = length l /\
    forall (k : nat) (y : B),
      nth_error ys k = Some y ->
      exists a, nth_error l k = Some a /\ f a (i + Z.of_nat k) = Some y.
Proof.
  induction l as [|a l IH]; intros i ys H; cbn in H.
  - injection H as <-. split; [reflexivity |]. intros [|k] y Hy; discriminate.
  - destruct (f a i) as [b|] eqn:Hfa; [| discriminate].
    destruct (mapFrom f (i + 1) l) as [bs|] eqn:Hrest; [| discriminate].
    injection H as <-. destruct (IH _ _ Hrest) as [Hlen Hnth].
    split; [cbn; congruence |].
    intros [|k] y Hy; cbn in Hy.
    + injection Hy as <-. exists a. split; [reflexivity |].
      rewrite Z.add_0_r. exact Hfa.
    + destruct (Hnth k y Hy) as (a' & Ha' & Hfa'). exists a'.
      split; [exact Ha' |].
      replace (i + Z.of_nat (S k)) with (i + 1 + Z.of_nat k) by lia. exact Hfa'.
Qed.

Lemma mapFrom_total {A B : Type} (f : A -> Z -> option B) (l : list A) :
  forall i : Z,
    (forall a j, In a l -> exists b, f a j = Some b) ->
    exists ys, mapFrom f i l = Some ys.
Proof.
  induction l as [|a l IH]; intros i Hall; cbn.
  - exists []; reflexivity.
  - destruct (Hall a i (or_introl eq_refl)) as [b ->].
    destruct (IH (i + 1) (fun a' j H => Hall a' j (or_intror H))) as [bs ->].
    exists (b :: bs); reflexivity.
Qed.

Section DateSpaceProperties.

Variable data : list DataRow.
Variable uniqueDates : list string.
Variable width : Q.
Variable xLineScale : string -> Q.

Lemma getDateSpaces_returns :
  datesHaveRows data uniqueDates ->
  exists spans, getDateSpaces data uniqueDates width xLineScale = Some spans.
Proof.
  intro Hrows. apply mapFrom_total. intros d j Hd. unfold dateSpaceOf.
  destruct (find (fun row => String.eqb (row_date row) d) data) eqn:Hfind.
  - eexists; reflexivity.
  - destruct (Hrows d Hd) as (row & Hin & Hdate).
    pose proof (find_none _ _ Hfind row Hin) as Hno. cbn in Hno.
    rewrite Hdate, String.eqb_refl in Hno. discriminate.
Qed.

(** The [start] and [width] of the span at index [k]. *)
Lemma getDateSpaces_nth (spans : list DateSpace.t) :
  getDateSpaces data uniqueDates width xLineScale = Some spans ->
  length spans = length uniqueDates /\
  forall (k : nat) (s : DateSpace.t),
    nth_error spans k = Some s ->
    exists d,
      nth_error uniqueDates k = Some d /\
      DateSpace.start s = fst (spanStartWidth uniqueDates width xLineScale d (Z.of_nat k)) /\
      DateSpace.width s = snd (spanStartWidth uniqueDates width xLineScale d (Z.of_nat k)).
Proof.
  intro H. destruct (mapFrom_nth _ _ _ _ H) as [Hlen Hnth].
  split; [exact Hlen |]. intros k s Hs.
  destruct (Hnth k s Hs) as (d & Hd & Hspan). exists d.
  split; [exact Hd |]. unfold dateSpaceOf in Hspan. cbn [Z.add] in Hspan.
  destruct (find _ data); [| discriminate].
  injection Hspan as <-. split; reflexivity.
Qed.

Lemma xAt_nth (d e : string) (k : nat) :
  nth_error uniqueDates k = Some e ->
  xAt uniqueDates xLineScale d (Z.of_nat k) = xLineScale e.
Proof.
  intro H. unfold xAt. rewrite Nat2Z.id.
  rewrite (nth_error_nth _ _ d H). reflexivity.
Qed.

(** The first span: from 0, half the distance to the second date wide. *)
Lemma spanStartWidth_first (d0 d1 : string) :
  (2 <= length uniqueDates)%nat ->
  nth_error uniqueDates 0 = Some d0 -> nth_error uniqueDates 1 = Some d1 ->
  spanStartWidth uniqueDates width xLineScale d0 0
  = (0%Q, ((xLineScale d1 - xLineScale d0) / 2)%Q).
Proof.
  intros Hlen H0 H1. unfold spanStartWidth, jsLength.
  rewrite (proj2 (Z.ltb_lt 0 _)) by lia.
  rewrite (proj2 (Z.ltb_lt 1 _)) by lia.
  cbn [Z.leb Z.eqb Z.compare orb Z.add].
  pose proof (xAt_nth d0 d1 1 H1) as Hx. change (Z.of_nat 1) with 1 in Hx.
  rewrite Hx. reflexivity.
Qed.

(** A span in the middle: centred on its date, as wide as the distance to
    the date before. *)
Lemma spanStartWidth_middle (k : nat) (prev d : string) :
  (S (S k) < length uniqueDates)%nat ->
  nth_error uniqueDates k = Some prev -> nth_error uniqueDates (S k) = Some d ->
  spanStartWidth uniqueDates width xLineScale d (Z.of_nat (S k))
  = ((xLineScale d - (xLineScale d - xLineScale prev) / 2)%Q,
     (xLineScale d - xLineScale prev)%Q).
Proof.
  intros Hlen Hprev Hd. unfold spanStartWidth, jsLength.
  rewrite (proj2 (Z.leb_le 1 _)) by lia.
  rewrite (proj2 (Z.eqb_neq _ 0)) by lia.
  rewrite (proj2 (Z.eqb_neq _ (Z.of_nat (length uniqueDates) - 1))) by lia.
  rewrite (proj2 (Z.ltb_lt 1 _)) by lia.
  cbn [orb].
  replace (Z.of_nat (S k) - 1) with (Z.of_nat k) by lia.
  rewrite (xAt_nth d prev k Hprev). reflexivity.
Qed.

(** The last span: from half way after the date before, half the distance
    to it wide. *)
Lemma spanStartWidth_last (k : nat) (prev d : string) :
  S (S k) = length uniqueDates ->
  nth_error uniqueDates k = Some prev -> nth_error uniqueDates (S k) = Some d ->
  spanStartWidth uniqueDates width xLineScale d (Z.of_nat (S k))
  = ((xLineScale d - (xLineScale d - xLineScale prev) / 2)%Q,
     ((xLineScale d - xLineScale prev) / 2)%Q).
Proof.
  intros Hlen Hprev Hd. unfold spanStartWidth, jsLength.
  rewrite (proj2 (Z.leb_le 1 _)) by lia.
  rewrite (proj2 (Z.eqb_neq _ 0)) by lia.
  rewrite (proj2 (Z.eqb_eq _ (Z.of_nat (length uniqueDates) - 1))) by lia.
  rewrite (proj2 (Z.ltb_lt 1 _)) by lia.
  cbn [orb].
  replace (Z.of_nat (S k) - 1) with (Z.of_nat k) by lia.
  rewrite (xAt_nth d prev k Hprev). reflexivity.
Qed.

(** The start of the span after the first: the same formula whether that
    span is in the middle or the last. *)
Lemma spanStartWidth_start (k : nat) (prev d : string) :
  (S k < length uniqueDates)%nat ->
  nth_error uniqueDates k = Some prev -> nth_error uniqueDates (S k) = Some d ->
  fst (spanStartWidth uniqueDates width xLineScale d (Z.of_nat (S k)))
  = (xLineScale d - (xLineScale d - xLineScale prev) / 2)%Q.
Proof.
  intros Hlen Hprev Hd.
  destruct (Nat.eq_dec (S (S k)) (length uniqueDates)) as [Hlast | Hmid].
  - rewrite (spanStartWidth_last k prev d Hlast Hprev Hd). reflexivity.
  - rewrite (spanStartWidth_middle k prev d ltac:(lia) Hprev Hd). reflexivity.
Qed.

(** C5, for equally spaced dates: when every date has its row, the first
    date is at pixel 0, the last at [width] and the dates are equally
    spaced in pixels, the spans of two or more dates are contiguous and
    cover exactly [[0, width]]; the span of a single date is
    [{ start: 0, width }]. *)
Theorem getDateSpaces_contiguous :
  datesHaveRows data uniqueDates ->
  ((2 <= length uniqueDates)%nat ->
   (forall d, nth_error uniqueDates 0 = Some d -> (xLineScale d == 0)%Q) ->
   (forall d, nth_error uniqueDates (pred (length uniqueDates)) = Some d ->
      (xLineScale d == width)%Q) ->
   equallySpaced uniqueDates xLineScale ->
   exists spans,
     getDateSpaces data uniqueDates width xLineScale = Some spans /\
     length spans = length uniqueDates /\
     contiguous spans /\ coversChart width spans) /\
  (length uniqueDates = 1%nat ->
   exists span,
     getDateSpaces data uniqueDates width xLineScale = Some [span] /\
     DateSpace.start span = 0%Q /\ DateSpace.width span = width).
Proof.
  intro Hrows.
  destruct (getDateSpaces_returns Hrows) as [spans Hspans].
  destruct (getDateSpaces_nth spans Hspans) as [Hlen Hnth].
  split.
  - intros Htwo Hfirst Hlast Heven.
    exists spans. split; [exact Hspans | split; [exact Hlen | split]].
    + intros i a b Ha Hb.
      destruct (Hnth _ _ Ha) as (da & Hda & Hastart & Hawidth).
      destruct (Hnth _ _ Hb) as (db & Hdb & Hbstart & _).
      assert (Hi : (S i < length uniqueDates)%nat)
        by (apply nth_error_Some; congruence).
      rewrite Hbstart, Hastart, Hawidth.
      rewrite (spanStartWidth_start i da db Hi Hda Hdb).
      destruct i as [|k].
      * change (Z.of_nat 0) with 0.
        rewrite (spanStartWidth_first da db Htwo Hda Hdb). cbn [fst snd].
        specialize (Hfirst da Hda). lra_halves.
      * destruct (nth_error uniqueDates k) as [prev|] eqn:Hprev;
          [| apply nth_error_None in Hprev; lia].
        rewrite (spanStartWidth_middle k prev da ltac:(lia) Hprev Hda).
        cbn [fst snd]. specialize (Heven k prev da db Hprev Hda Hdb). lra_halves.
    + split.
      * intros a Ha.
        destruct (Hnth _ _ Ha) as (da & Hda & Hastart & _).
        destruct (nth_error uniqueDates 1) as [db|] eqn:Hdb;
          [| apply nth_error_None in Hdb; lia].
        rewrite Hastart. change (Z.of_nat 0) with 0.
        rewrite (spanStartWidth_first da db Htwo Hda Hdb). reflexivity.
      * intros a Ha. rewrite Hlen in Ha.
        destruct (length uniqueDates) as [|[|k]] eqn:Hn; try lia.
        cbn [pred] in *.
        destruct (Hnth _ _ Ha) as (da & Hda & Hastart & Hawidth).
        destruct (nth_error uniqueDates k) as [prev|] eqn:Hprev;
          [| apply nth_error_None in Hprev; lia].
        rewrite Hastart, Hawidth.
        rewrite (spanStartWidth_last k prev da ltac:(lia) Hprev Hda).
        cbn [fst snd]. specialize (Hlast da Hda). lra_halves.
  - intro Hone.
    destruct uniqueDates as [|d [|? ?]] eqn:Hdates; try discriminate.
    destruct spans as [|span [|? ?]]; try discriminate.
    exists span. split; [exact Hspans |].
    destruct (Hnth 0%nat span eq_refl) as (d' & _ & Hstart & Hwidth).
    rewrite Hstart, Hwidth. split; reflexivity.
Qed.

(** Equal spacing from pixel 0 is also necessary: contiguous spans of two or
    more dates put the first date at 0 and the dates equally far apart. *)
Lemma getDateSpaces_contiguous_only_if (spans : list DateSpace.t) :
  (2 <= length uniqueDates)%nat ->
  getDateSpaces data uniqueDates width xLineScale = Some spans ->
  contiguous spans ->
  (forall d, nth_error uniqueDates 0 = Some d -> (xLineScale d == 0)%Q) /\
  equallySpaced uniqueDates xLineScale.
Proof.
  intros Htwo Hspans Hcont.
  destruct (getDateSpaces_nth spans Hspans) as [Hlen Hnth].
  assert (Hspan : forall k d, nth_error uniqueDates k = Some d ->
            exists s, nth_error spans k = Some s).
  { intros k d Hd. destruct (nth_error spans k) as [s|] eqn:Hs; [eauto |].
    apply nth_error_None in Hs.
    assert (k < length uniqueDates)%nat by (apply nth_error_Some; congruence). lia. }
  split.
  - intros d0 Hd0.
    destruct (nth_error uniqueDates 1) as [d1|] eqn:Hd1;
      [| apply nth_error_None in Hd1; lia].
    destruct (Hspan _ _ Hd0) as [a Ha]. destruct (Hspan _ _ Hd1) as [b Hb].
    specialize (Hcont _ _ _ Ha Hb).
    destruct (Hnth _ _ Ha) as (da & Hda & Hastart & Hawidth).
    destruct (Hnth _ _ Hb) as (db & Hdb & Hbstart & _).
    assert (da = d0) by congruence. assert (db = d1) by congruence. subst da db.
    rewrite Hbstart, Hastart, Hawidth in Hcont.
    rewrite (spanStartWidth_start 0 d0 d1 ltac:(lia) Hd0 Hd1) in Hcont.
    change (Z.of_nat 0) with 0 in Hcont.
    rewrite (spanStartWidth_first d0 d1 Htwo Hd0 Hd1) in Hcont.
    cbn [fst snd] in Hcont. lra_halves.
  - intros k prev d next Hprev Hd Hnext.
    destruct (Hspan _ _ Hd) as [a Ha]. destruct (Hspan _ _ Hnext) as [b Hb].
    specialize (Hcont _ _ _ Ha Hb).
    destruct (Hnth _ _ Ha) as (da & Hda & Hastart & Hawidth).
    destruct (Hnth _ _ Hb) as (db & Hdb & Hbstart & _).
    assert (da = d) by congruence. assert (db = next) by congruence. subst da db.
    assert (Hk : (S (S k) < length uniqueDates)%nat)
      by (apply nth_error_Some; congruence).
    rewrite Hbstart, Hastart, Hawidth in Hcont.
    rewrite (spanStartWidth_start (S k) d next Hk Hd Hnext) in Hcont.
    rewrite (spanStartWidth_middle k prev d Hk Hprev Hd) in Hcont.
    cbn [fst snd] in Hcont. lra_halves.
Qed.

End DateSpaceProperties.

Lemma getDateSpaces_contiguous_witness :
  exists spans,
    getDateSpaces (rowsOf evenDates) evenDates 30 (linearScale isoOrdinal evenDates 30)
    = Some spans /\
    length spans = length evenDates /\
    contiguous spans /\ coversChart 30 spans.
Proof.
  assert (Hrows : datesHaveRows (rowsOf evenDates) evenDates).
  { intros d Hd. exists (mkDataRow d [("sales"%string, 1%Q)]).
    split; [| reflexivity]. unfold rowsOf. apply in_map_iff.
    exists d. split; [reflexivity | exact Hd]. }
  apply (getDateSpaces_contiguous (rowsOf evenDates) evenDates 30
           (linearScale isoOrdinal evenDates 30) Hrows).
  - cbn. lia.
  - intros d [= <-]. reflexivity.
  - intros d [= <-]. reflexivity.
  - intros [|[|i]] a b c Ha Hb Hc; cbn in Ha, Hb, Hc; try discriminate.
    injection Ha as <-. injection Hb as <-. injection Hc as <-. reflexivity.
Defined.

(** C5 as stated fails for dates that are not equally spaced: three dates at
    pixels 0, 10 and 30 give the spans [0, 5), [5, 15) and [20, 30]; the
    third does not start where the second ends, and the widths add up to 25,
    not 30. *)
Lemma getDateSpaces_gap :
  map (linearScale isoOrdinal unevenDates 30) unevenDates = [0; 10; 30]%Q /\
  exists spans,
    getDateSpaces (rowsOf unevenDates) unevenDates 30
      (linearScale isoOrdinal unevenDates 30) = Some spans /\
    map (fun s => (DateSpace.start s, DateSpace.width s)) spans
      = [(0, 10 / 2); (10 - (10 - 0) / 2, 10 - 0); (30 - (30 - 10) / 2, (30 - 10) / 2)]%Q /\
    ~ contiguous spans.
Proof.
  split; [reflexivity |].
  eexists. split; [reflexivity | split; [reflexivity |]].
  intro H.
  specialize (H 1%nat _ _ eq_refl eq_refl).
  vm_compute in H. discriminate.
Qed.

(** ** The y-axis maximum *)

Local Open Scope Q_scope.

Lemma pow10_pos (e : Z) : 0 < pow10 e.
Proof. apply Qpower_0_lt. reflexivity. Qed.

Lemma pow10_le (e1 e2 : Z) : (e1 <= e2)%Z -> pow10 e1 <= pow10 e2.
Proof. intro H. apply Qpower_le_compat_l; [exact H | discriminate]. Qed.

Lemma pow10_lt (e1 e2 : Z) : (e1 < e2)%Z -> pow10 e1 < pow10 e2.
Proof. intro H. apply Qpower_lt_compat_l; [exact H | reflexivity]. Qed.

Lemma pow10_inject (k : Z) : (0 <= k)%Z -> pow10 k == inject_Z (10 ^ k).
Proof. intro H. unfold pow10. rewrite Zpower_Qpower by exact H. reflexivity. Qed.

Lemma pow10_add (a b : Z) : pow10 (a + b) == pow10 a * pow10 b.
Proof. unfold pow10. apply Qpower_plus. discriminate. Qed.

(** The search of [floorLog10From] ends on the decade of [y]. *)
Lemma floorLog10From_bracket (steps : nat) :
  forall (y : Q) (e : Z),
    pow10 e <= y -> y < pow10 (e + Z.of_nat steps) ->
    pow10 (floorLog10From steps y e) <= y < pow10 (floorLog10From steps y e + 1).
Proof.
  induction steps as [|steps IH]; intros y e Hlow Hhigh; cbn [floorLog10From].
  - exfalso. rewrite Z.add_0_r in Hhigh. lra.
  - case_Qle (pow10 (e + 1)) y.
    + apply IH; [exact Hcmp |].
      replace (e + 1 + Z.of_nat steps)%Z with (e + Z.of_nat (S steps))%Z by lia.
      exact Hhigh.
    + split; assumption.
Qed.

Lemma pow2_le_pow10 (k : Z) : (0 <= k)%Z -> (2 ^ k <= 10 ^ k)%Z.
Proof. intro H. apply Z.pow_le_mono_l. lia. Qed.

(** The bounds from which [floorLog10] starts its search. *)
Lemma floorLog10_bounds (y : Q) :
  0 < y ->
  pow10 (- (Z.log2 (Zpos (Qden y)) + 1)) <= y /\
  y < pow10 (Z.log2 (Qnum y) + 1).
Proof.
  destruct y as [num den]. intro Hpos. cbn [Qnum Qden].
  assert (Hnum : (0 < num)%Z) by (unfold Qlt in Hpos; cbn in Hpos; lia).
  pose proof (Z.log2_nonneg (Zpos den)) as Hd0.
  pose proof (Z.log2_nonneg num) as Hn0.
  pose proof (Z.log2_spec (Zpos den) ltac:(lia)) as Hden.
  pose proof (Z.log2_spec num Hnum) as Hnm.
  pose proof (pow2_le_pow10 (Z.log2 (Zpos den) + 1) ltac:(lia)) as Hd10.
  pose proof (pow2_le_pow10 (Z.log2 num + 1) ltac:(lia)) as Hn10.
  unfold Z.succ in *.
  split.
  - unfold pow10. rewrite Qpower_opp. fold (pow10 (Z.log2 (Zpos den) + 1)).
    apply Qle_shift_inv_r; [apply pow10_pos |].
    rewrite pow10_inject by lia.
    set (z := (10 ^ (Z.log2 (Zpos den) + 1))%Z) in *.
    unfold Qle, Qmult, inject_Z. cbn [Qnum Qden].
    rewrite Pos.mul_1_r. nia.
  - rewrite pow10_inject by lia.
    set (z := (10 ^ (Z.log2 num + 1))%Z) in *.
    unfold Qlt, inject_Z. cbn [Qnum Qden]. nia.
Qed.

(** [floorLog10 y] is the exponent of the decade of [y]:
    [10^e <= y < 10^(e+1)]. *)
Lemma floorLog10_bracket (y : Q) :
  0 < y -> pow10 (floorLog10 y) <= y < pow10 (floorLog10 y + 1).
Proof.
  intro Hpos. destruct (floorLog10_bounds y Hpos) as [Hlow Hhigh].
  unfold floorLog10. apply floorLog10From_bracket; [exact Hlow |].
  pose proof (Z.log2_nonneg (Zpos (Qden y))).
  pose proof (Z.log2_nonneg (Qnum y)).
  rewrite Z2Nat.id by lia.
  replace (- (Z.log2 (Z.pos (Qden y)) + 1)
           + (Z.log2 (Qnum y) + 1 - - (Z.log2 (Z.pos (Qden y)) + 1)))%Z
    with (Z.log2 (Qnum y) + 1)%Z by lia.
  exact Hhigh.
Qed.

Lemma ceilLog10_bracket (y : Q) :
  0 < y -> pow10 (ceilLog10 y - 1) < y <= pow10 (ceilLog10 y).
Proof.
  intro Hpos. destruct (floorLog10_bracket y Hpos) as [Hlow Hhigh].
  unfold ceilLog10.
  destruct (Qeq_bool y (pow10 (floorLog10 y))) eqn:Heq.
  - apply Qeq_bool_iff in Heq. split; [| lra].
    pose proof (pow10_lt (floorLog10 y - 1) (floorLog10 y) ltac:(lia)). lra.
  - apply Qeq_bool_neq in Heq.
    replace (floorLog10 y + 1 - 1)%Z with (floorLog10 y) by lia.
    split; [| lra].
    destruct (Qlt_le_dec (pow10 (floorLog10 y)) y) as [|Hle]; [assumption |].
    exfalso. apply Heq. lra.
Qed.


(** What [( Math.log( y ) * Math.LOG10E + 1 ) | 0] is for a positive [y], in
    terms of powers of ten: from [1/10] on, [log10 y + 1] is not negative and
    lies in [[k, k + 1)]; below [1/10] it is negative and lies in
    [(k - 1, k]]. *)
Lemma log10Plus1Int_bracket (y : Q) :
  0 < y ->
  (1 # 10 <= y ->
     (0 <= log10Plus1Int y)%Z /\
     pow10 (log10Plus1Int y - 1) <= y < pow10 (log10Plus1Int y)) /\
  (y < 1 # 10 ->
     (log10Plus1Int y <= 0)%Z /\
     pow10 (log10Plus1Int y - 2) < y <= pow10 (log10Plus1Int y - 1)).
Proof.
  intro Hpos. unfold log10Plus1Int.
  case_Qle y 0; [lra |].
  case_Qle (1 # 10) y; (split; intro Hy; [| try lra]); try lra.
  - destruct (floorLog10_bracket y Hpos) as [Hlow Hhigh].
    replace (floorLog10 y + 1 - 1)%Z with (floorLog10 y) by lia.
    split; [| split; assumption].
    destruct (Z_lt_le_dec (floorLog10 y) (-1)) as [Hsmall | ?]; [| lia].
    pose proof (pow10_le (floorLog10 y + 1) (-1) ltac:(lia)) as Hle.
    change (pow10 (-1)) with (1 # 10) in Hle. lra.
  - destruct (ceilLog10_bracket y Hpos) as [Hlow Hhigh].
    replace (ceilLog10 y + 1 - 2)%Z with (ceilLog10 y - 1)%Z by lia.
    replace (ceilLog10 y + 1 - 1)%Z with (ceilLog10 y) by lia.
    split; [| split; assumption].
    destruct (Z_lt_le_dec (-1) (ceilLog10 y)) as [Hbig | ?]; [| lia].
    pose proof (pow10_le (-1) (ceilLog10 y - 1) ltac:(lia)) as Hle.
    change (pow10 (-1)) with (1 # 10) in Hle. lra.
Qed.

Lemma getYMax_value (lineData : list Line) (m : Q) :
  maxRawValue lineData = Some m ->
  getYMax lineData
  = Num (roundUpTo (pow10 (log10Plus1Int (4 / 3 * m) - 2) * 3) (4 / 3 * m)).
Proof. intro H. unfold getYMax. rewrite H. reflexivity. Qed.

(** Without any value the result is [NaN]. *)
Lemma getYMax_no_value (lineData : list Line) :
  maxRawValue lineData = None -> getYMax lineData = NaN.
Proof. intro H. unfold getYMax. rewrite H. reflexivity. Qed.

Lemma roundUpTo_ge (step v : Q) : 0 < step -> v <= roundUpTo step v.
Proof.
  intro Hstep. unfold roundUpTo.
  assert (Hv : v == v / step * step) by (field; lra).
  rewrite Hv at 1.
  apply Qmult_le_compat_r; [apply Qle_ceiling | lra].
Qed.




(** *** On the doubles of the runtime *)

(** Where the powers of ten that the program reaches lie in the range of the
    doubles. *)
Lemma doubleRange_powers :
  pow10 (-324) <= Runtime.underflowThreshold /\
  Runtime.underflowThreshold < pow10 (-323) /\
  pow10 308 < Runtime.overflowThreshold /\
  Runtime.overflowThreshold <= pow10 307 * 3 * 10 /\
  Runtime.overflowThreshold <= pow10 309.
Proof. repeat split; vm_compute; congruence. Qed.

Lemma round_cases (q : Q) :
  (Runtime.overflowThreshold <= Qabs q /\
   Runtime.round q = Runtime.Infinity (Qlt_bool 0 q)) \/
  (Qabs q <= Runtime.underflowThreshold /\ Runtime.round q = Runtime.Finite 0) \/
  (Runtime.underflowThreshold < Qabs q < Runtime.overflowThreshold /\
   Runtime.round q = Runtime.Finite q).
Proof.
  unfold Runtime.round.
  case_Qle Runtime.overflowThreshold (Qabs q); [left; split; [exact Hcmp | reflexivity] |].
  case_Qle (Qabs q) Runtime.underflowThreshold.
  - right; left. split; [assumption | reflexivity].
  - right; right. repeat split; assumption.
Qed.

Lemma round_finite (q : Q) :
  Runtime.underflowThreshold < q -> q < Runtime.overflowThreshold ->
  Runtime.round q = Runtime.Finite q.
Proof.
  intros Hlow Hhigh.
  assert (Hunder : 0 < Runtime.underflowThreshold) by reflexivity.
  assert (Habs : Qabs q == q) by (apply Qabs_pos; lra).
  destruct (round_cases q) as [[H _] | [[H _] | [_ H]]]; [| | exact H];
    rewrite Habs in H; lra.
Qed.

Lemma round_zero (q : Q) : q == 0 -> Runtime.round q = Runtime.Finite 0.
Proof.
  intro Hq.
  assert (Hunder : 0 < Runtime.underflowThreshold) by reflexivity.
  assert (Hover : 0 < Runtime.overflowThreshold) by reflexivity.
  assert (Habs : Qabs q == 0) by (rewrite Hq; reflexivity).
  destruct (round_cases q) as [[H _] | [[_ H] | [[H _] _]]]; [| exact H |];
    rewrite Habs in H; lra.
Qed.

(** [Math.pow( 10, e ) * 3]: the exact power times 3 for an exponent from
    -323 to 307, zero below (the power underflows) and [Infinity] above
    (the product, or already the power, overflows). *)
Lemma pow3Y_range (e : Z) :
  ((-323 <= e <= 307)%Z ->
   Runtime.underflowThreshold < pow10 e * 3 < Runtime.overflowThreshold /\
   Runtime.mul (Runtime.pow10 e) (Runtime.Finite 3) = Runtime.Finite (pow10 e * 3)) /\
  ((e < -323)%Z ->
   Runtime.mul (Runtime.pow10 e) (Runtime.Finite 3) = Runtime.Finite 0) /\
  ((307 < e)%Z ->
   Runtime.mul (Runtime.pow10 e) (Runtime.Finite 3) = Runtime.Infinity true).
Proof.
  destruct doubleRange_powers as (H324 & H323 & H308 & H307 & H309).
  pose proof (pow10_pos e) as Hpos.
  pose proof (pow10_le (-323) 308 ltac:(lia)) as Hwide.
  unfold Runtime.pow10. change (Qpower 10 e) with (pow10 e).
  split; [| split]; intro He.
  - pose proof (pow10_le (-323) e ltac:(lia)) as Hlow.
    pose proof (pow10_le e 307 ltac:(lia)) as Hhigh.
    pose proof (pow10_lt 307 308 ltac:(lia)) as Hnext.
    assert (Hten : pow10 308 == pow10 307 * 10).
    { replace 308%Z with (307 + 1)%Z by lia. rewrite pow10_add. reflexivity. }
    pose proof (pow10_pos 307) as Hpos307.
    assert (Hrange : Runtime.underflowThreshold < pow10 e * 3 < Runtime.overflowThreshold)
      by (split; lra).
    split; [exact Hrange |].
    rewrite (round_finite (pow10 e)) by lra. cbn [Runtime.mul].
    apply round_finite; lra.
  - pose proof (pow10_le e (-324) ltac:(lia)) as Hlow.
    destruct (round_cases (pow10 e)) as [[H _] | [[_ H] | [[H _] _]]].
    + rewrite Qabs_pos in H by lra. lra.
    + rewrite H. cbn [Runtime.mul]. apply round_zero. ring.
    + rewrite Qabs_pos in H by lra. lra.
  - pose proof (pow10_le 308 e ltac:(lia)) as Hlow.
    destruct (round_cases (pow10 e)) as [[_ H] | [[H _] | [[Hin _] H]]].
    + rewrite H. cbn [Runtime.mul].
      rewrite (proj2 (Qlt_bool_iff 0 (pow10 e)) Hpos). reflexivity.
    + rewrite Qabs_pos in H by lra. lra.
    + rewrite H. cbn [Runtime.mul]. rewrite Qabs_pos in Hin by lra.
      assert (Hten : pow10 308 == pow10 307 * 10).
      { replace 308%Z with (307 + 1)%Z by lia. rewrite pow10_add. reflexivity. }
      pose proof (pow10_pos 307) as Hpos307.
      destruct (round_cases (pow10 e * 3)) as [[_ H3] | [[H3 _] | [[_ H3] _]]].
      * rewrite H3. rewrite (proj2 (Qlt_bool_iff 0 (pow10 e * 3))) by lra. reflexivity.
      * rewrite Qabs_pos in H3 by lra. lra.
      * rewrite Qabs_pos in H3 by lra. lra.
Qed.












Local Close Scope Q_scope.

(** ** The tooltip positioner *)

Section Tooltip.

Local Open Scope Q_scope.

Variables elementCoords chartCoords tooltipSize : Rect.t.

(** C8: in 'over' mode the tooltip's x is the anchor
    [elementLeft + elementWidth * ratio + margin - chartLeft], unclamped,
    whenever [anchor + tooltipWidth + margin <= chartWidth]; otherwise it
    is [max(margin, elementLeft + elementWidth * (1 - ratio) - tooltipWidth
    - margin - chartLeft)]. *)
Theorem calculateTooltipXPosition_over :
  forall tooltipMargin ratio : Q,
    (Rect.left elementCoords + Rect.width elementCoords * ratio + tooltipMargin
       - Rect.left chartCoords + Rect.width tooltipSize + tooltipMargin
       <= Rect.width chartCoords ->
     calculateTooltipXPosition elementCoords chartCoords tooltipSize
       tooltipMargin ratio "over"
     == Rect.left elementCoords + Rect.width elementCoords * ratio
          + tooltipMargin - Rect.left chartCoords) /\
    (Rect.width chartCoords
       < Rect.left elementCoords + Rect.width elementCoords * ratio + tooltipMargin
           - Rect.left chartCoords + Rect.width tooltipSize + tooltipMargin ->
     calculateTooltipXPosition elementCoords chartCoords tooltipSize
       tooltipMargin ratio "over"
     == Qmax tooltipMargin
          (Rect.left elementCoords + Rect.width elementCoords * (1 - ratio)
             - Rect.width tooltipSize - tooltipMargin - Rect.left chartCoords)).
Proof.
  intros tooltipMargin ratio.
  unfold calculateTooltipXPosition. cbn [String.eqb Ascii.eqb Bool.eqb].
  match goal with |- context [Qlt_bool ?a ?b] => case_Qlt a b end.
  - split; intro H; [exfalso; lra | reflexivity].
  - split; intro H; [reflexivity | exfalso; lra].
Qed.

(** The same through [calculateTooltipPosition], whose margin is 24. *)
Lemma calculateTooltipPosition_over_x (ratio : Q) :
  x (calculateTooltipPosition elementCoords chartCoords tooltipSize "over" ratio)
  = calculateTooltipXPosition elementCoords chartCoords tooltipSize 24 ratio "over".
Proof. reflexivity. Qed.

(** In 'below' mode [x] is clamped to [[margin, chartWidth - tooltipWidth -
    margin]] and [y] is the chart's height. *)
Lemma calculateTooltipXPosition_below (tooltipMargin ratio : Q) :
  tooltipMargin <= Rect.width chartCoords - Rect.width tooltipSize - tooltipMargin ->
  tooltipMargin
    <= calculateTooltipXPosition elementCoords chartCoords tooltipSize
         tooltipMargin ratio "below"
    <= Rect.width chartCoords - Rect.width tooltipSize - tooltipMargin.
Proof.
  intro H. unfold calculateTooltipXPosition. cbn [String.eqb Ascii.eqb Bool.eqb].
  split.
  - apply Q.le_max_l.
  - apply Q.max_lub; [exact H | apply Q.le_min_r].
Qed.

Lemma calculateTooltipYPosition_below (tooltipMargin : Q) :
  calculateTooltipYPosition elementCoords chartCoords tooltipSize tooltipMargin "below"
  = Rect.height chartCoords.
Proof. reflexivity. Qed.

(** C9: when the tooltip and its margins fit inside the chart rectangle,
    the tooltip position has [x] in [[0, chartWidth]] and [y] in
    [[0, chartHeight]], in 'below' mode and in 'over' mode (any other mode
    string), for every input that [calculateTooltipPosition] is called
    with: the hovered element is a descendant of the chart's [g] node, so
    that its rectangle lies inside the chart's, and the ratio is 0, 0.5 or
    1, hence not negative. *)
Theorem calculateTooltipPosition_within_chart :
  forall (tooltipPosition : string) (ratio : Q),
    saneSizes chartCoords tooltipSize 24 ->
    insideChart elementCoords chartCoords ->
    0 <= ratio ->
    withinChart chartCoords
      (calculateTooltipPosition elementCoords chartCoords tooltipSize
         tooltipPosition ratio).
Proof.
  intros tooltipPosition ratio (HtW & HtH & HfitW & HfitH)
    (HeW & HeH & Hleft & Hright & Htop & Hbottom) Hratio.
  assert (Hprod : 0 <= Rect.width elementCoords * ratio)
    by (apply Qmult_le_0_compat; assumption).
  unfold withinChart, calculateTooltipPosition. cbn [x y].
  destruct (String.eqb tooltipPosition "below") eqn:Hmode.
  - apply String.eqb_eq in Hmode. subst tooltipPosition.
    rewrite calculateTooltipYPosition_below.
    pose proof (calculateTooltipXPosition_below 24 0) as Hx.
    lra.
  - unfold calculateTooltipXPosition, calculateTooltipYPosition. rewrite Hmode.
    repeat match goal with |- context [Qlt_bool ?a ?b] => case_Qlt a b end;
    repeat match goal with |- context [Qmax ?a ?b] =>
      destruct (Q.max_spec a b) as [[? ?] | [? ?]];
      generalize dependent (Qmax a b); intros
    end; lra.
Qed.

End Tooltip.

Local Open Scope Q_scope.

Lemma calculateTooltipXPosition_over_witness :
  10 + 20 * 1 + 24 - 0 + 100 + 24 <= 600 /\
  calculateTooltipXPosition (Rect.mk 10 10 20 20) (Rect.mk 0 0 600 400)
    (Rect.mk 0 0 100 50) 24 1 "over" == 10 + 20 * 1 + 24 - 0.
Proof.
  assert (H : 10 + 20 * 1 + 24 - 0 + 100 + 24 <= 600) by (vm_compute; discriminate).
  split; [exact H |].
  exact (proj1 (calculateTooltipXPosition_over (Rect.mk 10 10 20 20)
                  (Rect.mk 0 0 600 400) (Rect.mk 0 0 100 50) 24 1) H).
Defined.

Lemma calculateTooltipPosition_within_chart_witness :
  withinChart (Rect.mk 0 0 600 400)
    (calculateTooltipPosition (Rect.mk 550 380 40 10) (Rect.mk 0 0 600 400)
       (Rect.mk 0 0 100 50) "over" 1).
Proof.
  apply calculateTooltipPosition_within_chart.
  - unfold saneSizes; cbn; repeat split; vm_compute; discriminate.
  - unfold insideChart; cbn; repeat split; vm_compute; discriminate.
  - vm_compute; discriminate.
Defined.

(** The place of the element is used: for a rectangle that starts 50 px
    left of the chart, which no call site passes, [x] would be negative in
    'over' mode (the anchor is used unclamped). *)
Lemma calculateTooltipPosition_out_of_chart :
  saneSizes (Rect.mk 100 0 600 400) (Rect.mk 0 0 100 50) 24 /\
  ~ withinChart (Rect.mk 100 0 600 400)
      (calculateTooltipPosition (Rect.mk 50 10 10 10) (Rect.mk 100 0 600 400)
         (Rect.mk 0 0 100 50) "over" 0).
Proof.
  split.
  - unfold saneSizes; cbn; repeat split; vm_compute; discriminate.
  - intros [[Hx _] _]. vm_compute in Hx. apply Hx. reflexivity.
Qed.

Local Close Scope Q_scope.

(** * Further properties *)

(** ** The factorizer, as its callers see it *)

(** X1: [getFactors n] is strictly ascending and holds exactly the positive
    divisors of a positive [n]; for [n <= 0] it is empty. *)
Theorem getFactors_ascending_divisors :
  forall n : Z,
    StronglySorted Z.lt (getFactors n) /\
    (forall d, In d (getFactors n) <-> 0 < n /\ 0 < d /\ n mod d = 0) /\
    (n <= 0 -> getFactors n = []).
Proof.
  intro n. destruct (Z_lt_le_dec 0 n) as [Hpos | Hneg].
  - split; [apply getFactors_sorted, Hpos | split; [| lia]].
    intro d. rewrite (getFactors_In n d Hpos). tauto.
  - rewrite (getFactors_nonpos n Hneg).
    split; [constructor | split; [| reflexivity]].
    intro d. cbn. split; [tauto | lia].
Qed.

Lemma sorted_app {A : Type} (R : A -> A -> Prop) (l1 l2 : list A) :
  StronglySorted R l1 -> StronglySorted R l2 ->
  (forall a b, In a l1 -> In b l2 -> R a b) ->
  StronglySorted R (l1 ++ l2).
Proof.
  induction 1 as [|a l1 Hl1 IH Hall]; intros H2 Hcross; cbn; [exact H2 |].
  constructor.
  - apply IH; [exact H2 |]. intros x y Hx Hy. apply Hcross; [right |]; assumption.
  - rewrite Forall_forall in *. intros x Hx. apply in_app_iff in Hx.
    destruct Hx as [Hx | Hx]; [apply Hall, Hx | apply Hcross; [left; reflexivity | exact Hx]].
Qed.

Lemma sorted_rev {A : Type} (R : A -> A -> Prop) (l : list A) :
  StronglySorted R l -> StronglySorted (fun a b => R b a) (rev l).
Proof.
  induction 1 as [|a l Hl IH Hall]; cbn; [constructor |].
  apply sorted_app; [exact IH | repeat constructor |].
  rewrite Forall_forall in Hall.
  intros x y Hx [<- | []]. apply Hall. apply in_rev. exact Hx.
Qed.

(** Dividing [n] by its factors turns their list around. *)
Lemma getFactors_cofactors (n : Z) :
  0 < n -> rev (map (fun d => n / d) (getFactors n)) = getFactors n.
Proof.
  intro Hn. apply sorted_lt_ext.
  - apply (sorted_rev (fun a b => b < a)).
    pose proof (getFactors_sorted n Hn) as Hsorted.
    assert (Hdiv : forall d, In d (getFactors n) -> 0 < d /\ n mod d = 0)
      by (intros d Hd; apply (getFactors_In n d Hn), Hd).
    induction Hsorted as [|a l Hl IH Hall]; cbn; [constructor |].
    constructor.
    + apply IH. intros d Hd. apply Hdiv. right; exact Hd.
    + rewrite Forall_forall in *. intros x Hx.
      apply in_map_iff in Hx. destruct Hx as (b & <- & Hb).
      specialize (Hall b Hb).
      destruct (Hdiv a (or_introl eq_refl)) as [Ha Hamod].
      destruct (Hdiv b (or_intror Hb)) as [Hbpos Hbmod].
      assert (Hqa : n = a * (n / a)) by (apply Z.div_exact; lia).
      assert (Hqb : n = b * (n / b)) by (apply Z.div_exact; lia).
      destruct (cofactor_divides n a Hn Ha Hamod) as (Hqapos & _).
      destruct (cofactor_divides n b Hn Hbpos Hbmod) as (Hqbpos & _).
      set (qa := n / a) in *. set (qb := n / b) in *.
      destruct (Z_lt_le_dec qb qa); [assumption | exfalso; nia].
  - apply getFactors_sorted, Hn.
  - intro z. rewrite <- in_rev, in_map_iff. split.
    + intros (d & <- & Hd). apply (getFactors_In n d Hn) in Hd.
      destruct Hd as [Hd Hmod].
      destruct (cofactor_divides n d Hn Hd Hmod) as (Hq & Hqmod & _).
      apply getFactors_In; [exact Hn | split; assumption].
    + intro Hz. apply (getFactors_In n z Hn) in Hz. destruct Hz as [Hz Hmod].
      destruct (cofactor_divides n z Hn Hz Hmod) as (Hq & Hqmod & Hback).
      exists (n / z). split; [exact Hback |].
      apply getFactors_In; [exact Hn | split; assumption].
Qed.

(** X2: the factors come in symmetric pairs: the factor at index [i] times
    the factor at index [length - 1 - i] is [n]. *)
Theorem getFactors_symmetric_pairs :
  forall (n : Z) (i : nat) (a b : Z),
    nth_error (getFactors n) i = Some a ->
    nth_error (getFactors n) (length (getFactors n) - 1 - i) = Some b ->
    a * b = n.
Proof.
  intros n i a b Ha Hb.
  destruct (Z_lt_le_dec 0 n) as [Hn | Hn];
    [| rewrite (getFactors_nonpos n Hn) in Ha; destruct i; discriminate].
  assert (Hi : (i < length (getFactors n))%nat) by (apply nth_error_Some; congruence).
  set (len := length (getFactors n)) in *.
  assert (Hb' : nth_error (rev (map (fun d => n / d) (getFactors n))) (len - 1 - i)
                = Some b) by (rewrite (getFactors_cofactors n Hn); exact Hb).
  rewrite nth_error_rev, length_map in Hb'. fold len in Hb'.
  rewrite (proj2 (Nat.ltb_lt (len - 1 - i) len)) in Hb' by lia.
  replace (len - S (len - 1 - i))%nat with i in Hb' by lia.
  rewrite nth_error_map, Ha in Hb'. cbn in Hb'. injection Hb' as <-.
  assert (Hin : In a (getFactors n)) by (eapply nth_error_In; eassumption).
  apply (getFactors_In n a Hn) in Hin. destruct Hin as [Hapos Hmod].
  symmetry. apply Z.div_exact; lia.
Qed.

Lemma getFactors_symmetric_pairs_witness :
  nth_error (getFactors 12) 1 = Some 2 /\
  nth_error (getFactors 12) (length (getFactors 12) - 1 - 1) = Some 6 /\
  2 * 6 = 12.
Proof.
  assert (Ha : nth_error (getFactors 12) 1 = Some 2) by reflexivity.
  assert (Hb : nth_error (getFactors 12) (length (getFactors 12) - 1 - 1) = Some 6)
    by reflexivity.
  split; [exact Ha | split; [exact Hb |]].
  exact (getFactors_symmetric_pairs 12 1 2 6 Ha Hb).
Defined.

(** X3: a number above 1 is prime exactly when its factors are 1 and itself,
    the case in which [calculateXTicksIncrementFactor] steps down. *)
Theorem getFactors_prime :
  forall n : Z, 1 < n -> (prime n <-> getFactors n = [1; n]).
Proof.
  intros n Hn. split.
  - intro Hprime. apply sorted_lt_ext.
    + apply getFactors_sorted. lia.
    + repeat constructor. exact Hn.
    + intro d. rewrite (getFactors_In n d ltac:(lia)). cbn. split.
      * intros [Hd Hmod].
        assert (Hdiv : (d | n)) by (apply Z.mod_divide; [lia | exact Hmod]).
        assert (Hle : d <= n) by (apply Z.divide_pos_le; [lia | exact Hdiv]).
        destruct (Z.eq_dec d n) as [-> | Hne]; [right; left; reflexivity | left].
        destruct Hprime as [_ Hrel].
        destruct (Hrel d ltac:(lia)) as [_ _ Hgcd].
        specialize (Hgcd d (Z.divide_refl d) Hdiv).
        symmetry. apply Z.divide_1_r_nonneg; [lia | exact Hgcd].
      * intros [<- | [<- | []]];
          (split; [lia |]); [apply Z.mod_1_r | apply Z.mod_same; lia].
  - intro Hfactors. apply prime_intro; [exact Hn |].
    intros k Hk. constructor; [apply Z.divide_1_l | apply Z.divide_1_l |].
    intros x Hxk Hxn.
    assert (Hx0 : x <> 0) by (intros ->; destruct Hxk as [q Hq]; lia).
    assert (Habs : In (Z.abs x) (getFactors n)).
    { apply getFactors_In; [lia |]. split; [lia |].
      apply Z.mod_divide; [lia |]. apply Z.divide_abs_l. exact Hxn. }
    rewrite Hfactors in Habs. cbn in Habs.
    destruct Habs as [H1 | [Hisn | []]].
    + apply Z.divide_abs_l. rewrite <- H1. apply Z.divide_refl.
    + exfalso.
      assert (Hle : Z.abs x <= k).
      { apply Z.divide_pos_le; [lia |]. apply Z.divide_abs_l. exact Hxk. }
      lia.
Qed.

Lemma getFactors_prime_witness :
  1 < 7 /\ (prime 7 <-> getFactors 7 = [1; 7]).
Proof.
  assert (H : 1 < 7) by lia.
  split; [exact H | exact (getFactors_prime 7 H)].
Defined.

(** ** The tick budget as a function of the width *)

Lemma calculateMaxXTicks_cases (width : Q) (mode : string) :
  ((width < 783)%Q /\ calculateMaxXTicks width mode = 7) \/
  ((783 <= width)%Q /\ (width <= 1130)%Q /\ calculateMaxXTicks width mode = 12) \/
  ((1130 < width)%Q /\ (width <= 1365)%Q /\
   calculateMaxXTicks width mode
   = if String.eqb mode "item-comparison" && negb (String.eqb mode "time-comparison")
     then 12 else 16) \/
  ((1365 < width)%Q /\
   calculateMaxXTicks width mode
   = if String.eqb mode "time-comparison" then 31 else 16).
Proof.
  unfold calculateMaxXTicks, smallBreak, mediumBreak, wideBreak,
    smallPoints, mediumPoints, largePoints, mostPoints.
  case_Qlt width 783%Q; [left; split; [assumption | reflexivity] | right].
  case_Qle 783%Q width; [| exfalso; lra].
  case_Qle width 1130%Q; cbn [andb];
    [left; repeat split; assumption | right].
  case_Qlt 1130%Q width; [| exfalso; lra].
  case_Qle width 1365%Q; cbn [andb].
  - left. repeat split; try assumption.
    destruct (String.eqb mode "time-comparison"), (String.eqb mode "item-comparison");
      reflexivity.
  - right. case_Qlt 1365%Q width; [| exfalso; lra].
    split; [assumption |].
    destruct (String.eqb mode "time-comparison"), (String.eqb mode "item-comparison");
      reflexivity.
Qed.

(** X4: a wider chart never gets a smaller tick budget, whatever the mode
    string, and at the same width time-comparison gets at least the budget
    of item-comparison. *)
Theorem calculateMaxXTicks_monotone :
  forall (width1 width2 : Q) (mode : string),
    (width1 <= width2)%Q ->
    calculateMaxXTicks width1 mode <= calculateMaxXTicks width2 mode /\
    calculateMaxXTicks width1 "item-comparison"
      <= calculateMaxXTicks width1 "time-comparison".
Proof.
  intros width1 width2 mode Hle. split.
  - destruct (calculateMaxXTicks_cases width1 mode)
      as [(H1 & ->) | [(H1 & H1' & ->) | [(H1 & H1' & ->) | (H1 & ->)]]];
    destruct (calculateMaxXTicks_cases width2 mode)
      as [(H2 & ->) | [(H2 & H2' & ->) | [(H2 & H2' & ->) | (H2 & ->)]]];
    try (exfalso; lra);
    destruct (String.eqb mode "time-comparison"), (String.eqb mode "item-comparison");
    cbn; lia.
  - destruct (calculateMaxXTicks_cases width1 "item-comparison")
      as [(H1 & ->) | [(H1 & H1' & ->) | [(H1 & H1' & ->) | (H1 & ->)]]];
    destruct (calculateMaxXTicks_cases width1 "time-comparison")
      as [(H2 & ->) | [(H2 & H2' & ->) | [(H2 & H2' & ->) | (H2 & ->)]]];
    try (exfalso; lra); cbn; lia.
Qed.

Lemma calculateMaxXTicks_monotone_witness :
  (800 <= 1400)%Q /\
  calculateMaxXTicks 800 "time-comparison" <= calculateMaxXTicks 1400 "time-comparison".
Proof.
  assert (H : (800 <= 1400)%Q) by discriminate.
  split; [exact H |].
  exact (proj1 (calculateMaxXTicks_monotone 800 1400 "time-comparison" H)).
Defined.

(** ** The ticks, position by position *)

(** The [for] loop with a factor [f >= 1], from index [j]: tick [k] of what
    it pushes is the date at index [j + k * f], and there is none where that
    index is past the end. *)
Lemma ticksLoop_positions (rounds : nat) :
  forall (uniqueDates : list string) (f j : Z),
    1 <= f -> 0 <= j ->
    (Z.to_nat (jsLength uniqueDates - j) <= rounds)%nat ->
    exists rest,
      (forall k : nat,
         nth_error rest k = nth_error uniqueDates (Z.to_nat (j + Z.of_nat k * f))) /\
      forall (fuel : nat) (ticks : list string),
        (Z.to_nat (jsLength uniqueDates - j) < fuel)%nat ->
        ticksLoop fuel uniqueDates (Some f) (Some j) ticks = Some (ticks ++ rest).
Proof.
  induction rounds as [|rounds IH]; intros uniqueDates f j Hf Hj Hrounds;
    destruct (Z_lt_le_dec j (jsLength uniqueDates)) as [Hlt | Hge];
    try (exfalso; lia).
  1, 3:
    exists []; split;
    [ intro k; symmetry; destruct k; cbn [nth_error];
      apply nth_error_None; unfold jsLength in *; nia
    | intros [|fuel] ticks Hfuel; [lia |];
      cbn [ticksLoop]; rewrite (proj2 (Z.ltb_ge _ _) Hge), app_nil_r; reflexivity ].
  destruct (jsIndex_in_range uniqueDates j ltac:(lia)) as (d & Hidx & Hnth).
  destruct (IH uniqueDates f (j + f) Hf ltac:(lia) ltac:(lia)) as (rest & Hpos & Hrun).
  exists (d :: rest). split.
  - intros [|k].
    + cbn [nth_error]. rewrite Z.mul_0_l, Z.add_0_r. symmetry. exact Hnth.
    + cbn [nth_error]. rewrite Hpos. f_equal. lia.
  - intros [|fuel] ticks Hfuel; [lia |].
    cbn [ticksLoop]. rewrite (proj2 (Z.ltb_lt _ _) Hlt), Hidx.
    rewrite Hrun by lia. rewrite <- app_assoc. reflexivity.
Qed.

(** X5: with an increment factor [f >= 1], [getXTicksFromIncrementFactor]
    returns the dates at the indices 0, [f], [2 f], ... and nothing else:
    tick [k] is [uniqueDates[ k * f ]]; the first date is never put in front a
    second time. *)
Theorem getXTicksFromIncrementFactor_every_fth :
  forall (uniqueDates : list string) (f : Z),
    1 <= f ->
    exists ticks,
      (forall fuel, (length uniqueDates < fuel)%nat ->
         getXTicksFromIncrementFactor fuel uniqueDates (Some f) = Some ticks) /\
      (forall k : nat, nth_error ticks k = nth_error uniqueDates (k * Z.to_nat f)) /\
      jsLength ticks = (jsLength uniqueDates + f - 1) / f.
Proof.
  intros uniqueDates f Hf.
  destruct (ticksLoop_positions (length uniqueDates) uniqueDates f 0 Hf ltac:(lia)
              ltac:(unfold jsLength; lia)) as (ticks & Hpos & Hrun).
  assert (Hpos' : forall k : nat,
            nth_error ticks k = nth_error uniqueDates (k * Z.to_nat f)).
  { intro k. rewrite Hpos. f_equal. nia. }
  assert (Hsame : firstDiffers ticks uniqueDates = false).
  { unfold firstDiffers, jsIndex. cbn.
    specialize (Hpos' 0%nat). cbn in Hpos'.
    destruct ticks as [|t ticks'], uniqueDates as [|u rest]; cbn in *;
      try discriminate; try reflexivity.
    injection Hpos' as ->. rewrite String.eqb_refl. reflexivity. }
  exists ticks. split; [| split; [exact Hpos' |]].
  - intros fuel Hfuel. unfold getXTicksFromIncrementFactor.
    rewrite (Hrun fuel []) by (unfold jsLength; lia).
    cbn [app]. rewrite Hsame. reflexivity.
  - unfold jsLength.
    set (n := length uniqueDates). set (c := length ticks).
    assert (Hin : forall k : nat, (k < c)%nat <-> (k * Z.to_nat f < n)%nat).
    { intro k. unfold c, n. rewrite <- !nth_error_Some, Hpos'. reflexivity. }
    apply Z.div_unique with (r := Z.of_nat n + f - 1 - f * Z.of_nat c).
    + left. split.
      * destruct c as [|c']; [lia |].
        pose proof (proj1 (Hin c') ltac:(lia)). nia.
      * pose proof (Hin c) as Hc.
        destruct (Nat.lt_ge_cases (c * Z.to_nat f) n) as [Hlt | Hge];
          [apply Hc in Hlt; lia | nia].
    + ring.
Qed.

Lemma getXTicksFromIncrementFactor_every_fth_witness :
  1 <= 3 /\
  exists ticks,
    getXTicksFromIncrementFactor 9 eightDates (Some 3) = Some ticks /\
    nth_error ticks 2 = nth_error eightDates 6 /\
    jsLength ticks = 3.
Proof.
  assert (H : 1 <= 3) by lia.
  split; [exact H |].
  destruct (getXTicksFromIncrementFactor_every_fth eightDates 3 H)
    as (ticks & Hrun & Hpos & Hlen).
  exists ticks. split; [apply Hrun; cbn; lia | split; [exact (Hpos 2%nat) | exact Hlen]].
Defined.

Lemma ticksLoop_stuck (fuel : nat) :
  forall (uniqueDates : list string) (f j : Z) (ticks : list string),
    f <= 0 -> j < jsLength uniqueDates ->
    ticksLoop fuel uniqueDates (Some f) (Some j) ticks = None.
Proof.
  induction fuel as [|fuel IH]; intros uniqueDates f j ticks Hf Hj; [reflexivity |].
  cbn [ticksLoop]. rewrite (proj2 (Z.ltb_lt _ _) Hj). apply IH; lia.
Qed.

(** X6: on dates that are not empty, [getXTicksFromIncrementFactor] returns
    no tick list for a factor that is zero or negative, however many rounds
    its loop is given (the source ends such a run by a [RangeError], not by
    a result), and returns the first date alone for an [undefined]
    factor. *)
Theorem getXTicksFromIncrementFactor_bad_factor :
  forall (first : string) (rest : list string),
    (forall (fuel : nat) (f : Z),
       f <= 0 -> getXTicksFromIncrementFactor fuel (first :: rest) (Some f) = None) /\
    (forall fuel : nat,
       (2 <= fuel)%nat ->
       getXTicksFromIncrementFactor fuel (first :: rest) None = Some [first]).
Proof.
  intros first rest. split.
  - intros fuel f Hf. unfold getXTicksFromIncrementFactor.
    rewrite ticksLoop_stuck; [reflexivity | exact Hf |].
    unfold jsLength. cbn [length]. lia.
  - intros [|[|fuel]] Hfuel; try lia.
    unfold getXTicksFromIncrementFactor, firstDiffers, jsIndex, jsLength. cbn.
    rewrite String.eqb_refl. reflexivity.
Qed.

Lemma getXTicksFromIncrementFactor_bad_factor_witness :
  getXTicksFromIncrementFactor 100 evenDates (Some 0) = None /\
  getXTicksFromIncrementFactor 2 evenDates None = Some ["2018-01-01"%string].
Proof.
  destruct (getXTicksFromIncrementFactor_bad_factor
              "2018-01-01" ["2018-01-02"; "2018-01-03"]%string) as [Hstuck Hfirst].
  split; [apply (Hstuck 100%nat 0); lia | apply (Hfirst 2%nat); lia].
Defined.

Lemma getXTicksFromIncrementFactor_positions (uniqueDates : list string) (f : Z) :
  1 <= f ->
  exists ticks,
    (forall fuel, (length uniqueDates < fuel)%nat ->
       getXTicksFromIncrementFactor fuel uniqueDates (Some f) = Some ticks) /\
    (forall k : nat, (k < length ticks)%nat <-> (k * Z.to_nat f < length uniqueDates)%nat).
Proof.
  intro Hf.
  destruct (getXTicksFromIncrementFactor_stride uniqueDates f Hf)
    as (ticks & _ & _ & _ & Hrun).
  destruct (ticksLoop_positions (length uniqueDates) uniqueDates f 0 Hf ltac:(lia)
              ltac:(unfold jsLength; lia)) as (ticks' & Hpos & Hrun').
  assert (Heq : ticks' = ticks).
  { specialize (Hrun (S (length uniqueDates)) ltac:(lia)).
    unfold getXTicksFromIncrementFactor in Hrun.
    rewrite (Hrun' (S (length uniqueDates)) []) in Hrun by (unfold jsLength; lia).
    cbn [app] in Hrun.
    assert (Hsame : firstDiffers ticks' uniqueDates = false).
    { unfold firstDiffers, jsIndex. cbn.
      specialize (Hpos 0%nat). cbn in Hpos.
      destruct ticks' as [|t ticks''], uniqueDates as [|u rest]; cbn in *;
        try discriminate; try reflexivity.
      injection Hpos as ->. rewrite String.eqb_refl. reflexivity. }
    rewrite Hsame in Hrun. congruence. }
  subst ticks'. exists ticks. split; [exact Hrun |].
  intro k. rewrite <- !nth_error_Some, Hpos.
  replace (Z.to_nat (0 + Z.of_nat k * f)) with (k * Z.to_nat f)%nat by nia.
  reflexivity.
Qed.

(** The factor that [calculateXTicksIncrementFactor] returns is below the
    number of dates. *)
Lemma incrementFactor_below_length (uniqueDates : list string) (maxTicks : Z) :
  7 <= jsLength uniqueDates -> 2 <= maxTicks ->
  exists f,
    1 <= f < jsLength uniqueDates /\ jsLength uniqueDates < maxTicks * f /\
    forall fuel, (2 <= fuel)%nat ->
      calculateXTicksIncrementFactor fuel uniqueDates maxTicks = Some (Some f).
Proof.
  intros Hlen Hmax.
  destruct (incrementFactor_found _ maxTicks Hlen Hmax)
    as (k & f & Hk & Hbig & Hbelow & Hmore & Hfind).
  destruct (find_some _ _ Hfind) as [Hin Hpf].
  apply (getFactors_In (jsLength uniqueDates - k) f ltac:(lia)) in Hin.
  destruct Hin as [Hfpos Hmod].
  assert (Hle : f <= jsLength uniqueDates - k).
  { apply Z.divide_pos_le; [lia |]. apply Z.mod_divide; [lia | exact Hmod]. }
  exists f. split; [lia | split].
  - apply (fewerThanMaxTicks_iff _ maxTicks f Hfpos), Hpf.
  - intros fuel Hfuel. unfold calculateXTicksIncrementFactor.
    rewrite (factorsLoop_exit fuel _ 1 k) by (try assumption; lia).
    rewrite Hfind. reflexivity.
Qed.

Section MoreTicks.

Variable getMonth : string -> option Z.

(** X7: up to seven dates are returned as they are (a single date gives that
    single date), for every width, mode and interval and without any fuel. *)
Theorem getXTicks_short_unchanged :
  forall (uniqueDates : list string) (fuel : nat) (width : Q) (mode interval : string),
    jsLength uniqueDates <= 7 ->
    getXTicks getMonth fuel uniqueDates width mode interval = Some uniqueDates.
Proof.
  intros uniqueDates fuel width mode interval Hlen.
  unfold getXTicks, collapseDates, thinDates, dayTicksThreshold, weekTicksThreshold.
  rewrite (proj2 (Z.leb_gt 63 _)), (proj2 (Z.leb_gt 9 _)) by lia.
  cbn [andb orb].
  pose proof (calculateMaxXTicks_range width mode).
  rewrite (proj2 (Z.leb_le _ _)) by lia. reflexivity.
Qed.


(** X8: when the dates left after the monthly collapse exceed the budget,
    [getXTicks] returns at least 2 and at most [maxTicks] ticks. *)
Theorem getXTicks_thinned_count :
  forall (uniqueDates : list string) (width : Q) (mode interval : string),
    calculateMaxXTicks width mode
      < jsLength (collapseDates getMonth uniqueDates interval) ->
    exists ticks,
      (forall fuel, (length uniqueDates < fuel)%nat ->
         getXTicks getMonth fuel uniqueDates width mode interval = Some ticks) /\
      2 <= jsLength ticks <= calculateMaxXTicks width mode.
Proof.
  intros uniqueDates width mode interval Hmore.
  set (dates := collapseDates getMonth uniqueDates interval) in *.
  set (maxTicks := calculateMaxXTicks width mode) in *.
  pose proof (calculateMaxXTicks_range width mode) as Hrange. fold maxTicks in Hrange.
  destruct (incrementFactor_below_length dates maxTicks ltac:(lia) ltac:(lia))
    as (f & Hf & Hfew & Hfactor).
  destruct (getXTicksFromIncrementFactor_positions dates f ltac:(lia))
    as (ticks & Hrun & Hin).
  assert (Hshorter : (length dates <= length uniqueDates)%nat).
  { apply Subseq_length. unfold dates, collapseDates.
    destruct (_ || _); [apply Subseq_filterFrom | apply Subseq_refl]. }
  exists ticks. split.
  - intros fuel Hfuel. unfold getXTicks, thinDates. fold dates maxTicks.
    rewrite (proj2 (Z.leb_gt _ _) Hmore).
    rewrite (Hfactor fuel) by (unfold jsLength in *; lia).
    apply Hrun. lia.
  - unfold jsLength in *. split.
    + assert (1 < length ticks)%nat; [| lia].
      apply (Hin 1%nat). lia.
    + destruct (length ticks) as [|c] eqn:Hc; [lia |].
      pose proof (proj1 (Hin c) ltac:(lia)). nia.
Qed.



Lemma keepMonthChanges_chain (dates : list string) :
  forall lastKept : string,
    Sorted (fun a b : string => monthDiffers (getMonth b) (getMonth a) = true)
      (keepMonthChanges getMonth lastKept dates) /\
    HdRel (fun a b : string => monthDiffers (getMonth b) (getMonth a) = true)
      lastKept (keepMonthChanges getMonth lastKept dates).
Proof.
  induction dates as [|d rest IH]; intro lastKept; cbn [keepMonthChanges].
  - split; constructor.
  - destruct (monthDiffers (getMonth d) (getMonth lastKept)) eqn:Hd.
    + destruct (IH d) as [Hsorted Hhd].
      split; constructor; assumption.
    + apply IH.
Qed.

Lemma keepMonthChanges_fixed (dates : list string) :
  forall lastKept : string,
    Sorted (fun a b : string => monthDiffers (getMonth b) (getMonth a) = true) dates ->
    HdRel (fun a b : string => monthDiffers (getMonth b) (getMonth a) = true) lastKept dates ->
    keepMonthChanges getMonth lastKept dates = dates.
Proof.
  induction dates as [|d rest IH]; intros lastKept Hsorted Hhd; [reflexivity |].
  cbn [keepMonthChanges].
  inversion Hhd as [|? ? Hd]; subst. cbn beta in Hd. rewrite Hd.
  inversion Hsorted; subst. f_equal. apply IH; assumption.
Qed.

(** X9: in what [getFirstDatePerMonth] keeps, each date is in another month
    than the date before it (an invalid date counts as another month), and
    filtering once more changes nothing. *)
Theorem getFirstDatePerMonth_idempotent :
  forall dates : list string,
    Sorted (fun a b => monthDiffers (getMonth b) (getMonth a) = true)
      (getFirstDatePerMonth getMonth dates) /\
    getFirstDatePerMonth getMonth (getFirstDatePerMonth getMonth dates)
    = getFirstDatePerMonth getMonth dates.
Proof.
  intro dates.
  rewrite !getFirstDatePerMonth_firstOfEachMonth.
  destruct dates as [|d rest]; [split; [constructor | reflexivity] |].
  cbn [firstOfEachMonth].
  destruct (keepMonthChanges_chain rest d) as [Hsorted Hhd].
  split.
  - constructor; assumption.
  - f_equal. apply keepMonthChanges_fixed; assumption.
Qed.

End MoreTicks.

Lemma getXTicks_short_unchanged_witness :
  jsLength ["2018-01-01"%string] <= 7 /\
  getXTicks isoMonth 0 ["2018-01-01"%string] 600 "item-comparison"%string "day"%string
  = Some ["2018-01-01"%string].
Proof.
  assert (H : jsLength ["2018-01-01"%string] <= 7) by (cbn; lia).
  split; [exact H |].
  exact (getXTicks_short_unchanged isoMonth ["2018-01-01"%string] 0 600
           "item-comparison"%string "day"%string H).
Defined.

Lemma getXTicks_thinned_count_witness :
  calculateMaxXTicks 600 "item-comparison"
    < jsLength (collapseDates isoMonth eightDates "day") /\
  exists ticks,
    getXTicks isoMonth 9 eightDates 600 "item-comparison"%string "day"%string = Some ticks /\
    2 <= jsLength ticks <= calculateMaxXTicks 600 "item-comparison".
Proof.
  assert (H : calculateMaxXTicks 600 "item-comparison"
              < jsLength (collapseDates isoMonth eightDates "day")) by reflexivity.
  split; [exact H |].
  destruct (getXTicks_thinned_count isoMonth eightDates 600 "item-comparison"%string "day"%string H)
    as (ticks & Hrun & Hcount).
  exists ticks. split; [apply Hrun; cbn; lia | exact Hcount].
Defined.

(** ** The data pipeline *)

Lemma setFrom_In (l : list string) :
  forall (seen : list string) (a : string),
    In a (setFrom seen l) <-> In a l /\ ~ In a seen.
Proof.
  induction l as [|b rest IH]; intros seen a; cbn [setFrom]; [cbn; tauto |].
  destruct (existsb (String.eqb b) seen) eqn:Hseen.
  - apply existsb_exists in Hseen. destruct Hseen as (c & Hc & Hbc).
    apply String.eqb_eq in Hbc. subst c.
    rewrite IH. cbn. split; [tauto |].
    intros [[<- | Ha] Hnot]; [contradiction | tauto].
  - assert (Hnot : ~ In b seen).
    { intro Hb. apply not_true_iff_false in Hseen. apply Hseen.
      apply existsb_exists. exists b. split; [exact Hb | apply String.eqb_refl]. }
    cbn [In]. rewrite IH. cbn [In]. split.
    + intros [<- | [Ha Hn]]; [tauto | tauto].
    + intros [[<- | Ha] Hn]; [tauto |].
      destruct (string_dec b a) as [<- | Hne]; [tauto | right; tauto].
Qed.

Lemma setFrom_NoDup (l : list string) :
  forall seen : list string, NoDup (setFrom seen l).
Proof.
  induction l as [|b rest IH]; intro seen; cbn [setFrom]; [constructor |].
  destruct (existsb (String.eqb b) seen); [apply IH |].
  constructor; [| apply IH].
  rewrite setFrom_In. cbn. tauto.
Qed.

Lemma fold_left_push {A : Type} (g : A -> list string) (l : list A) :
  forall init : list string,
    fold_left (fun accum a => accum ++ g a) l init = init ++ flat_map g l.
Proof.
  induction l as [|a rest IH]; intro init; cbn.
  - symmetry. apply app_nil_r.
  - rewrite IH, app_assoc. reflexivity.
Qed.

Lemma getUniqueKeys_In (data : list DataRow) (key : string) :
  In key (getUniqueKeys data) <->
  key <> "date"%string /\ exists row, In row data /\ In key (map fst (row_fields row)).
Proof.
  unfold getUniqueKeys, newSet.
  rewrite setFrom_In, fold_left_push. cbn [app].
  rewrite in_flat_map. split.
  - intros [(row & Hrow & Hkey) _].
    apply filter_In in Hkey. destruct Hkey as [Hkey Hnot].
    apply negb_true_iff, String.eqb_neq in Hnot.
    split; [exact Hnot |]. exists row. split; [exact Hrow |].
    cbn in Hkey. destruct Hkey as [Hdate | Hkey]; [congruence | exact Hkey].
  - intros (Hnot & row & Hrow & Hkey). split; [| tauto].
    exists row. split; [exact Hrow |].
    apply filter_In. split; [right; exact Hkey |].
    apply negb_true_iff, String.eqb_neq. exact Hnot.
Qed.

(** X10: [getUniqueKeys] returns each category key of the rows once, and
    never ['date']. *)
Theorem getUniqueKeys_keys :
  forall data : list DataRow,
    NoDup (getUniqueKeys data) /\
    forall key : string,
      In key (getUniqueKeys data) <->
      key <> "date"%string /\
      exists row, In row data /\ In key (map fst (row_fields row)).
Proof.
  intro data. split; [apply setFrom_NoDup | apply getUniqueKeys_In].
Qed.

Lemma mapThrowing_None {A B : Type} (f : A -> option B) (l : list A) :
  mapThrowing f l = None <-> exists a, In a l /\ f a = None.
Proof.
  induction l as [|a rest IH]; cbn.
  - split; [discriminate | intros (a & [] & _)].
  - destruct (f a) as [b|] eqn:Hfa.
    + destruct (mapThrowing f rest) as [bs|].
      * split; [discriminate |].
        intros (a' & [<- | Ha'] & Hnone); [congruence |].
        exfalso. assert (Hno : Some bs = None); [| discriminate].
        apply (proj2 IH). exists a'. tauto.
      * split; [| reflexivity]. intros _.
        destruct (proj1 IH eq_refl) as (a' & Ha' & Hnone).
        exists a'. tauto.
    + split; [| reflexivity]. intros _. exists a. tauto.
Qed.

Lemma mapThrowing_Some {A B : Type} (f : A -> option B) (l : list A) :
  forall bs : list B,
    mapThrowing f l = Some bs -> Forall2 (fun a b => f a = Some b) l bs.
Proof.
  induction l as [|a rest IH]; cbn; intros bs H.
  - injection H as <-. constructor.
  - destruct (f a) as [b|] eqn:Hfa; [| discriminate].
    destruct (mapThrowing f rest) as [bs'|]; [| discriminate].
    injection H as <-. constructor; [exact Hfa | apply IH; reflexivity].
Qed.

Lemma totalOf_fold (data : list DataRow) (key : string) :
  forall a : option number,
    fold_left
      (fun a c => match a with None => None | Some a' => addValue a' c key end)
      data a = None
    <-> a = None \/ exists row, In row data /\ rowProperty row key = None.
Proof.
  induction data as [|c rest IH]; intro a; cbn [fold_left].
  - split; [tauto | intros [H | (row & [] & _)]; exact H].
  - rewrite IH. destruct a as [a'|].
    + unfold addValue.
      destruct (rowProperty c key) as [[d | v |]|] eqn:Hc.
      * split; [intros [H | (row & Hrow & Hnone)]; [discriminate |] |].
        -- right. exists row. cbn. tauto.
        -- intros [H | (row & [<- | Hrow] & Hnone)]; [discriminate | congruence |].
           right. exists row. tauto.
      * split; [intros [H | (row & Hrow & Hnone)]; [discriminate |] |].
        -- right. exists row. cbn. tauto.
        -- intros [H | (row & [<- | Hrow] & Hnone)]; [discriminate | congruence |].
           right. exists row. tauto.
      * split; [intros [H | (row & Hrow & Hnone)]; [discriminate |] |].
        -- right. exists row. cbn. tauto.
        -- intros [H | (row & [<- | Hrow] & Hnone)]; [discriminate | congruence |].
           right. exists row. tauto.
      * split; [| tauto]. intros _. right. exists c. cbn. tauto.
    + tauto.
Qed.

Lemma getOrderedKeys_None (data : list DataRow) (uniqueKeys : list string) :
  getOrderedKeys data uniqueKeys = None <->
  exists key row,
    In key uniqueKeys /\ In row data /\ rowProperty row key = None.
Proof.
  unfold getOrderedKeys.
  destruct (mapThrowing _ uniqueKeys) as [rows|] eqn:Hmap.
  - split; [discriminate |].
    intros (key & row & Hkey & Hrow & Hnone). exfalso.
    assert (Hthrow : mapThrowing
              (fun key => match totalOf data key with
                          | None => None
                          | Some t => Some (OrderedKey.mk key true t true)
                          end) uniqueKeys = None).
    { apply mapThrowing_None. exists key. split; [exact Hkey |].
      replace (totalOf data key) with (@None number); [reflexivity |].
      symmetry. apply totalOf_fold. right. exists row. tauto. }
    congruence.
  - split; [| reflexivity]. intros _.
    apply mapThrowing_None in Hmap. destruct Hmap as (key & Hkey & Hnone).
    destruct (totalOf data key) as [t|] eqn:Htotal; [discriminate |].
    apply totalOf_fold in Htotal.
    destruct Htotal as [H | (row & Hrow & Hprop)]; [discriminate |].
    exists key, row. tauto.
Qed.

Lemma rowProperty_None (row : DataRow) (key : string) :
  rowProperty row key = None <->
  key <> "date"%string /\
  ~ In key (map fst (row_fields row)) /\
  ~ In key objectPrototypeKeys.
Proof.
  unfold rowProperty.
  destruct (String.eqb key "date") eqn:Hdate.
  - apply String.eqb_eq in Hdate. split; [discriminate | tauto].
  - apply String.eqb_neq in Hdate.
    destruct (find (fun kv => String.eqb (fst kv) key) (row_fields row)) as [kv|] eqn:Hfind.
    + split; [discriminate |]. intros (_ & Hown & _). exfalso. apply Hown.
      apply find_some in Hfind. destruct Hfind as [Hin Heq].
      apply String.eqb_eq in Heq. rewrite <- Heq. apply in_map, Hin.
    + assert (Hown : ~ In key (map fst (row_fields row))).
      { intro Hin. apply in_map_iff in Hin. destruct Hin as (kv & Heq & Hin).
        pose proof (find_none _ _ Hfind kv Hin) as Hno. cbn in Hno.
        rewrite Heq, String.eqb_refl in Hno. discriminate. }
      destruct (existsb (String.eqb key) objectPrototypeKeys) eqn:Hinherited.
      * split; [discriminate |]. intros (_ & _ & Hnot). exfalso. apply Hnot.
        apply existsb_exists in Hinherited. destruct Hinherited as (k & Hk & Heq).
        apply String.eqb_eq in Heq. subst k. exact Hk.
      * split; [intros _ | reflexivity]. split; [exact Hdate | split; [exact Hown |]].
        intro Hin. apply not_true_iff_false in Hinherited. apply Hinherited.
        apply existsb_exists. exists key. split; [exact Hin | apply String.eqb_refl].
Qed.

(** X11: [getOrderedKeys] throws exactly when, for one of the keys, some
    row has neither a category of its own under that key nor an inherited
    member of that name (and the key is not ['date']). *)
Theorem getOrderedKeys_throws :
  forall (data : list DataRow) (uniqueKeys : list string),
    getOrderedKeys data uniqueKeys = None <->
    exists key row,
      In key uniqueKeys /\ In row data /\
      key <> "date"%string /\
      ~ In key (map fst (row_fields row)) /\
      ~ In key objectPrototypeKeys.
Proof.
  intros data uniqueKeys. rewrite getOrderedKeys_None. split.
  - intros (key & row & Hkey & Hrow & Hnone). exists key, row.
    split; [exact Hkey | split; [exact Hrow |]]. apply rowProperty_None, Hnone.
  - intros (key & row & Hkey & Hrow & Hnone). exists key, row.
    split; [exact Hkey | split; [exact Hrow |]]. apply rowProperty_None, Hnone.
Qed.

(** X12: with the keys of [getUniqueKeys], as the component calls it,
    [getOrderedKeys] throws exactly when the rows are ragged in a category
    whose name no plain object inherits: one row has it and another has
    not. *)
Theorem getOrderedKeys_of_unique_keys :
  forall data : list DataRow,
    getOrderedKeys data (getUniqueKeys data) = None <->
    exists (key : string) (row other : DataRow),
      In row data /\ In other data /\ key <> "date"%string /\
      In key (map fst (row_fields other)) /\
      ~ In key (map fst (row_fields row)) /\
      ~ In key objectPrototypeKeys.
Proof.
  intro data. rewrite getOrderedKeys_None. split.
  - intros (key & row & Hkey & Hrow & Hnone).
    apply getUniqueKeys_In in Hkey. destruct Hkey as (Hnodate & other & Hother & Hhas).
    apply rowProperty_None in Hnone. destruct Hnone as (_ & Hlacks & Hnot).
    exists key, row, other. repeat split; assumption.
  - intros (key & row & other & Hrow & Hother & Hnodate & Hhas & Hlacks & Hnot).
    exists key, row. split; [| split; [exact Hrow |]].
    + apply getUniqueKeys_In. split; [exact Hnodate |]. exists other. tauto.
    + apply rowProperty_None. tauto.
Qed.

Lemma insertByTotal_perm (x : OrderedKey.t) (l : list OrderedKey.t) :
  Permutation (insertByTotal x l) (x :: l).
Proof.
  induction l as [|y rest IH]; cbn.
  - apply Permutation_refl.
  - destruct (totalAbove x y).
    + eapply perm_trans; [apply perm_skip, IH | apply perm_swap].
    + apply Permutation_refl.
Qed.

Lemma sortByTotal_perm (l : list OrderedKey.t) : Permutation (sortByTotal l) l.
Proof.
  induction l as [|x rest IH]; cbn.
  - apply perm_nil.
  - eapply perm_trans; [apply insertByTotal_perm | apply perm_skip, IH].
Qed.

(** On rows that all have the category, the total of a key that is not
    ['date'] is the cumulative value of that category. *)
Lemma totalOf_complete (data : list DataRow) (key : string) :
  key <> "date"%string ->
  (forall row, In row data -> In key (map fst (row_fields row))) ->
  totalOf data key = Some (Num (cumulativeTotal data key)).
Proof.
  intros Hkey. unfold totalOf, cumulativeTotal.
  generalize 0%Q as q.
  induction data as [|c rest IH]; intros q Hall; cbn [fold_left]; [reflexivity |].
  assert (Hown : exists kv,
             find (fun kv => String.eqb (fst kv) key) (row_fields c) = Some kv).
  { destruct (find (fun kv => String.eqb (fst kv) key) (row_fields c)) as [kv|] eqn:Hfind;
      [exists kv; reflexivity | exfalso].
    specialize (Hall c (or_introl eq_refl)). apply in_map_iff in Hall.
    destruct Hall as (kv & Heq & Hin).
    pose proof (find_none _ _ Hfind kv Hin) as Hno. cbn in Hno.
    rewrite Heq, String.eqb_refl in Hno. discriminate. }
  destruct Hown as [kv Hfind].
  assert (Hstep : addValue (Num q) c key = Some (Num (q + snd kv))).
  { unfold addValue, rowProperty. rewrite (proj2 (String.eqb_neq _ _) Hkey), Hfind.
    reflexivity. }
  assert (Hval : getValue c key = snd kv).
  { unfold getValue, rowProperty. rewrite (proj2 (String.eqb_neq _ _) Hkey), Hfind.
    reflexivity. }
  rewrite Hstep, Hval. apply IH. intros row Hrow. apply Hall. right; exact Hrow.
Qed.

Lemma mapThrowing_map {A B : Type} (f : A -> option B) (g : A -> B) (l : list A) :
  (forall a, In a l -> f a = Some (g a)) -> mapThrowing f l = Some (map g l).
Proof.
  induction l as [|a rest IH]; intro Hall; cbn; [reflexivity |].
  rewrite (Hall a (or_introl eq_refl)), IH; [reflexivity |].
  intros b Hb. apply Hall. right; exact Hb.
Qed.

Section OrderedKeys.

Variable data : list DataRow.

Local Open Scope Q_scope.

Lemma insertByTotal_sorted (x : OrderedKey.t) (l : list OrderedKey.t) :
  (hasCumulativeTotal data) x -> Forall (hasCumulativeTotal data) l ->
  StronglySorted (byCumulativeTotal data) l ->
  StronglySorted (byCumulativeTotal data) (insertByTotal x l).
Proof.
  intros Hx Hl Hsorted. induction Hsorted as [|y rest Hrest IH Hall]; cbn.
  - repeat constructor.
  - inversion Hl as [|? ? Hy Hl']; subst.
    unfold totalAbove. rewrite Hx, Hy.
    match goal with |- context [Qlt_bool ?a ?b] => case_Qlt a b end.
    + constructor; [apply IH, Hl' |].
      rewrite Forall_forall in *. intros z Hz.
      apply (Permutation_in _ (insertByTotal_perm x rest)) in Hz.
      destruct Hz as [<- | Hz]; [unfold byCumulativeTotal; lra | apply Hall, Hz].
    + constructor; [constructor; assumption |].
      constructor; [exact Hcmp |].
      rewrite Forall_forall in *. intros z Hz. specialize (Hall z Hz).
      unfold byCumulativeTotal in *. lra.
Qed.

Lemma sortByTotal_sorted (l : list OrderedKey.t) :
  Forall (hasCumulativeTotal data) l -> StronglySorted (byCumulativeTotal data) (sortByTotal l).
Proof.
  induction 1 as [|x rest Hx Hrest IH]; cbn; [constructor |].
  apply insertByTotal_sorted; [exact Hx | | exact IH].
  rewrite Forall_forall in *. intros z Hz. apply Hrest.
  apply (Permutation_in _ (sortByTotal_perm rest)), Hz.
Qed.

End OrderedKeys.

(** X13: on rows that all have each of the keys as a category of their
    own, and for keys without ['date'], [getOrderedKeys] returns: its rows
    carry the given keys, each once more in some order, every row with
    [focus] and [visible] set and with the cumulative value of its key as
    [total], and the totals never increase along the rows. *)
Theorem getOrderedKeys_sorted :
  forall (data : list DataRow) (uniqueKeys : list string),
    ~ In "date"%string uniqueKeys ->
    (forall key row,
        In key uniqueKeys -> In row data -> In key (map fst (row_fields row))) ->
    exists rows : list OrderedKey.t,
      getOrderedKeys data uniqueKeys = Some rows /\
      Permutation (map OrderedKey.key rows) uniqueKeys /\
      Forall (fun r =>
                OrderedKey.focus r = true /\ OrderedKey.visible r = true /\
                OrderedKey.total r = Num (cumulativeTotal data (OrderedKey.key r)))
             rows /\
      StronglySorted (byCumulativeTotal data) rows.
Proof.
  intros data uniqueKeys Hnodate Hcomplete.
  set (made := map (fun key =>
                      OrderedKey.mk key true (Num (cumulativeTotal data key)) true)
                   uniqueKeys).
  assert (Hmap : mapThrowing
                   (fun key => match totalOf data key with
                               | None => None
                               | Some t => Some (OrderedKey.mk key true t true)
                               end) uniqueKeys = Some made).
  { apply mapThrowing_map. intros key Hkey.
    rewrite (totalOf_complete data key); [reflexivity | |].
    - intros ->. exact (Hnodate Hkey).
    - intros row Hrow. exact (Hcomplete key row Hkey Hrow). }
  assert (Hall : Forall (fun r =>
                           OrderedKey.focus r = true /\ OrderedKey.visible r = true /\
                           OrderedKey.total r
                           = Num (cumulativeTotal data (OrderedKey.key r))) made).
  { subst made. apply Forall_forall. intros r Hr.
    apply in_map_iff in Hr. destruct Hr as (key & <- & _). cbn. tauto. }
  exists (sortByTotal made).
  split; [unfold getOrderedKeys; rewrite Hmap; reflexivity |].
  split; [| split].
  - eapply perm_trans; [apply Permutation_map, sortByTotal_perm |].
    subst made. rewrite map_map. cbn. rewrite map_id. apply Permutation_refl.
  - rewrite Forall_forall in *. intros r Hr. apply Hall.
    apply (Permutation_in _ (sortByTotal_perm made)), Hr.
  - apply sortByTotal_sorted.
    eapply Forall_impl; [| exact Hall]. intros r (_ & _ & Ht). exact Ht.
Qed.

Lemma getOrderedKeys_sorted_witness :
  exists rows,
    getOrderedKeys twoRows ["hats"; "shirts"]%string = Some rows /\
    map OrderedKey.key rows = ["shirts"; "hats"]%string /\
    StronglySorted (byCumulativeTotal twoRows) rows.
Proof.
  destruct (getOrderedKeys_sorted twoRows ["hats"; "shirts"]%string)
    as (rows & Hrun & _ & _ & Hsorted).
  - cbn. intuition discriminate.
  - intros key row Hkey Hrow. cbn in Hkey, Hrow.
    destruct Hrow as [<- | [<- | []]]; destruct Hkey as [<- | [<- | []]]; cbn; tauto.
  - exists rows. split; [exact Hrun | split; [| exact Hsorted]].
    assert (Hrows : Some rows = Some twoKeys) by (rewrite <- Hrun; reflexivity).
    injection Hrows as ->. reflexivity.
Defined.

Lemma insertByDate_perm (parseDate : string -> Z) (x : string) (l : list string) :
  Permutation (insertByDate parseDate x l) (x :: l).
Proof.
  induction l as [|y rest IH]; cbn.
  - apply Permutation_refl.
  - destruct (parseDate x <=? parseDate y)%Z.
    + apply Permutation_refl.
    + eapply perm_trans; [apply perm_skip, IH | apply perm_swap].
Qed.

Lemma sortByDate_perm (parseDate : string -> Z) (l : list string) :
  Permutation (sortByDate parseDate l) l.
Proof.
  induction l as [|x rest IH]; cbn.
  - apply perm_nil.
  - eapply perm_trans; [apply insertByDate_perm | apply perm_skip, IH].
Qed.

Lemma insertByDate_sorted (parseDate : string -> Z) (x : string) (l : list string) :
  StronglySorted (fun a b => (parseDate a <= parseDate b)%Z) l ->
  StronglySorted (fun a b => (parseDate a <= parseDate b)%Z) (insertByDate parseDate x l).
Proof.
  induction 1 as [|y sorted Hsorted IH Hall]; cbn.
  - repeat constructor.
  - destruct (parseDate x <=? parseDate y)%Z eqn:Hxy.
    + apply Z.leb_le in Hxy. constructor; [constructor; assumption |].
      constructor; [exact Hxy |].
      eapply Forall_impl; [| exact Hall]. intros z Hz. cbn in Hz. lia.
    + apply Z.leb_gt in Hxy. constructor; [exact IH |].
      rewrite Forall_forall in *. intros z Hz.
      apply (Permutation_in _ (insertByDate_perm parseDate x sorted)) in Hz.
      destruct Hz as [<- | Hz]; [lia | apply Hall, Hz].
Qed.

Lemma sortByDate_sorted (parseDate : string -> Z) (l : list string) :
  StronglySorted (fun a b => (parseDate a <= parseDate b)%Z) (sortByDate parseDate l).
Proof.
  induction l as [|x rest IH]; cbn; [constructor |].
  apply insertByDate_sorted, IH.
Qed.

Lemma getUniqueDates_In (lineData : list Line) (parseDate : string -> Z) (d : string) :
  In d (getUniqueDates lineData parseDate) <->
  exists line point,
    In line lineData /\ In point (line_values line) /\ point_date point = d.
Proof.
  unfold getUniqueDates, newSet. split.
  - intro Hd. apply (Permutation_in _ (sortByDate_perm parseDate _)) in Hd.
    apply setFrom_In in Hd. destruct Hd as [Hd _].
    rewrite fold_left_push in Hd. cbn [app] in Hd.
    apply in_flat_map in Hd. destruct Hd as (line & Hline & Hd).
    apply in_map_iff in Hd. destruct Hd as (point & Hdate & Hpoint).
    exists line, point. tauto.
  - intros (line & point & Hline & Hpoint & Hdate).
    apply (Permutation_in _ (Permutation_sym (sortByDate_perm parseDate _))).
    apply setFrom_In. split; [| cbn; tauto].
    rewrite fold_left_push. cbn [app].
    apply in_flat_map. exists line. split; [exact Hline |].
    apply in_map_iff. exists point. tauto.
Qed.

(** X14: [getUniqueDates] returns every date of the points of the lines,
    each once, in ascending order of parsed date. *)
Theorem getUniqueDates_sorted_unique :
  forall (lineData : list Line) (parseDate : string -> Z),
    NoDup (getUniqueDates lineData parseDate) /\
    sortedByDate parseDate (getUniqueDates lineData parseDate) /\
    forall d : string,
      In d (getUniqueDates lineData parseDate) <->
      exists line point,
        In line lineData /\ In point (line_values line) /\ point_date point = d.
Proof.
  intros lineData parseDate.
  split; [| split; [| intro d; apply getUniqueDates_In]].
  - unfold getUniqueDates, newSet.
    eapply Permutation_NoDup; [apply Permutation_sym, sortByDate_perm |].
    apply setFrom_NoDup.
  - apply StronglySorted_Sorted, sortByDate_sorted.
Qed.

(** The dates of the chart are those of the rows, as soon as there is a
    key. *)
Lemma getUniqueDates_getLineData (data : list DataRow) (orderedKeys : list OrderedKey.t)
    (parseDate : string -> Z) (d : string) :
  In d (getUniqueDates (getLineData data orderedKeys) parseDate) <->
  orderedKeys <> [] /\ exists row, In row data /\ row_date row = d.
Proof.
  rewrite getUniqueDates_In. unfold getLineData. split.
  - intros (line & point & Hline & Hpoint & Hdate).
    apply in_map_iff in Hline. destruct Hline as (key & <- & Hkey).
    cbn in Hpoint. apply in_map_iff in Hpoint. destruct Hpoint as (row & <- & Hrow).
    split; [intros ->; contradiction |]. exists row. tauto.
  - intros (Hkeys & row & Hrow & Hdate).
    destruct orderedKeys as [|key rest]; [contradiction |].
    eexists. exists (mkLinePoint (row_date row) (getValue row (OrderedKey.key key))).
    split; [left; reflexivity | split; [| exact Hdate]].
    cbn. apply in_map_iff. exists row. tauto.
Qed.

(** ** The date spans of the chart *)

Lemma mapFrom_throws {A B : Type} (f : A -> Z -> option B) (l : list A) :
  forall i : Z,
    mapFrom f i l = None <-> exists (k : nat) (a : A),
                               nth_error l k = Some a /\ f a (i + Z.of_nat k) = None.
Proof.
  induction l as [|a rest IH]; intro i; cbn [mapFrom].
  - split; [discriminate | intros ([|k] & a & Hk & _); discriminate].
  - destruct (f a i) as [b|] eqn:Hfa.
    + destruct (mapFrom f (i + 1) rest) as [bs|] eqn:Hrest.
      * split; [discriminate |]. intros ([|k] & a' & Hk & Hf); cbn in Hk.
        -- injection Hk as <-. rewrite Z.add_0_r in Hf. congruence.
        -- assert (Hnone : mapFrom f (i + 1) rest = None).
           { apply IH. exists k, a'. split; [exact Hk |].
             replace (i + 1 + Z.of_nat k) with (i + Z.of_nat (S k)) by lia. exact Hf. }
           congruence.
      * split; [intros _ | reflexivity].
        apply IH in Hrest. destruct Hrest as (k & a' & Hk & Hf).
        exists (S k), a'. split; [exact Hk |].
        replace (i + Z.of_nat (S k)) with (i + 1 + Z.of_nat k) by lia. exact Hf.
    + split; [intros _ | reflexivity].
      exists 0%nat, a. split; [reflexivity | rewrite Z.add_0_r; exact Hfa].
Qed.

Lemma mapFrom_inverse {A B : Type} (f : A -> Z -> option B) (g : B -> A) (l : list A) :
  (forall a i b, f a i = Some b -> g b = a) ->
  forall (i : Z) (ys : list B), mapFrom f i l = Some ys -> map g ys = l.
Proof.
  intro Hg. induction l as [|a rest IH]; intros i ys H; cbn in H.
  - injection H as <-. reflexivity.
  - destruct (f a i) as [b|] eqn:Hfa; [| discriminate].
    destruct (mapFrom f (i + 1) rest) as [bs|] eqn:Hrest; [| discriminate].
    injection H as <-. cbn. f_equal; [apply (Hg _ _ _ Hfa) | apply (IH _ _ Hrest)].
Qed.

Lemma dateSpaceOf_throws (data : list DataRow) (uniqueDates : list string) (width : Q)
    (xLineScale : string -> Q) (d : string) (i : Z) :
  dateSpaceOf data uniqueDates width xLineScale d i = None <->
  forall row, In row data -> row_date row <> d.
Proof.
  unfold dateSpaceOf.
  destruct (find (fun row => String.eqb (row_date row) d) data) as [row|] eqn:Hfind.
  - split; [discriminate |]. intro Hno. exfalso.
    apply find_some in Hfind. destruct Hfind as [Hin Heq].
    apply String.eqb_eq in Heq. exact (Hno row Hin Heq).
  - split; [intros _ | reflexivity].
    intros row Hin Heq. pose proof (find_none _ _ Hfind row Hin) as Hno. cbn in Hno.
    rewrite Heq, String.eqb_refl in Hno. discriminate.
Qed.

Lemma dateSpaceOf_date (data : list DataRow) (uniqueDates : list string) (width : Q)
    (xLineScale : string -> Q) (d : string) (i : Z) (s : DateSpace.t) :
  dateSpaceOf data uniqueDates width xLineScale d i = Some s -> DateSpace.date s = d.
Proof.
  unfold dateSpaceOf.
  destruct (find (fun row => String.eqb (row_date row) d) data) as [row|]; [| discriminate].
  intro H. injection H as <-. reflexivity.
Qed.

(** X15: [getDateSpaces] throws exactly when one of the unique dates has no
    row in [data]; the scale and the width play no part in that. *)
Theorem getDateSpaces_throws :
  forall (data : list DataRow) (uniqueDates : list string) (width : Q)
         (xLineScale : string -> Q),
    getDateSpaces data uniqueDates width xLineScale = None <->
    exists d, In d uniqueDates /\ forall row, In row data -> row_date row <> d.
Proof.
  intros data uniqueDates width xLineScale. unfold getDateSpaces.
  rewrite mapFrom_throws. split.
  - intros (k & d & Hk & Hnone). exists d.
    split; [exact (nth_error_In _ _ Hk) |].
    exact (proj1 (dateSpaceOf_throws _ _ _ _ _ _) Hnone).
  - intros (d & Hin & Hno). apply In_nth_error in Hin. destruct Hin as [k Hk].
    exists k, d. split; [exact Hk |]. apply dateSpaceOf_throws, Hno.
Qed.

(** X16: in the pipeline of [getParams], where the unique dates come from
    the rows themselves, [getDateSpaces] never throws: it returns one span
    per date of the rows, in ascending order of parsed date and without
    repetition, whatever the ordered keys, the width and the scale are. *)
Theorem getDateSpaces_of_pipeline :
  forall (data : list DataRow) (orderedKeys : list OrderedKey.t)
         (parseDate : string -> Z) (width : Q) (xLineScale : string -> Q),
    let uniqueDates := getUniqueDates (getLineData data orderedKeys) parseDate in
    exists spans,
      getDateSpaces data uniqueDates width xLineScale = Some spans /\
      map DateSpace.date spans = uniqueDates /\
      NoDup (map DateSpace.date spans) /\
      sortedByDate parseDate (map DateSpace.date spans) /\
      forall d : string,
        In d (map DateSpace.date spans) <->
        orderedKeys <> [] /\ exists row, In row data /\ row_date row = d.
Proof.
  intros data orderedKeys parseDate width xLineScale uniqueDates.
  destruct (getDateSpaces data uniqueDates width xLineScale) as [spans|] eqn:Hrun.
  - exists spans. split; [reflexivity |].
    assert (Hdates : map DateSpace.date spans = uniqueDates).
    { apply (mapFrom_inverse _ DateSpace.date _
               (fun d i s H => dateSpaceOf_date _ _ _ _ d i s H) _ _ Hrun). }
    split; [exact Hdates |]. rewrite Hdates. subst uniqueDates.
    split; [| split].
    + unfold getUniqueDates, newSet.
      eapply Permutation_NoDup; [apply Permutation_sym, sortByDate_perm |].
      apply setFrom_NoDup.
    + apply StronglySorted_Sorted, sortByDate_sorted.
    + intro d. apply getUniqueDates_getLineData.
  - exfalso. unfold getDateSpaces in Hrun. apply mapFrom_throws in Hrun.
    destruct Hrun as (k & d & Hk & Hnone).
    pose proof (proj1 (dateSpaceOf_throws _ _ _ _ _ _) Hnone) as Hno.
    apply nth_error_In in Hk.
    apply getUniqueDates_getLineData in Hk. destruct Hk as (_ & row & Hrow & Hdate).
    exact (Hno row Hrow Hdate).
Qed.

(** ** The y-axis above the data *)

Local Open Scope Q_scope.

Lemma d3Max_some (l : list (option Q)) (v : Q) :
  In (Some v) l -> exists m, d3Max l = Some m.
Proof.
  induction l as [|[a|] rest IH]; intro Hv; cbn.
  - contradiction.
  - destruct (d3Max rest); eexists; reflexivity.
  - destruct Hv as [Hv | Hv]; [discriminate | exact (IH Hv)].
Qed.

Lemma d3Max_upper (l : list (option Q)) :
  forall m v : Q, d3Max l = Some m -> In (Some v) l -> v <= m.
Proof.
  induction l as [|[a|] rest IH]; intros m v H Hv; cbn in H.
  - contradiction.
  - destruct (d3Max rest) as [m'|] eqn:Hrest.
    + injection H as <-. case_Qle m' a.
      * destruct Hv as [Hv | Hv]; [injection Hv as <-; lra |].
        specialize (IH m' v eq_refl Hv). lra.
      * destruct Hv as [Hv | Hv]; [injection Hv as <-; lra |].
        exact (IH m' v eq_refl Hv).
    + injection H as <-. destruct Hv as [Hv | Hv]; [injection Hv as <-; lra |].
      destruct (d3Max_some rest v Hv) as [m' Hm']. congruence.
  - destruct Hv as [Hv | Hv]; [discriminate | exact (IH m v H Hv)].
Qed.

Lemma maxRawValue_some (lineData : list Line) (line : Line) (point : LinePoint) :
  In line lineData -> In point (line_values line) ->
  exists m, maxRawValue lineData = Some m.
Proof.
  intros Hline Hpoint. unfold maxRawValue.
  destruct (d3Max_some (map (fun p => Some (point_value p)) (line_values line))
              (point_value point)) as [mi Hmi].
  { apply in_map_iff. exists point. split; [reflexivity | exact Hpoint]. }
  apply (d3Max_some _ mi). apply in_map_iff. exists line. split; assumption.
Qed.

Lemma maxRawValue_upper (lineData : list Line) (m : Q) (line : Line) (point : LinePoint) :
  maxRawValue lineData = Some m ->
  In line lineData -> In point (line_values line) ->
  point_value point <= m.
Proof.
  intros Hmax Hline Hpoint. unfold maxRawValue in Hmax.
  assert (Hin : In (Some (point_value point))
                   (map (fun p => Some (point_value p)) (line_values line))).
  { apply in_map_iff. exists point. split; [reflexivity | exact Hpoint]. }
  destruct (d3Max_some _ _ Hin) as [mi Hmi].
  pose proof (d3Max_upper _ _ _ Hmi Hin) as Hinner.
  assert (Hout : mi <= m).
  { apply (d3Max_upper _ _ _ Hmax). apply in_map_iff. exists line. split; assumption. }
  lra.
Qed.

Lemma round_not_NaN (q : Q) : Runtime.round q <> Runtime.NaN.
Proof.
  destruct (round_cases q) as [[_ H] | [[_ H] | [_ H]]]; rewrite H; discriminate.
Qed.

Lemma log10Plus1Int_positive (mathLog10 : Q -> Q) (q : Q) :
  0 < q ->
  Runtime.log10Plus1Int mathLog10 (Runtime.Finite q) = Runtime.toInt32 (mathLog10 q + 1).
Proof.
  intro Hq. unfold Runtime.log10Plus1Int.
  rewrite (proj2 (Qlt_bool_iff 0 q) Hq). reflexivity.
Qed.

Lemma log10Plus1Int_not_positive (mathLog10 : Q -> Q) (q : Q) :
  q <= 0 -> Runtime.log10Plus1Int mathLog10 (Runtime.Finite q) = 0%Z.
Proof.
  intro Hq. unfold Runtime.log10Plus1Int.
  rewrite (proj2 (Qlt_bool_false_iff 0 q) Hq). reflexivity.
Qed.

(** The last two operations for a step that is a finite number other than
    zero: [NaN] only from [NaN], and a finite result is the count of steps
    times the step. *)
Lemma ceil_times_step (a : Runtime.double) (step : Q) :
  ~ step == 0 ->
  (Runtime.mul (Runtime.ceil a) (Runtime.Finite step) = Runtime.NaN -> a = Runtime.NaN) /\
  (forall r : Q,
      Runtime.mul (Runtime.ceil a) (Runtime.Finite step) = Runtime.Finite r ->
      ~ r = 0 ->
      exists q : Q, a = Runtime.Finite q /\ r = inject_Z (Qceiling q) * step).
Proof.
  intro Hstep.
  assert (Hnonzero : Qeq_bool step 0 = false).
  { destruct (Qeq_bool step 0) eqn:Heq; [| reflexivity].
    apply Qeq_bool_iff in Heq. contradiction. }
  destruct a as [| s | q]; cbn [Runtime.ceil Runtime.mul]; rewrite ?Hnonzero.
  - split; [reflexivity | discriminate].
  - split; discriminate.
  - split; [intro H; exfalso; exact (round_not_NaN _ H) |].
    intros r H Hr. exists q. split; [reflexivity |].
    destruct (round_cases (inject_Z (Qceiling q) * step)) as [[_ H'] | [[_ H'] | [_ H']]];
      rewrite H' in H; [discriminate | | injection H as <-; reflexivity].
    injection H as <-. exfalso. apply Hr. reflexivity.
Qed.

(** The quotient by a step that is a finite number other than zero. *)
Lemma div_by_step (y step : Q) :
  ~ step == 0 ->
  Runtime.div (Runtime.Finite y) (Runtime.Finite step) = Runtime.round (y / step).
Proof.
  intro Hstep. cbn [Runtime.div].
  destruct (Qeq_bool step 0) eqn:Heq; [| reflexivity].
  apply Qeq_bool_iff in Heq. contradiction.
Qed.

(** A step that is zero or infinite gives [NaN] for a finite maximum that is
    not zero. *)
Lemma getYMax_step_out_of_range (y : Q) (pow3Y : Runtime.double) :
  ~ y == 0 ->
  pow3Y = Runtime.Finite 0 \/ pow3Y = Runtime.Infinity true ->
  Runtime.mul (Runtime.ceil (Runtime.div (Runtime.Finite y) pow3Y)) pow3Y = Runtime.NaN.
Proof.
  intros Hy [-> | ->]; cbn [Runtime.div].
  - change (Qeq_bool 0 0) with true. cbv iota.
    destruct (Qeq_bool y 0) eqn:Heq; [apply Qeq_bool_iff in Heq; contradiction |].
    reflexivity.
  - reflexivity.
Qed.

(** The steps of [Runtime.getYMax] on a maximum [m]. *)
Lemma Runtime_getYMax_steps (mathLog10 : Q -> Q) (lineData : list Line) (m : Q) :
  maxRawValue lineData = Some m ->
  (* the scaled maximum overflows *)
  (Runtime.overflowThreshold <= Qabs (4 / 3 * m) /\
   exists s, Runtime.getYMax mathLog10 lineData = Runtime.Infinity s) \/
  (* it is zero, negative, or underflows: the exponent is -2 *)
  ((4 / 3 * m <= Runtime.underflowThreshold) /\
   exists a,
     Runtime.getYMax mathLog10 lineData
     = Runtime.mul (Runtime.ceil a) (Runtime.Finite (pow10 (-2) * 3)) /\
     a <> Runtime.NaN /\
     forall q, a = Runtime.Finite q -> q <= 0) \/
  (* it is a positive double *)
  (Runtime.underflowThreshold < 4 / 3 * m < Runtime.overflowThreshold /\
   Runtime.getYMax mathLog10 lineData
   = let pow3Y :=
       Runtime.mul
         (Runtime.pow10 (Runtime.toInt32 (mathLog10 (4 / 3 * m) + 1) - 2))
         (Runtime.Finite 3) in
     Runtime.mul (Runtime.ceil (Runtime.div (Runtime.Finite (4 / 3 * m)) pow3Y)) pow3Y).
Proof.
  intro Hmax.
  assert (Hunder : 0 < Runtime.underflowThreshold) by reflexivity.
  destruct (pow3Y_range (0 - 2)) as [Hin _].
  destruct (Hin ltac:(lia)) as [Hrange Hpow]. clear Hin.
  change (0 - 2)%Z with (-2)%Z in *.
  assert (Hstep : ~ pow10 (-2) * 3 == 0) by lra.
  unfold Runtime.getYMax. rewrite Hmax. cbn [Runtime.mul].
  destruct (round_cases (4 / 3 * m)) as [[Hover Hr] | [[Hsmall Hr] | [[Hlow Hhigh] Hr]]];
    rewrite Hr.
  - left. split; [exact Hover |].
    cbn [Runtime.log10Plus1Int]. change (0 - 2)%Z with (-2)%Z. rewrite Hpow.
    cbn [Runtime.div Runtime.ceil Runtime.mul].
    destruct (Qeq_bool (pow10 (-2) * 3) 0) eqn:Heq;
      [apply Qeq_bool_iff in Heq; contradiction |].
    eexists. reflexivity.
  - right; left.
    split; [pose proof (Qle_Qabs (4 / 3 * m)); lra |].
    rewrite log10Plus1Int_not_positive by lra.
    change (0 - 2)%Z with (-2)%Z. rewrite Hpow, div_by_step by exact Hstep.
    exists (Runtime.round (0 / (pow10 (-2) * 3))).
    split; [reflexivity | split; [apply round_not_NaN |]].
    intros q Hq. rewrite round_zero in Hq by (unfold Qdiv; ring).
    injection Hq as <-. lra.
  - destruct (Qlt_le_dec 0 (4 / 3 * m)) as [Hpos | Hneg].
    + right; right. rewrite Qabs_pos in Hlow, Hhigh by lra.
      split; [split; assumption |].
      rewrite log10Plus1Int_positive by exact Hpos. reflexivity.
    + right; left. split; [lra |].
      rewrite log10Plus1Int_not_positive by exact Hneg.
      change (0 - 2)%Z with (-2)%Z. rewrite Hpow, div_by_step by exact Hstep.
      exists (Runtime.round (4 / 3 * m / (pow10 (-2) * 3))).
      split; [reflexivity | split; [apply round_not_NaN |]].
      intros q Hq.
      assert (Hquot : 4 / 3 * m / (pow10 (-2) * 3) <= 0).
      { apply Qle_shift_div_r; lra. }
      destruct (round_cases (4 / 3 * m / (pow10 (-2) * 3)))
        as [[_ H'] | [[_ H'] | [_ H']]]; rewrite H' in Hq;
        [discriminate | injection Hq as <-; lra | injection Hq as <-; exact Hquot].
Qed.

(** X17: whenever [getYMax] returns a finite number above zero, every
    point of every line is at most three quarters of it, whatever the
    logarithm of the runtime gives: the lines never reach the top of the
    chart. *)
Theorem getYMax_above_points :
  forall (mathLog10 : Q -> Q) (lineData : list Line) (r : Q),
    Runtime.getYMax mathLog10 lineData = Runtime.Finite r ->
    0 < r ->
    forall line point,
      In line lineData -> In point (line_values line) ->
      (4 # 3) * point_value point <= r.
Proof.
  intros mathLog10 lineData r Hrun Hr line point Hline Hpoint.
  destruct (maxRawValue_some lineData line point Hline Hpoint) as [m Hm].
  pose proof (maxRawValue_upper lineData m line point Hm Hline Hpoint) as Hle.
  assert (Hnonzero : ~ r = 0) by (intros ->; exact (Qlt_irrefl 0 Hr)).
  assert (Hscaled : 4 / 3 * m <= r ->  (4 # 3) * point_value point <= r).
  { intro H. change (4 / 3) with (4 # 3) in H. lra. }
  apply Hscaled. clear Hscaled.
  destruct (Runtime_getYMax_steps mathLog10 lineData m Hm)
    as [[_ [s Hs]] | [[_ (a & Ha & _ & Hq)] | [[Hlow Hhigh] Hsteps]]].
  - rewrite Hs in Hrun. discriminate.
  - exfalso. rewrite Ha in Hrun.
    pose proof (pow10_pos (-2)) as Hpow.
    destruct (ceil_times_step a (pow10 (-2) * 3) ltac:(lra)) as [_ Hfinite].
    destruct (Hfinite r Hrun Hnonzero) as (q & -> & Hrq).
    specialize (Hq q eq_refl).
    pose proof (Qceiling_resp_le q 0 Hq) as Hceil. change (Qceiling 0) with 0%Z in Hceil.
    rewrite Zle_Qle in Hceil. change (inject_Z 0) with 0 in Hceil.
    assert (Hprod : inject_Z (Qceiling q) * (pow10 (-2) * 3) <= 0 * (pow10 (-2) * 3))
      by (apply Qmult_le_compat_r; lra).
    rewrite <- Hrq in Hprod. lra.
  - assert (Hunder : 0 < Runtime.underflowThreshold) by reflexivity.
    rewrite Hsteps in Hrun. cbv zeta in Hrun.
    set (e := Z.sub (Runtime.toInt32 (mathLog10 (4 / 3 * m)%Q + 1)%Q) 2) in *.
    destruct (pow3Y_range e) as (Hin & Hbelow & Habove).
    destruct (Z_lt_le_dec e (-323)) as [He | He].
    { rewrite getYMax_step_out_of_range in Hrun;
        [discriminate | lra | left; exact (Hbelow He)]. }
    destruct (Z_lt_le_dec 307 e) as [He' | He'].
    { rewrite getYMax_step_out_of_range in Hrun;
        [discriminate | lra | right; exact (Habove He')]. }
    destruct (Hin ltac:(lia)) as [[Hsteplow _] Hpow]. rewrite Hpow in Hrun.
    rewrite div_by_step in Hrun by lra.
    destruct (ceil_times_step (Runtime.round (4 / 3 * m / (pow10 e * 3))) (pow10 e * 3)
                ltac:(lra)) as [_ Hfinite].
    destruct (Hfinite r Hrun Hnonzero) as (q & Hround & Hrq).
    destruct (round_cases (4 / 3 * m / (pow10 e * 3))) as [[_ H'] | [[_ H'] | [_ H']]];
      rewrite H' in Hround; [discriminate | |]; injection Hround as <-.
    + exfalso. change (Qceiling 0) with 0%Z in Hrq. change (inject_Z 0) with 0 in Hrq.
      rewrite Hrq in Hr. lra.
    + pose proof (roundUpTo_ge (pow10 e * 3) (4 / 3 * m) ltac:(lra)) as Hge.
      unfold roundUpTo in Hge. rewrite Hrq. exact Hge.
Qed.

Lemma getYMax_above_points_witness :
  Runtime.getYMax (fun _ => 9 # 10) (singleValue 6) = Runtime.Finite (81 # 10) /\
  0 < 81 # 10 /\
  forall line point,
    In line (singleValue 6) -> In point (line_values line) ->
    (4 # 3) * point_value point <= 81 # 10.
Proof.
  assert (Hrun : Runtime.getYMax (fun _ => 9 # 10) (singleValue 6)
                 = Runtime.Finite (81 # 10)) by (vm_compute; reflexivity).
  assert (Hpos : 0 < 81 # 10) by reflexivity.
  split; [exact Hrun | split; [exact Hpos |]].
  exact (getYMax_above_points (fun _ => 9 # 10) (singleValue 6) (81 # 10) Hrun Hpos).
Defined.

(** X18: for a positive maximum the four grid lines of [drawAxis] are 0 and
    one, two and three times [c * 10^e] for a whole number [c] from 1 to 34
    (from 4 on when the scaled maximum is at least 1/10): round numbers of
    two digits at most. *)
Theorem yGrids_round_numbers :
  forall (lineData : list Line) (m : Q),
    maxRawValue lineData = Some m ->
    0 < m ->
    exists (r : Q) (c e : Z),
      getYMax lineData = Num r /\
      (1 <= c <= 34)%Z /\
      (1 # 10 <= (4 # 3) * m -> (4 <= c)%Z) /\
      Forall2 Qeq (yGrids r)
        [0; inject_Z c * pow10 e; inject_Z (2 * c) * pow10 e; inject_Z (3 * c) * pow10 e].
Proof.
  intros lineData m Hm Hpos.
  change (4 # 3) with (4 / 3).
  set (scaled := 4 / 3 * m).
  assert (Hscaled : 0 < scaled) by (subst scaled; change (4 / 3) with (4 # 3); lra).
  set (k := log10Plus1Int scaled).
  set (t := pow10 (k - 2)).
  assert (Ht : 0 < t) by apply pow10_pos.
  assert (Hone : pow10 (k - 1) == 10 * t).
  { replace (k - 1)%Z with (1 + (k - 2))%Z by lia. rewrite pow10_add. reflexivity. }
  assert (Htwo : pow10 k == 100 * t).
  { replace k with (2 + (k - 2))%Z at 1 by lia. rewrite pow10_add. reflexivity. }
  set (q := scaled / (t * 3)).
  assert (Hq : q * (t * 3) == scaled) by (subst q; field; lra).
  pose proof (Qle_ceiling q) as Hceil.
  assert (Hfloor : inject_Z (Qceiling q) - 1 < q).
  { pose proof (Qceiling_lt q) as H. unfold Z.sub in H.
    rewrite inject_Z_plus, inject_Z_opp in H. change (inject_Z 1) with 1 in H. lra. }
  destruct (log10Plus1Int_bracket scaled Hscaled) as [Hbig Hsmall]. fold k in Hbig, Hsmall.
  exists (roundUpTo (t * 3) scaled), (Qceiling q), (k - 2)%Z.
  split; [apply (getYMax_value lineData m Hm) |].
  assert (Hbounds : (1 <= Qceiling q <= 34)%Z /\ (1 # 10 <= scaled -> (4 <= Qceiling q)%Z)).
  { destruct (Qlt_le_dec scaled (1 # 10)) as [Hlt | Hge].
    - destruct (Hsmall Hlt) as (_ & Hlow & Hhigh). rewrite Hone in Hhigh. fold t in Hlow.
      assert (Hq1 : 1 # 3 < q).
      { subst q. apply Qlt_shift_div_l; [lra | lra]. }
      assert (Hq2 : q <= 10 # 3).
      { subst q. apply Qle_shift_div_r; [lra | lra]. }
      split; [| intro; exfalso; lra].
      split.
      + destruct (Z_lt_le_dec (Qceiling q) 1) as [Hc | Hc]; [exfalso | exact Hc].
        assert (Hc' : (Qceiling q <= 0)%Z) by lia.
        rewrite Zle_Qle in Hc'. change (inject_Z 0) with 0 in Hc'. lra.
      + destruct (Z_lt_le_dec 34 (Qceiling q)) as [Hc | Hc]; [exfalso | exact Hc].
        assert (Hc' : (35 <= Qceiling q)%Z) by lia.
        rewrite Zle_Qle in Hc'. change (inject_Z 35) with 35 in Hc'. lra.
    - destruct (Hbig Hge) as (_ & Hlow & Hhigh). rewrite Hone in Hlow. rewrite Htwo in Hhigh.
      assert (Hq1 : 10 # 3 <= q).
      { subst q. apply Qle_shift_div_l; [lra | lra]. }
      assert (Hq2 : q < 100 # 3).
      { subst q. apply Qlt_shift_div_r; [lra | lra]. }
      assert (Hfour : (4 <= Qceiling q)%Z).
      { destruct (Z_lt_le_dec (Qceiling q) 4) as [Hc | Hc]; [exfalso | exact Hc].
        assert (Hc' : (Qceiling q <= 3)%Z) by lia.
        rewrite Zle_Qle in Hc'. change (inject_Z 3) with 3 in Hc'. lra. }
      split; [| intros _; exact Hfour].
      split; [lia |].
      destruct (Z_lt_le_dec 34 (Qceiling q)) as [Hc | Hc]; [exfalso | exact Hc].
      assert (Hc' : (35 <= Qceiling q)%Z) by lia.
      rewrite Zle_Qle in Hc'. change (inject_Z 35) with 35 in Hc'. lra. }
  split; [exact (proj1 Hbounds) |]. split; [exact (proj2 Hbounds) |].
  unfold yGrids, roundUpTo. fold q. fold t. cbn [map].
  repeat constructor; rewrite ?inject_Z_mult;
    change (inject_Z 0) with 0; change (inject_Z 1) with 1;
    change (inject_Z 2) with 2; change (inject_Z 3) with 3; field.
Qed.

Lemma yGrids_round_numbers_witness :
  exists (r : Q) (c e : Z),
    getYMax (singleValue 6) = Num r /\
    (1 <= c <= 34)%Z /\
    (1 # 10 <= (4 # 3) * 6 -> (4 <= c)%Z) /\
    Forall2 Qeq (yGrids r)
      [0; inject_Z c * pow10 e; inject_Z (2 * c) * pow10 e; inject_Z (3 * c) * pow10 e].
Proof.
  apply (yGrids_round_numbers (singleValue 6) 6); reflexivity.
Defined.

(** ** The tooltip as a box *)

(** X19: in 'over' mode (any mode but 'below'), when the tooltip and its
    margins fit into the chart, the hovered element lies inside the chart
    and the ratio is not negative, the whole tooltip lies inside the chart:
    its left and right edges keep the margin of 24 from the chart's, and
    its top and bottom edges lie between the chart's. *)
Theorem calculateTooltipPosition_box_inside :
  forall (elementCoords chartCoords tooltipSize : Rect.t) (tooltipPosition : string)
         (ratio : Q),
    tooltipPosition <> "below"%string ->
    saneSizes chartCoords tooltipSize 24 ->
    insideChart elementCoords chartCoords ->
    0 <= ratio ->
    let p :=
      calculateTooltipPosition elementCoords chartCoords tooltipSize tooltipPosition ratio in
    24 <= x p /\
    x p + Rect.width tooltipSize + 24 <= Rect.width chartCoords /\
    0 <= y p /\
    y p + Rect.height tooltipSize <= Rect.height chartCoords.
Proof.
  intros elementCoords chartCoords tooltipSize tooltipPosition ratio Hmode
    (HtW & HtH & HfitW & HfitH) (HeW & HeH & Hleft & Hright & Htop & Hbottom) Hratio p.
  assert (Hprod : 0 <= Rect.width elementCoords * ratio)
    by (apply Qmult_le_0_compat; assumption).
  apply String.eqb_neq in Hmode.
  subst p. unfold calculateTooltipPosition. cbn [x y].
  unfold calculateTooltipXPosition, calculateTooltipYPosition. rewrite Hmode.
  repeat match goal with |- context [Qlt_bool ?a ?b] => case_Qlt a b end;
  repeat match goal with |- context [Qmax ?a ?b] =>
    destruct (Q.max_spec a b) as [[? ?] | [? ?]];
    generalize dependent (Qmax a b); intros
  end; repeat split; lra.
Qed.

Lemma calculateTooltipPosition_box_inside_witness :
  let p :=
    calculateTooltipPosition (Rect.mk 550 380 40 10) (Rect.mk 0 0 600 400)
      (Rect.mk 0 0 100 50) "over" (1 # 2) in
  24 <= x p /\ x p + 100 + 24 <= 600 /\ 0 <= y p /\ y p + 50 <= 400.
Proof.
  apply (calculateTooltipPosition_box_inside (Rect.mk 550 380 40 10) (Rect.mk 0 0 600 400)
           (Rect.mk 0 0 100 50) "over" (1 # 2)).
  - discriminate.
  - unfold saneSizes; cbn; repeat split; vm_compute; discriminate.
  - unfold insideChart; cbn; repeat split; vm_compute; discriminate.
  - vm_compute; discriminate.
Defined.

(** X20: in 'below' mode, when the tooltip and its margins fit into the
    width of the chart, the tooltip keeps the margin of 24 from both sides
    of the chart and sits at the chart's height, wherever the hovered
    element is; the ratio is ignored, and where there is room the tooltip is
    centred 24 to the right of the element's left edge. *)
Theorem calculateTooltipPosition_below_clamped :
  forall (elementCoords chartCoords tooltipSize : Rect.t) (ratio : Q),
    Rect.width tooltipSize + 2 * 24 <= Rect.width chartCoords ->
    let p :=
      calculateTooltipPosition elementCoords chartCoords tooltipSize "below" ratio in
    let centre := Rect.left elementCoords + 24 - Rect.left chartCoords in
    24 <= x p /\
    x p + Rect.width tooltipSize + 24 <= Rect.width chartCoords /\
    y p = Rect.height chartCoords /\
    p = calculateTooltipPosition elementCoords chartCoords tooltipSize "below" 0 /\
    (24 + Rect.width tooltipSize / 2 <= centre ->
     centre + Rect.width tooltipSize / 2 + 24 <= Rect.width chartCoords ->
     x p + Rect.width tooltipSize / 2 == centre).
Proof.
  intros elementCoords chartCoords tooltipSize ratio Hfit p centre.
  subst p centre. unfold calculateTooltipPosition. cbn [x y String.eqb Ascii.eqb Bool.eqb].
  unfold calculateTooltipXPosition, calculateTooltipYPosition.
  cbn [String.eqb Ascii.eqb Bool.eqb].
  repeat split;
  repeat match goal with |- context [Qmin ?a ?b] =>
    destruct (Q.min_spec a b) as [[? ?] | [? ?]];
    generalize dependent (Qmin a b); intros
  end;
  repeat match goal with |- context [Qmax ?a ?b] =>
    destruct (Q.max_spec a b) as [[? ?] | [? ?]];
    generalize dependent (Qmax a b); intros
  end; lra_halves.
Qed.

Lemma calculateTooltipPosition_below_clamped_witness :
  let p :=
    calculateTooltipPosition (Rect.mk (-50) 380 40 10) (Rect.mk 0 0 600 400)
      (Rect.mk 0 0 100 50) "below" 1 in
  24 <= x p /\ x p + 100 + 24 <= 600 /\ y p = 400.
Proof.
  destruct (calculateTooltipPosition_below_clamped (Rect.mk (-50) 380 40 10)
              (Rect.mk 0 0 600 400) (Rect.mk 0 0 100 50) 1) as (Hleft & Hright & Hy & _).
  - vm_compute; discriminate.
  - repeat split; assumption.
Defined.

Local Close Scope Q_scope.

(** ** The colors of the keys *)

Lemma findIndexFrom_key (l : list OrderedKey.t) :
  forall (off : Z) (i : nat) (a : OrderedKey.t),
    NoDup (map OrderedKey.key l) ->
    nth_error l i = Some a ->
    findIndexFrom (fun d => String.eqb (OrderedKey.key d) (OrderedKey.key a)) off l
    = off + Z.of_nat i.
Proof.
  induction l as [|r rest IH]; intros off i a Hnodup Hi; [destruct i; discriminate |].
  inversion Hnodup as [|? ? Hnotin Hrest]; subst.
  destruct i as [|i]; cbn in Hi; cbn [findIndexFrom].
  - injection Hi as <-. rewrite String.eqb_refl. lia.
  - assert (Hne : String.eqb (OrderedKey.key r) (OrderedKey.key a) = false).
    { apply String.eqb_neq. intro Heq. apply Hnotin. rewrite Heq.
      apply in_map, (nth_error_In _ _ Hi). }
    rewrite Hne, (IH (off + 1) i a Hrest Hi). lia.
Qed.

Lemma findIndexFrom_absent {A : Type} (p : A -> bool) (l : list A) :
  forall off : Z, (forall a, In a l -> p a = false) -> findIndexFrom p off l = -1.
Proof.
  induction l as [|a rest IH]; intros off Hall; cbn [findIndexFrom]; [reflexivity |].
  rewrite (Hall a (or_introl eq_refl)). apply IH. intros b Hb. apply Hall. right; exact Hb.
Qed.

(** X21: when no two ordered keys have the same key, [getColor] asks the
    color scheme for a defined value in [[0, 1]] for each of them, and for
    a larger value the further down the key is: no two keys get the same
    value. *)
Theorem keyValue_increasing :
  forall (orderedKeys : list OrderedKey.t) (i j : nat) (a b : OrderedKey.t),
    NoDup (map OrderedKey.key orderedKeys) ->
    nth_error orderedKeys i = Some a ->
    nth_error orderedKeys j = Some b ->
    (i < j)%nat ->
    exists va vb : Q,
      keyValue (OrderedKey.key a) orderedKeys = Some va /\
      keyValue (OrderedKey.key b) orderedKeys = Some vb /\
      (0 <= va)%Q /\ (va < vb)%Q /\ (vb <= 1)%Q.
Proof.
  intros orderedKeys i j a b Hnodup Hi Hj Hij.
  assert (Hlen : (j < length orderedKeys)%nat) by (apply nth_error_Some; congruence).
  unfold keyValue, findIndex.
  rewrite (findIndexFrom_key orderedKeys 0 i a Hnodup Hi).
  rewrite (findIndexFrom_key orderedKeys 0 j b Hnodup Hj).
  clear Hnodup Hi Hj. unfold jsLength.
  destruct (Z.of_nat (length orderedKeys) <? 5) eqn:Hsmall.
  - apply Z.ltb_lt in Hsmall.
    assert (Hcases : (length orderedKeys < 5)%nat) by lia. clear Hsmall.
    destruct (length orderedKeys) as [|[|[|[|[|n]]]]]; try lia;
      destruct j as [|[|[|[|j]]]]; try lia;
      destruct i as [|[|[|[|i]]]]; try lia;
      cbn; eexists; eexists; (split; [reflexivity |]); (split; [reflexivity |]);
      repeat split; lra.
  - apply Z.ltb_ge in Hsmall.
    set (len := Z.of_nat (length orderedKeys)) in *.
    assert (Hden : (0 < inject_Z (len - 1))%Q).
    { change 0%Q with (inject_Z 0). rewrite <- Zlt_Qlt. lia. }
    eexists; eexists; split; [reflexivity |]; split; [reflexivity |].
    rewrite !Z.add_0_l.
    split; [| split].
    + apply Qle_shift_div_l; [exact Hden |].
      rewrite Qmult_0_l. change 0%Q with (inject_Z 0). rewrite <- Zle_Qle. lia.
    + unfold Qdiv. apply Qmult_lt_compat_r; [apply Qinv_lt_0_compat, Hden |].
      rewrite <- Zlt_Qlt. lia.
    + apply Qle_shift_div_r; [exact Hden |].
      rewrite Qmult_1_l. rewrite <- Zle_Qle. subst len. lia.
Qed.

Lemma keyValue_increasing_witness :
  exists va vb : Q,
    keyValue "shirts" twoKeys = Some va /\ keyValue "hats" twoKeys = Some vb /\
    (0 <= va)%Q /\ (va < vb)%Q /\ (vb <= 1)%Q.
Proof.
  apply (keyValue_increasing twoKeys 0 1
           (OrderedKey.mk "shirts" true (Num 7) true) (OrderedKey.mk "hats" true (Num 4) true)).
  - cbn. repeat constructor; cbn; intuition discriminate.
  - reflexivity.
  - reflexivity.
  - lia.
Defined.

(** X22: for a key that is not among the ordered keys, [getColor] asks the
    color scheme for [undefined] when there are fewer than five keys and
    for the negative value [-1 / (length - 1)] otherwise: never for a
    value in [[0, 1]]. *)
Theorem keyValue_unknown_key :
  forall (key : string) (orderedKeys : list OrderedKey.t),
    (forall r, In r orderedKeys -> OrderedKey.key r <> key) ->
    (jsLength orderedKeys < 5 -> keyValue key orderedKeys = None) /\
    (5 <= jsLength orderedKeys ->
     exists v : Q,
       keyValue key orderedKeys = Some v /\
       (v == -1 / inject_Z (jsLength orderedKeys - 1))%Q /\ (v < 0)%Q).
Proof.
  intros key orderedKeys Hnone.
  assert (Hidx : findIndex (fun d => String.eqb (OrderedKey.key d) key) orderedKeys = -1).
  { apply findIndexFrom_absent. intros r Hr. apply String.eqb_neq, Hnone, Hr. }
  unfold keyValue. rewrite Hidx. split; intro Hlen.
  - rewrite (proj2 (Z.ltb_lt _ _) Hlen).
    destruct (jsIndex smallColorScales (jsLength orderedKeys)); reflexivity.
  - rewrite (proj2 (Z.ltb_ge _ _) Hlen).
    eexists. split; [reflexivity |]. split; [reflexivity |].
    assert (Hden : (0 < inject_Z (jsLength orderedKeys - 1))%Q).
    { change 0%Q with (inject_Z 0). rewrite <- Zlt_Qlt. lia. }
    apply Qlt_shift_div_r; [exact Hden |]. rewrite Qmult_0_l. reflexivity.
Qed.

Lemma keyValue_unknown_key_witness :
  keyValue "socks" twoKeys = None /\
  exists v : Q, keyValue "socks" sixKeys = Some v /\ (v < 0)%Q.
Proof.
  split.
  - apply (keyValue_unknown_key "socks" twoKeys).
    + intros r [<- | [<- | []]]; discriminate.
    + reflexivity.
  - destruct (keyValue_unknown_key "socks" sixKeys) as [_ Hlarge].
    + intros r Hr. cbn in Hr.
      repeat (destruct Hr as [<- | Hr]; [discriminate |]). contradiction.
    + destruct (Hlarge ltac:(discriminate)) as (v & Hv & _ & Hneg).
      exists v. split; assumption.
Defined.

(** ** The labels of the axis *)

Lemma wordDiffers_same (a : option string) : wordDiffers a a = false.
Proof. destruct a as [w|]; cbn; [rewrite String.eqb_refl |]; reflexivity. Qed.

Lemma compareLoop_same (words : list string) :
  forall (count : nat) (x : Z) (diff : list (option string)),
    compareLoop words words count x diff = diff.
Proof.
  induction count as [|count IH]; intros x diff; cbn [compareLoop]; [reflexivity |].
  rewrite wordDiffers_same. apply IH.
Qed.

Lemma jsIndex_middle {A : Type} (before after : list A) (a : A) :
  jsIndex (before ++ a :: after) (Z.of_nat (length before)) = Some a.
Proof.
  unfold jsIndex. rewrite (proj2 (Z.ltb_ge _ _)) by lia.
  rewrite Nat2Z.id, nth_error_app2 by lia. rewrite Nat.sub_diag. reflexivity.
Qed.

(** The loop over two lists of words of the same length, from the position
    after [before1] and [before2]. *)
Lemma compareLoop_words (after1 : list string) :
  forall (before1 before2 after2 : list string) (diff : list (option string)),
    length before1 = length before2 ->
    length after1 = length after2 ->
    compareLoop (before1 ++ after1) (before2 ++ after2) (length after1)
      (Z.of_nat (length before1)) diff
    = diff ++ map (fun p => Some (snd p))
                  (filter (fun p => negb (String.eqb (fst p) (snd p)))
                          (combine after1 after2)).
Proof.
  induction after1 as [|a after1 IH]; intros before1 before2 after2 diff Hbefore Hafter.
  - cbn. symmetry. apply app_nil_r.
  - destruct after2 as [|b after2]; [discriminate |].
    assert (H1 : jsIndex (before1 ++ a :: after1) (Z.of_nat (length before1)) = Some a)
      by apply jsIndex_middle.
    assert (H2 : jsIndex (before2 ++ b :: after2) (Z.of_nat (length before1)) = Some b)
      by (rewrite Hbefore; apply jsIndex_middle).
    cbn [length compareLoop combine filter fst snd].
    rewrite H1, H2. cbn [wordDiffers]. clear H1 H2.
    replace (before1 ++ a :: after1) with ((before1 ++ [a]) ++ after1)
      by (rewrite <- app_assoc; reflexivity).
    replace (before2 ++ b :: after2) with ((before2 ++ [b]) ++ after2)
      by (rewrite <- app_assoc; reflexivity).
    replace (Z.of_nat (length before1) + 1)
      with (Z.of_nat (length (before1 ++ [a])))
      by (rewrite length_app; cbn; lia).
    rewrite IH; [| rewrite !length_app; cbn; lia | cbn in Hafter; lia].
    destruct (negb (String.eqb a b)); cbn [map].
    + rewrite <- app_assoc. reflexivity.
    + reflexivity.
Qed.

(** X23: when the two strings have the same number of words,
    [compareStrings] returns the words of [s2] that differ from the word of
    [s1] at the same position, in their order, and nothing [undefined]. *)
Theorem compareStrings_same_word_count :
  forall s1 s2 splitChar : string,
    length (jsSplit splitChar s1) = length (jsSplit splitChar s2) ->
    compareStrings s1 s2 splitChar
    = map (fun p => Some (snd p))
          (filter (fun p => negb (String.eqb (fst p) (snd p)))
                  (combine (jsSplit splitChar s1) (jsSplit splitChar s2))).
Proof.
  intros s1 s2 splitChar Hwords. unfold compareStrings.
  assert (Hlong : length (if (String.length s2 <? String.length s1)%nat
                          then jsSplit splitChar s1 else jsSplit splitChar s2)
                  = length (jsSplit splitChar s1))
    by (destruct (String.length s2 <? String.length s1)%nat; congruence).
  rewrite Hlong.
  exact (compareLoop_words (jsSplit splitChar s1) [] [] (jsSplit splitChar s2) []
           eq_refl Hwords).
Qed.

Lemma compareStrings_same_word_count_witness :
  compareStrings "Jan 2018" "Feb 2018" " " = [Some "Feb"%string].
Proof.
  exact (compareStrings_same_word_count "Jan 2018" "Feb 2018" " " eq_refl).
Defined.

(** X24: [removeDuplicateDates] gives the first tick its full label, and
    any later tick whose label would repeat the one before it the empty
    label. *)
Theorem removeDuplicateDates_repeated_label :
  forall (d : string) (i : Z) (ticks : list string) (formatter : option string -> string),
    i <> 0 ->
    formatter (jsIndex ticks (i - 1)) = formatter (Some d) ->
    removeDuplicateDates d i ticks formatter = EmptyString /\
    removeDuplicateDates d 0 ticks formatter = formatter (Some d).
Proof.
  intros d i ticks formatter Hi Hsame. split; [| reflexivity].
  unfold removeDuplicateDates. apply Z.eqb_neq in Hi. rewrite Hi. cbn [negb].
  rewrite Hsame. unfold compareStrings. rewrite compareLoop_same. reflexivity.
Qed.

Lemma removeDuplicateDates_repeated_label_witness :
  removeDuplicateDates "2018-01-02" 1 evenDates yearAndMonth = EmptyString /\
  removeDuplicateDates "2018-01-02" 0 evenDates yearAndMonth = "2018 01"%string.
Proof.
  apply (removeDuplicateDates_repeated_label "2018-01-02" 1 evenDates yearAndMonth).
  - discriminate.
  - reflexivity.
Defined.

(** ** The ticks and the maximum of the chart *)

Lemma Subseq_NoDup {A : Type} (sub l : list A) : Subseq sub l -> NoDup l -> NoDup sub.
Proof.
  induction 1 as [|a sub l H IH | a sub l H IH]; intro Hl.
  - constructor.
  - inversion Hl as [|? ? Hnotin Hrest]; subst.
    constructor; [| apply IH, Hrest].
    intro Hin. apply Hnotin. exact (Subseq_In _ _ _ H Hin).
  - inversion Hl; subst. apply IH. assumption.
Qed.

(** X25: in the pipeline of [getParams], [getXTicks] always returns, given
    fuel above the number of dates: its ticks fit the budget of the width,
    no tick is repeated, they are in ascending order of parsed date, and
    each one is the date of a row. *)
Theorem getXTicks_of_pipeline :
  forall (getMonth : string -> option Z) (data : list DataRow)
         (orderedKeys : list OrderedKey.t) (parseDate : string -> Z)
         (width : Q) (mode interval : string),
    let uniqueDates := getUniqueDates (getLineData data orderedKeys) parseDate in
    exists ticks,
      (forall fuel, (length uniqueDates < fuel)%nat ->
         getXTicks getMonth fuel uniqueDates width mode interval = Some ticks) /\
      jsLength ticks <= calculateMaxXTicks width mode /\
      NoDup ticks /\
      sortedByDate parseDate ticks /\
      forall tick, In tick ticks -> exists row, In row data /\ row_date row = tick.
Proof.
  intros getMonth data orderedKeys parseDate width mode interval uniqueDates.
  destruct (collapseDates_Subseq getMonth uniqueDates interval) as [Hsub _].
  destruct (thinDates_ticks (collapseDates getMonth uniqueDates interval)
              (calculateMaxXTicks width mode)
              (proj1 (calculateMaxXTicks_range width mode)))
    as (ticks & Hrun & Hlen & Hsub' & _).
  assert (Hticks : Subseq ticks uniqueDates) by (eapply Subseq_trans; eassumption).
  exists ticks. split; [| split; [exact Hlen | split; [| split]]].
  - intros fuel Hfuel. unfold getXTicks. apply Hrun.
    pose proof (Subseq_length _ _ Hsub). lia.
  - apply (Subseq_NoDup _ _ Hticks). subst uniqueDates. unfold getUniqueDates, newSet.
    eapply Permutation_NoDup; [apply Permutation_sym, sortByDate_perm |].
    apply setFrom_NoDup.
  - apply StronglySorted_Sorted. apply (Subseq_sorted _ _ _ Hticks).
    apply sortByDate_sorted.
  - intros tick Htick. apply (Subseq_In _ _ _ Hticks) in Htick.
    apply getUniqueDates_getLineData in Htick. tauto.
Qed.

Local Open Scope Q_scope.

Lemma d3Max_attained (l : list (option Q)) :
  forall m : Q, d3Max l = Some m -> In (Some m) l.
Proof.
  induction l as [|[a|] rest IH]; intros m H; cbn in H.
  - discriminate.
  - destruct (d3Max rest) as [m'|].
    + injection H as <-. destruct (Qle_bool m' a); [left; reflexivity |].
      right. apply IH. reflexivity.
    + injection H as <-. left; reflexivity.
  - right. apply IH, H.
Qed.

Lemma maxRawValue_getLineData (data : list DataRow) (orderedKeys : list OrderedKey.t) :
  maxRawValue (getLineData data orderedKeys) = None <-> data = [] \/ orderedKeys = [].
Proof.
  split.
  - intro Hmax.
    destruct data as [|row data']; [left; reflexivity |].
    destruct orderedKeys as [|r keys']; [right; reflexivity |]. exfalso.
    destruct (maxRawValue_some
                (getLineData (row :: data') (r :: keys'))
                (mkLine (OrderedKey.key r)
                   (map (fun d => mkLinePoint (row_date d) (getValue d (OrderedKey.key r)))
                        (row :: data')))
                (mkLinePoint (row_date row) (getValue row (OrderedKey.key r))))
      as [m Hm]; [left; reflexivity | left; reflexivity | congruence].
  - intro Hempty.
    destruct (maxRawValue (getLineData data orderedKeys)) as [m|] eqn:Hmax;
      [exfalso | reflexivity].
    unfold maxRawValue in Hmax. apply d3Max_attained in Hmax.
    apply in_map_iff in Hmax. destruct Hmax as (line & Hinner & Hline).
    apply d3Max_attained in Hinner.
    apply in_map_iff in Hinner. destruct Hinner as (point & _ & Hin).
    unfold getLineData in Hline. apply in_map_iff in Hline.
    destruct Hline as (r & <- & Hr). cbn in Hin.
    apply in_map_iff in Hin. destruct Hin as (row & _ & Hrow).
    destruct Hempty as [-> | ->]; contradiction.
Qed.

(** X26: [getYMax] of the lines of [getLineData] is [NaN] exactly when
    there is no row, or no key, or the maximum scaled by 4/3 is a positive
    double for which the power of ten of the step leaves the range of the
    doubles: it underflows to 0 with an exponent below -323, and the step
    overflows with one above 307. *)
Theorem getYMax_of_pipeline :
  forall (mathLog10 : Q -> Q) (data : list DataRow) (orderedKeys : list OrderedKey.t),
    Runtime.getYMax mathLog10 (getLineData data orderedKeys) = Runtime.NaN <->
    data = [] \/ orderedKeys = [] \/
    exists m : Q,
      maxRawValue (getLineData data orderedKeys) = Some m /\
      Runtime.underflowThreshold < 4 / 3 * m < Runtime.overflowThreshold /\
      ((Runtime.toInt32 (mathLog10 (4 / 3 * m)%Q + 1)%Q - 2 < -323)%Z \/
       (307 < Runtime.toInt32 (mathLog10 (4 / 3 * m)%Q + 1)%Q - 2)%Z).
Proof.
  intros mathLog10 data orderedKeys.
  assert (Hunder : 0 < Runtime.underflowThreshold) by reflexivity.
  destruct (maxRawValue (getLineData data orderedKeys)) as [m|] eqn:Hmax.
  - assert (Hrows : ~ (data = [] \/ orderedKeys = [])).
    { intro H. apply maxRawValue_getLineData in H. congruence. }
    destruct (Runtime_getYMax_steps mathLog10 _ m Hmax)
      as [[Hover [s Hs]] | [[Hsmall (a & Ha & Hnan & _)] | [[Hlow Hhigh] Hsteps]]].
    + rewrite Hs. split; [discriminate |].
      intros [H | [H | (m' & Hm' & [Hlow Hhigh] & _)]]; [tauto | tauto |].
      injection Hm' as <-. rewrite Qabs_pos in Hover by lra. lra.
    + rewrite Ha. pose proof (pow10_pos (-2)) as Hpow.
      destruct (ceil_times_step a (pow10 (-2) * 3) ltac:(lra)) as [Hnot _].
      split; [intro H; exfalso; exact (Hnan (Hnot H)) |].
      intros [H | [H | (m' & Hm' & [Hlow Hhigh] & _)]]; [tauto | tauto |].
      injection Hm' as <-. lra.
    + rewrite Hsteps. cbv zeta.
      set (e := Z.sub (Runtime.toInt32 (mathLog10 (4 / 3 * m)%Q + 1)%Q) 2).
      destruct (pow3Y_range e) as (Hin & Hbelow & Habove).
      destruct (Z_lt_le_dec e (-323)) as [He | He].
      { rewrite getYMax_step_out_of_range; [| lra | left; exact (Hbelow He)].
        split; [intros _ | reflexivity]. right; right. exists m.
        split; [reflexivity | split; [split; assumption | left; exact He]]. }
      destruct (Z_lt_le_dec 307 e) as [He' | He'].
      { rewrite getYMax_step_out_of_range; [| lra | right; exact (Habove He')].
        split; [intros _ | reflexivity]. right; right. exists m.
        split; [reflexivity | split; [split; assumption | right; exact He']]. }
      destruct (Hin ltac:(lia)) as [[Hsteplow _] Hpow]. rewrite Hpow.
      rewrite div_by_step by lra.
      destruct (ceil_times_step (Runtime.round (4 / 3 * m / (pow10 e * 3))) (pow10 e * 3)
                  ltac:(lra)) as [Hnot _].
      split; [intro H; exfalso; exact (round_not_NaN _ (Hnot H)) |].
      intros [H | [H | (m' & Hm' & _ & He'')]]; [tauto | tauto |].
      injection Hm' as <-. fold e in He''. lia.
  - split; [intros _ | intros _].
    + apply maxRawValue_getLineData in Hmax. tauto.
    + unfold Runtime.getYMax. rewrite Hmax. reflexivity.
Qed.

Local Close Scope Q_scope.

(** ** The span of a date and the position of the date *)

Local Open Scope Q_scope.

(** X27: whatever the spacing of the dates, every span after the first
    starts half way between the date before and its own date; when the
    scale does not decrease from the one to the other the span holds the
    position of its date: a span between two others is centred on it, and
    the last span ends on it. *)
Theorem getDateSpaces_span_holds_date :
  forall (data : list DataRow) (uniqueDates : list string) (width : Q)
         (xLineScale : string -> Q) (spans : list DateSpace.t)
         (k : nat) (s : DateSpace.t) (prev d : string),
    getDateSpaces data uniqueDates width xLineScale = Some spans ->
    nth_error spans (S k) = Some s ->
    nth_error uniqueDates k = Some prev ->
    nth_error uniqueDates (S k) = Some d ->
    xLineScale prev <= xLineScale d ->
    DateSpace.start s == (xLineScale prev + xLineScale d) / 2 /\
    DateSpace.start s <= xLineScale d <= DateSpace.start s + DateSpace.width s /\
    ((S (S k) < length uniqueDates)%nat ->
     xLineScale d - DateSpace.start s
     == DateSpace.start s + DateSpace.width s - xLineScale d) /\
    (S (S k) = length uniqueDates ->
     DateSpace.start s + DateSpace.width s == xLineScale d).
Proof.
  intros data uniqueDates width xLineScale spans k s prev d Hrun Hs Hprev Hd Hle.
  destruct (getDateSpaces_nth data uniqueDates width xLineScale spans Hrun) as [_ Hnth].
  destruct (Hnth (S k) s Hs) as (d' & Hd' & Hstart & Hwidth).
  assert (d' = d) by congruence. subst d'.
  assert (Hlen : (S k < length uniqueDates)%nat) by (apply nth_error_Some; congruence).
  destruct (Nat.eq_dec (S (S k)) (length uniqueDates)) as [Hlast | Hmid].
  - rewrite (spanStartWidth_last uniqueDates width xLineScale k prev d Hlast Hprev Hd)
      in Hstart, Hwidth.
    cbn [fst snd] in Hstart, Hwidth. rewrite Hstart, Hwidth.
    split; [| split; [split | split; intro Hcase]]; try (exfalso; lia); lra_halves.
  - assert (Hlt : (S (S k) < length uniqueDates)%nat) by lia.
    rewrite (spanStartWidth_middle uniqueDates width xLineScale k prev d Hlt Hprev Hd)
      in Hstart, Hwidth.
    cbn [fst snd] in Hstart, Hwidth. rewrite Hstart, Hwidth.
    split; [| split; [split | split; intro Hcase]]; try (exfalso; lia); lra_halves.
Qed.

Lemma getDateSpaces_span_holds_date_witness :
  exists (spans : list DateSpace.t) (s : DateSpace.t),
    getDateSpaces (rowsOf unevenDates) unevenDates 30
      (linearScale isoOrdinal unevenDates 30) = Some spans /\
    nth_error spans 2 = Some s /\
    DateSpace.start s <= linearScale isoOrdinal unevenDates 30 "2018-01-04"
      <= DateSpace.start s + DateSpace.width s.
Proof.
  assert (Hrun : exists spans,
             getDateSpaces (rowsOf unevenDates) unevenDates 30
               (linearScale isoOrdinal unevenDates 30) = Some spans)
    by (eexists; vm_compute; reflexivity).
  destruct Hrun as [spans Hrun].
  assert (Hs : exists s, nth_error spans 2 = Some s).
  { destruct (getDateSpaces_nth _ _ _ _ spans Hrun) as [Hlen _].
    destruct (nth_error spans 2) as [s|] eqn:Hnth; [exists s; reflexivity |].
    apply nth_error_None in Hnth. rewrite Hlen in Hnth. cbn in Hnth. lia. }
  destruct Hs as [s Hs].
  exists spans, s. split; [exact Hrun | split; [exact Hs |]].
  destruct (getDateSpaces_span_holds_date (rowsOf unevenDates) unevenDates 30
              (linearScale isoOrdinal unevenDates 30) spans 1 s
              "2018-01-02" "2018-01-04" Hrun Hs eq_refl eq_refl) as (_ & Hholds & _).
  - vm_compute; discriminate.
  - exact Hholds.
Defined.

Local Close Scope Q_scope.

(** ** The strokes of the lines *)

Local Open Scope Q_scope.

(** X28: a wider chart never gets thinner lines or smaller dots, and more
    dates never get thicker lines; the stroke is 1.25, 2 or 3 and the
    radius 4 or 6. *)
Theorem lineStroke_monotone :
  forall (width1 width2 : Q) (dates1 dates2 : list string),
    width1 <= width2 ->
    (length dates1 <= length dates2)%nat ->
    lineStroke width1 dates2 <= lineStroke width2 dates1 /\
    dotRadius width1 <= dotRadius width2 /\
    125 # 100 <= lineStroke width1 dates1 <= 3 /\
    4 <= dotRadius width1 <= 6.
Proof.
  intros width1 width2 dates1 dates2 Hwidth Hdates.
  unfold lineStroke, dotRadius, smallBreak, wideBreak, jsLength.
  case_Qle width1 783; case_Qle width2 783; case_Qle width1 1365; case_Qle width2 1365;
    try (exfalso; lra); cbn [orb];
    destruct (50 <? Z.of_nat (length dates1))%Z eqn:H1;
    destruct (50 <? Z.of_nat (length dates2))%Z eqn:H2;
    try (apply Z.ltb_lt in H1; apply Z.ltb_ge in H2; exfalso; lia);
    repeat split; lra.
Qed.

Lemma lineStroke_monotone_witness :
  lineStroke 600 seventyDates <= lineStroke 1400 eightDates /\
  dotRadius 600 <= dotRadius 1400.
Proof.
  destruct (lineStroke_monotone 600 1400 eightDates seventyDates) as (Hstroke & Hdot & _).
  - vm_compute; discriminate.
  - cbn; lia.
  - split; assumption.
Defined.

Local Close Scope Q_scope.
